(** * Y2K digital-camera effect: a shallow embedding of the effect module

    The effect pipeline of the repository ([applyY2KCameraEffect] and the
    stage functions it calls) is transcribed function by function, and the
    properties the specification states of it are proved or refuted.  The
    hook that calls the pipeline ([useY2KCamera], with [loadSkImage]) is
    transcribed after it, and further properties of both are proved.

    Conventions of the embedding.
    - A JavaScript [number] holding a channel value or a parameter is a real
      number ([R]); the rounding of IEEE arithmetic and of [Float32Array]
      storage, NaN and the infinities are not modelled.  Integers that the
      code obtains with [Math.floor] / [Math.round] are [Z]; image
      dimensions and array indices are [nat].
    - A [Float32Array] is a [list R]; reads are [get], in-place writes are
      [set] (a typed array ignores a write past its end).  The loops of the
      source are [for_loop] and [scan] over the state they mutate.
    - A [Uint8Array] is a [list byte].
    - Skia is an external capability: what its primitives compute (resampled
      pixels, blurred pixels, encoded bytes, rasterised text, whether an
      allocation succeeds) is taken from a [SkiaBackend] record.
    - [throw] is the [Error] case of [result]; the ambient [Math.random] is a
      tape of the values its successive calls return, threaded through the
      functions that draw from it. *)

From Stdlib Require Import Reals Lra Lia ZArith List String Ascii Psatz Bool.
From Stdlib Require Import Strings.Byte DecimalString.
Import ListNotations.

Open Scope R_scope.

(* ------------------------------------------------------------------------- *)
(** ** JavaScript primitives *)

Module JS.

(** [Math.floor] and [Math.round] (round half up) on reals. *)
Definition Math_floor (x : R) : Z := Zfloor x.
Definition Math_round (x : R) : Z := Zfloor (x + 0.5).

Definition Math_max (a b : R) : R := Rmax a b.
Definition Math_min (a b : R) : R := Rmin a b.
Definition Math_sqrt (x : R) : R := sqrt x.

(** [Math.pow] for the bases the effect passes to it (never negative once
    the operand has been clamped); a negative base with a fractional
    exponent is NaN in JavaScript and has no real value: it is mapped to 0. *)
Definition Math_pow (x y : R) : R :=
  if Req_dec_T y 0 then 1
  else if Rlt_dec 0 x then Rpower x y else 0.

(** A [Float32Array]. *)
Definition Float32Array := list R.

Definition get (d : Float32Array) (i : nat) : R := nth i d 0.

Fixpoint set (d : Float32Array) (i : nat) (v : R) : Float32Array :=
  match d, i with
  | [], _ => []
  | _ :: t, O => v :: t
  | a :: t, S j => a :: set t j v
  end.

Definition new_Float32Array (n : nat) : Float32Array := repeat 0 n.

(** [for (let i = 0; i < n; i++) body(i)] on a state of type [A]. *)
Fixpoint for_loop {A : Type} (n : nat) (body : nat -> A -> A) (a : A) : A :=
  match n with
  | O => a
  | S k => body k (for_loop k body a)
  end.

(** [for (let i = start; i < stop; i += 4)]. *)
Definition for_step4 {A : Type} (start len : nat) (body : nat -> A -> A)
           (a : A) : A :=
  for_loop ((len + 3 - start) / 4) (fun k => body (start + 4 * k)%nat) a.

(** Conversion of an in-range integer to a [Uint8Array] element (the
    assignment wraps modulo 256). *)
Definition Uint8 (z : Z) : byte :=
  match Byte.of_N (Z.to_N (z mod 256)) with
  | Some b => b
  | None => "000"%byte
  end.

Definition byte_to_R (b : byte) : R := IZR (Z.of_N (Byte.to_N b)).

(** [String(n)] for a non-negative integer and [padStart]. *)
Definition String_of_Z (z : Z) : string := NilZero.string_of_int (Z.to_int z).

Fixpoint replicate_string (n : nat) (c : ascii) : string :=
  match n with
  | O => EmptyString
  | S k => String c (replicate_string k c)
  end.

Definition padStart (s : string) (n : nat) (c : ascii) : string :=
  append (replicate_string (n - String.length s) c) s.

End JS.
Import JS.

(* ------------------------------------------------------------------------- *)
(** ** Errors and ambient randomness *)

(** The outcome of a function that may [throw]. *)
Inductive result (A : Type) : Type :=
| Ok (a : A)
| Error (msg : string).
Arguments Ok {A} a.
Arguments Error {A} msg.

(** The values the next calls of [Math.random()] return. *)
Definition tape := list R.

(** The outcome of a function that may also draw from [Math.random]:
    [Starved] is a run that asks for more draws than the tape holds (the
    [while (u === 0)] loops of [randomNormal] have no bound of their own). *)
Inductive outcome (A : Type) : Type :=
| Returns (a : A) (rest : tape)
| Throws (msg : string)
| Starved.
Arguments Returns {A} a rest.
Arguments Throws {A} msg.
Arguments Starved {A}.

Definition Rand (A : Type) : Type := tape -> outcome A.

Class Monad (m : Type -> Type) : Type := {
  ret : forall {A}, A -> m A;
  bind : forall {A B}, m A -> (A -> m B) -> m B
}.

#[export] Instance result_Monad : Monad result := {
  ret := fun A a => Ok a;
  bind := fun A B r k => match r with Ok a => k a | Error msg => Error msg end
}.

#[export] Instance Rand_Monad : Monad Rand := {
  ret := fun A a t => Returns a t;
  bind := fun A B r k t =>
            match r t with
            | Returns a t' => k a t'
            | Throws msg => Throws msg
            | Starved => Starved
            end
}.

Notation "x <- c1 ;; c2" := (bind c1 (fun x => c2))
  (at level 61, c1 at next level, right associativity).

(** A throwing computation run where randomness is ambient. *)
Definition lift {A : Type} (r : result A) : Rand A :=
  fun t => match r with Ok a => Returns a t | Error msg => Throws msg end.

(** [Math.random()]. *)
Definition Math_random : Rand R :=
  fun t => match t with
           | [] => Starved
           | u :: t' => Returns u t'
           end.

(** [let u = 0; while (u === 0) u = Math.random();] *)
Fixpoint random_nonzero (t : tape) : outcome R :=
  match t with
  | [] => Starved
  | u :: t' => if Req_dec_T u 0 then random_nonzero t' else Returns u t'
  end.

(** Simple normally-distributed random using Box-Muller. *)
Definition randomNormal : Rand R :=
  u <- random_nonzero ;;
  v <- random_nonzero ;;
  ret (Math_sqrt (-2.0 * ln u) * cos (2.0 * PI * v)).

(* ------------------------------------------------------------------------- *)
(** ** Types *)

Record Y2KOptions : Type := {
  opt_intensity : option R;
  opt_addDateStamp : option bool;
  opt_dateStampText : option string;
  opt_outputQuality : option Z
}.

Record BloomOptions : Type := {
  intensity : R;
  highlightThreshold : R;
  bloomStrength : R;
  bloomRadius : R;
  shadowCrushStrength : R;
  shadowCrushRadius : R
}.

(** An [SkImage]: its dimensions and its RGBA_8888 pixel store. *)
Record SkImage : Type := {
  width : nat;
  height : nat;
  pixels : list byte
}.

(** What [imageToPixels] returns. *)
Record PixelData : Type := {
  data : Float32Array;
  px_width : nat;
  px_height : nat
}.

(** The Skia primitives the effect relies on. *)
Record SkiaBackend : Type := {
  (** whether [Skia.Surface.Make(w, h)] yields a surface *)
  Surface_Make : Z -> Z -> bool;
  (** whether [image.readPixels] yields a buffer *)
  readPixels_ok : SkImage -> bool;
  (** whether [Skia.Image.MakeImage] yields an image *)
  MakeImage_ok : nat -> nat -> list byte -> bool;
  (** pixels of a [w]x[h] surface after [drawImageRect] of the whole image *)
  drawImageRect : SkImage -> Z -> Z -> list byte;
  (** pixels of a surface after [drawImage] through [MakeBlur(sigma, sigma)] *)
  MakeBlur : R -> SkImage -> list byte;
  (** [image.encodeToBytes(format, quality)] *)
  encodeToBytes : SkImage -> Z -> option (list byte);
  (** [Skia.Image.MakeImageFromEncoded] *)
  MakeImageFromEncoded : list byte -> option SkImage;
  (** [font.measureText(text).width] at a font size *)
  measureText : string -> Z -> R;
  (** pixels of a surface holding [canvas] after [drawText(text, x, y)] in
      a colour at a font size *)
  drawText : list byte -> nat -> nat -> string -> R -> R -> string -> Z -> list byte
}.

(* ------------------------------------------------------------------------- *)
(** ** Inline pixel-level helpers *)

(** Index into flat RGBA buffer. *)
Definition idx (x y w c : nat) : nat := ((y * w + x) * 4 + c)%nat.

(** Compute luminance for a pixel. *)
Definition luminance (d : Float32Array) (x y w : nat) : R :=
  let base := ((y * w + x) * 4)%nat in
  0.299 * get d base + 0.587 * get d (base + 1) + 0.114 * get d (base + 2).

(** Clamp value between min and max. *)
Definition clamp (val min max : R) : R :=
  if Rlt_dec val min then min else if Rgt_dec val max then max else val.

(** [clamp] at the call sites whose three arguments are integers. *)
Definition clampZ (val min max : Z) : Z :=
  if (val <? min)%Z then min else if (val >? max)%Z then max else val.

(** PIL radius -> Skia sigma conversion. *)
Definition pilRadiusToSigma (radius : R) : R := radius * 0.425.

(** The nested [for y < h / for x < w] scan of the stages. *)
Definition scan {A : Type} (w h : nat) (body : nat -> nat -> A -> A) (a : A) : A :=
  for_loop h (fun y => for_loop w (fun x => body x y)) a.

(* ------------------------------------------------------------------------- *)
(** ** Effect functions on pixel buffers *)

(** Step 2: cool blue/cyan colour cast. *)
Definition applyCoolCast (d : Float32Array) (w h : nat) (intensity : R)
  : Float32Array :=
  let rMul := 1.0 - 0.06 * intensity in
  let gMul := 1.0 + 0.02 * intensity in
  let bMul := 1.0 + 0.08 * intensity in
  scan w h (fun x y d =>
    let base := ((y * w + x) * 4)%nat in
    let d := set d base (clamp (get d base * rMul) 0 255) in
    let d := set d (base + 1) (clamp (get d (base + 1) * gMul) 0 255) in
    set d (base + 2) (clamp (get d (base + 2) * bMul) 0 255)) d.

(** Step 3a: overall saturation by the luminance-desaturation method. *)
Definition adjustSaturation (d : Float32Array) (w h : nat) (factor : R)
  : Float32Array :=
  scan w h (fun x y d =>
    let base := ((y * w + x) * 4)%nat in
    let r := get d base in
    let g := get d (base + 1) in
    let b := get d (base + 2) in
    let lum := 0.299 * r + 0.587 * g + 0.114 * b in
    let d := set d base (clamp (lum + (r - lum) * factor) 0 255) in
    let d := set d (base + 1) (clamp (lum + (g - lum) * factor) 0 255) in
    set d (base + 2) (clamp (lum + (b - lum) * factor) 0 255)) d.

(** Step 3b: vibrance, which enhances less-saturated colours more. *)
Definition adjustVibrance (d : Float32Array) (w h : nat) (vibranceFactor : R)
  : Float32Array :=
  if Req_dec_T vibranceFactor 1.0 then d
  else
    scan w h (fun x y d =>
      let base := ((y * w + x) * 4)%nat in
      let r := get d base / 255 in
      let g := get d (base + 1) / 255 in
      let b := get d (base + 2) / 255 in
      let maxC := Math_max (Math_max r g) b in
      let minC := Math_min (Math_min r g) b in
      let sat := if Req_dec_T maxC 0 then 0 else (maxC - minC) / maxC in
      let curve := Math_pow (1.0 - sat) 1.5 in
      let adjustment := (vibranceFactor - 1.0) * curve in
      let lum := 0.299 * r + 0.587 * g + 0.114 * b in
      let newFactor := 1.0 + adjustment in
      let d := set d base (clamp ((lum + (r - lum) * newFactor) * 255) 0 255) in
      let d := set d (base + 1)
                   (clamp ((lum + (g - lum) * newFactor) * 255) 0 255) in
      set d (base + 2) (clamp ((lum + (b - lum) * newFactor) * 255) 0 255)) d.

(** Step 4: reduce dynamic range. *)
Definition reduceDynamicRange (d : Float32Array) (w h : nat) (intensity : R)
  : Float32Array :=
  let blackLift := 8 * intensity in
  let highlightCompress := 0.95 - 0.05 * intensity in
  let contrastReduction := 0.9 + 0.1 * (1 - intensity) in
  let mid := 128 in
  for_loop (w * h * 4) (fun i d =>
    if (i mod 4 =? 3)%nat then d
    else
      let v := get d i in
      let v := v + blackLift in
      let v := v * highlightCompress in
      let v := (v - mid) * contrastReduction + mid in
      set d i (clamp v 0 255)) d.

(** Step 5b: chromatic aberration, R and B shifted in opposite directions.
    [srcRY >= 0 && srcRX >= 0] is decided on the integers [y - shift] and
    [x - shift]. *)
Definition addChromaticAberration (d : Float32Array) (w h : nat) (intensity : R)
  : Float32Array :=
  let shift := Math_floor (2 * intensity) in
  if (shift <? 1)%Z then d
  else
    let orig := d in
    let blendOrig := 1 - 0.5 * intensity in
    let blendShift := 0.5 * intensity in
    scan w h (fun x y d =>
      let base := ((y * w + x) * 4)%nat in
      let srcRY := (Z.of_nat y - shift)%Z in
      let srcRX := (Z.of_nat x - shift)%Z in
      let d :=
        if ((0 <=? srcRY) && (0 <=? srcRX))%Z then
          let srcBase := Z.to_nat ((srcRY * Z.of_nat w + srcRX) * 4) in
          set d base
              (clamp (get orig base * blendOrig + get orig srcBase * blendShift)
                     0 255)
        else d in
      let srcBY := (Z.of_nat y + shift)%Z in
      let srcBX := (Z.of_nat x + shift)%Z in
      if ((srcBY <? Z.of_nat h) && (srcBX <? Z.of_nat w))%Z then
        let srcBase := Z.to_nat ((srcBY * Z.of_nat w + srcBX) * 4) in
        set d (base + 2)
            (clamp (get orig (base + 2) * blendOrig
                    + get orig (srcBase + 2) * blendShift) 0 255)
      else d) d.

(** The loop of step 6 (unsharp mask) over the buffers read from the image
    and from its blurred copy. *)
Definition sharpen_loop (origPx blurPx : Float32Array) (sharpeningAmount : R)
  : Float32Array :=
  for_loop (List.length origPx) (fun i d =>
    if (i mod 4 =? 3)%nat then d
    else
      set d i (clamp (get d i + (get d i - get blurPx i) * sharpeningAmount)
                     0 255)) origPx.

(** Step 7: digital sensor noise, heavier in shadows. *)
Definition addDigitalNoise (d : Float32Array) (w h : nat) (intensity : R)
  : Rand Float32Array :=
  let noiseStrength := 12 * intensity in
  scan w h (fun x y (acc : Rand Float32Array) =>
    d <- acc ;;
    let base := ((y * w + x) * 4)%nat in
    let lum := luminance d x y w in
    let shadowMask := 1 - lum / 255 in
    for_loop 3 (fun c (acc : Rand Float32Array) =>
      d <- acc ;;
      n <- randomNormal ;;
      let noise := n * noiseStrength in
      let weighted := noise * (0.5 + shadowMask * 0.5) in
      ret (set d (base + c) (clamp (get d (base + c) + weighted) 0 255)))
      (ret d)) (ret d).

(** Step 9: barrel distortion. *)
Definition applyBarrelDistortion (d : Float32Array) (w h : nat) (intensity : R)
  : Float32Array :=
  let k := 0.1 * intensity in
  let cx := INR w / 2 in
  let cy := INR h / 2 in
  let result := new_Float32Array (List.length d) in
  let result := for_step4 3 (List.length result) (fun i r => set r i 255) result in
  scan w h (fun x y result =>
    let xNorm := (INR x - cx) / cx in
    let yNorm := (INR y - cy) / cy in
    let r := Math_sqrt (xNorm * xNorm + yNorm * yNorm) in
    let rDistorted := r * (1 + k * r * r) in
    let scale := if Req_dec_T r 0 then 1 else rDistorted / r in
    let srcX := clampZ (Math_round (xNorm * scale * cx + cx)) 0 (Z.of_nat w - 1) in
    let srcY := clampZ (Math_round (yNorm * scale * cy + cy)) 0 (Z.of_nat h - 1) in
    let dstBase := ((y * w + x) * 4)%nat in
    let srcBase := Z.to_nat ((srcY * Z.of_nat w + srcX) * 4) in
    let result := set result dstBase (get d srcBase) in
    let result := set result (dstBase + 1) (get d (srcBase + 1)) in
    set result (dstBase + 2) (get d (srcBase + 2))) result.

(* ------------------------------------------------------------------------- *)
(** ** Pixel loops of the image-level stages *)

(** Step 4b, first loop: the luminance channel. *)
Definition localContrast_lumData (d : Float32Array) (width height : nat)
  : Float32Array :=
  scan width height (fun x y lumData =>
    set lumData (y * width + x) (luminance d x y width))
    (new_Float32Array (width * height)).

(** Step 4b, second loop: a grayscale RGBA buffer from the luminance. *)
Definition localContrast_lumRGBA (lumData : Float32Array) (width height : nat)
  : Float32Array :=
  for_loop (width * height) (fun i lumRGBA =>
    let v := get lumData i in
    let lumRGBA := set lumRGBA (i * 4) v in
    let lumRGBA := set lumRGBA (i * 4 + 1) v in
    let lumRGBA := set lumRGBA (i * 4 + 2) v in
    set lumRGBA (i * 4 + 3) 255)
    (new_Float32Array (width * height * 4)).

(** Step 4b, last loop: each pixel is blended toward the local mean. *)
Definition localContrast_apply (d lumData blurred : Float32Array)
           (width height : nat) (amount : R) : Float32Array :=
  scan width height (fun x y d =>
    let lum := get lumData (y * width + x) in
    let localMean := get blurred ((y * width + x) * 4) in
    let lumReduced := localMean + (lum - localMean) * (1 - amount) in
    let ratio := if Req_dec_T lum 0 then 1 else clamp (lumReduced / lum) 0 2 in
    let base := ((y * width + x) * 4)%nat in
    let d := set d base (clamp (get d base * ratio) 0 255) in
    let d := set d (base + 1) (clamp (get d (base + 1) * ratio) 0 255) in
    set d (base + 2) (clamp (get d (base + 2) * ratio) 0 255)) d.

(** Step 5: luminance and highlight mask. *)
Definition bloom_masks (d : Float32Array) (width height : nat)
           (opts : BloomOptions) : Float32Array * Float32Array :=
  scan width height (fun x y (st : Float32Array * Float32Array) =>
    let (lumArray, highlightMask) := st in
    let i := (y * width + x)%nat in
    let lum := luminance d x y width in
    let lumArray := set lumArray i lum in
    let hm := (lum - highlightThreshold opts) / (255 - highlightThreshold opts) in
    let hm := clamp hm 0 1 in
    let hm := Math_pow hm 0.7 in
    (lumArray, set highlightMask i hm))
    (new_Float32Array (width * height), new_Float32Array (width * height)).

(** Step 5: bloom layer (image * highlightMask). *)
Definition bloom_layer (d highlightMask : Float32Array) (width height : nat)
  : Float32Array :=
  scan width height (fun x y bloomPixels =>
    let i := (y * width + x)%nat in
    let base := (i * 4)%nat in
    let hm := get highlightMask i in
    let bloomPixels := set bloomPixels base (get d base * hm) in
    let bloomPixels := set bloomPixels (base + 1) (get d (base + 1) * hm) in
    let bloomPixels := set bloomPixels (base + 2) (get d (base + 2) * hm) in
    set bloomPixels (base + 3) 255)
    (new_Float32Array (width * height * 4)).

(** Step 5: 0.4 * b1 + 0.35 * b2 + 0.25 * b3. *)
Definition bloom_combine (bloom1 bloom2 bloom3 : Float32Array)
           (width height : nat) : Float32Array :=
  let combinedBloom := new_Float32Array (width * height * 4) in
  for_loop (List.length combinedBloom) (fun i combinedBloom =>
    set combinedBloom i
        (get bloom1 i * 0.4 + get bloom2 i * 0.35 + get bloom3 i * 0.25))
    combinedBloom.

(** Step 5: the highlight mask as a grayscale RGBA buffer. *)
Definition bloom_hmRGBA (highlightMask : Float32Array) (width height : nat)
  : Float32Array :=
  for_loop (width * height) (fun i hmRGBA =>
    let v := get highlightMask i * 255 in
    let hmRGBA := set hmRGBA (i * 4) v in
    let hmRGBA := set hmRGBA (i * 4 + 1) v in
    let hmRGBA := set hmRGBA (i * 4 + 2) v in
    set hmRGBA (i * 4 + 3) 255)
    (new_Float32Array (width * height * 4)).

(** Step 5: shadow-crush influence map. *)
Definition bloom_crushInfluence (crush1 crush2 : Float32Array)
           (width height : nat) : Float32Array :=
  for_loop (width * height) (fun i crushInfluence =>
    let c1 := get crush1 (i * 4) / 255 in
    let c2 := get crush2 (i * 4) / 255 in
    set crushInfluence i (c1 * 0.6 + c2 * 0.4))
    (new_Float32Array (width * height)).

(** Step 5: mean of the highlight mask. *)
Definition bloom_highlightAmount (highlightMask : Float32Array)
           (width height : nat) : R :=
  let highlightSum :=
    for_loop (width * height) (fun i s => s + get highlightMask i) 0 in
  highlightSum / INR (width * height).

(** Step 5: shadow crushing and black lift. *)
Definition bloom_adjusted (d lumArray crushInfluence : Float32Array)
           (highlightAmount : R) (width height : nat) (opts : BloomOptions)
  : Float32Array :=
  let shadowCrushFactor :=
    1.0 + 0.15 * intensity opts * shadowCrushStrength opts
          * (1 + highlightAmount * 2) in
  scan width height (fun x y adjusted =>
    let pi := (y * width + x)%nat in
    let base := (pi * 4)%nat in
    let lum := get lumArray pi in
    let shadowMask := clamp (1 - lum / 128) 0 1 in
    let shadowMask := Math_pow shadowMask 1.5 in
    let crushAmount :=
      shadowMask * get crushInfluence pi * 0.3 * intensity opts
      * shadowCrushStrength opts * shadowCrushFactor in
    let shadowAdj := 1 - crushAmount in
    let adjusted := set adjusted base (get d base * shadowAdj) in
    let adjusted := set adjusted (base + 1) (get d (base + 1) * shadowAdj) in
    let adjusted := set adjusted (base + 2) (get d (base + 2) * shadowAdj) in
    let adjusted := set adjusted (base + 3) 255 in
    let blackLift := 5 * intensity opts * (2 - shadowCrushStrength opts) in
    let adjusted := set adjusted base (Math_max (get adjusted base) blackLift) in
    let adjusted :=
      set adjusted (base + 1) (Math_max (get adjusted (base + 1)) blackLift) in
    set adjusted (base + 2) (Math_max (get adjusted (base + 2)) blackLift))
    (new_Float32Array (List.length d)).

(** Step 5: bloom compositing (screen blend + additive + colour shift). *)
Definition bloom_composite (adjusted combinedBloom : Float32Array)
           (len width height : nat) (opts : BloomOptions) : Float32Array :=
  let screenAmount := 0.5 * intensity opts * bloomStrength opts in
  let additiveAmount := 0.25 * intensity opts * bloomStrength opts in
  scan width height (fun x y result =>
    let base := ((y * width + x) * 4)%nat in
    let result :=
      for_loop 3 (fun c result =>
        let orig := get adjusted (base + c) / 255 in
        let bloom := get combinedBloom (base + c) / 255 in
        let screened := 1 - (1 - orig) * (1 - bloom * screenAmount) in
        set result (base + c)
            (screened * 255 + get combinedBloom (base + c) * additiveAmount))
        result in
    let bloomLum :=
      (get combinedBloom base + get combinedBloom (base + 1)
       + get combinedBloom (base + 2)) / 765 in
    let bmask := clamp bloomLum 0 1 in
    let result :=
      set result base
          (get result base + bmask * 8 * intensity opts * bloomStrength opts) in
    let result :=
      set result (base + 2)
          (get result (base + 2)
           + bmask * 4 * intensity opts * bloomStrength opts) in
    let result := set result base (clamp (get result base) 0 255) in
    let result := set result (base + 1) (clamp (get result (base + 1)) 0 255) in
    let result := set result (base + 2) (clamp (get result (base + 2)) 0 255) in
    set result (base + 3) 255)
    (new_Float32Array len).

(** The template string of the generated date:
    [month.padStart(2, "0") / day.padStart(2, "0") / year]. *)
Definition date_text (month day year : Z) : string :=
  (padStart (String_of_Z month) 2 "0" ++ "/"
   ++ padStart (String_of_Z day) 2 "0" ++ "/" ++ String_of_Z year)%string.

(** The text of a generated date stamp. *)
Definition generateDate : Rand string :=
  u1 <- Math_random ;;
  let year := (2001 + Math_floor (u1 * 6))%Z in
  u2 <- Math_random ;;
  let month := (1 + Math_floor (u2 * 12))%Z in
  u3 <- Math_random ;;
  let day := (1 + Math_floor (u3 * 28))%Z in
  ret (date_text month day year).

(* ------------------------------------------------------------------------- *)
(** ** Functions that go through Skia *)

(** A surface: its dimensions and what its canvas holds. *)
Record SkSurface : Type := {
  surf_width : Z;
  surf_height : Z;
  canvas : list byte
}.

(** [surface.makeImageSnapshot()]. *)
Definition makeImageSnapshot (s : SkSurface) : SkImage :=
  {| width := Z.to_nat (surf_width s);
     height := Z.to_nat (surf_height s);
     pixels := canvas s |}.

(** [uint8[i] = Math.max(0, Math.min(255, Math.round(data[i])))]. *)
Definition to_Uint8 (v : R) : byte :=
  Uint8 (Z.max 0 (Z.min 255 (Math_round v))).

Section Skia.

Variable B : SkiaBackend.

(** Reads the raw RGBA pixel bytes from an SkImage into a Float32Array. *)
Definition imageToPixels (image : SkImage) : result PixelData :=
  let width := width image in
  let height := height image in
  if readPixels_ok B image then
    Ok {| data := map byte_to_R (pixels image);
          px_width := width;
          px_height := height |}
  else Error "Failed to read pixels from SkImage".

(** Converts a Float32Array of RGBA pixel data back to an SkImage. *)
Definition pixelsToImage (d : Float32Array) (width height : nat)
  : result SkImage :=
  let uint8 := map to_Uint8 d in
  if MakeImage_ok B width height uint8 then
    Ok {| width := width; height := height; pixels := uint8 |}
  else Error "Failed to create SkImage from pixel data".

Definition makeSurface (width height : Z) : result SkSurface :=
  if Surface_Make B width height then
    Ok {| surf_width := width; surf_height := height; canvas := [] |}
  else Error "Failed to create Skia surface".

Definition drawImageToSurface (image : SkImage) (width height : Z)
  : result SkImage :=
  surface <- makeSurface width height ;;
  let surface :=
    {| surf_width := surf_width surface;
       surf_height := surf_height surface;
       canvas := drawImageRect B image width height |} in
  ret (makeImageSnapshot surface).

(** Apply a Skia Gaussian blur to an SkImage and return the result. *)
Definition applyGaussianBlur (image : SkImage) (sigma : R) : result SkImage :=
  if Rle_dec sigma 0 then Ok image
  else
    let w := width image in
    let h := height image in
    surface <- makeSurface (Z.of_nat w) (Z.of_nat h) ;;
    let surface :=
      {| surf_width := surf_width surface;
         surf_height := surf_height surface;
         canvas := MakeBlur B sigma image |} in
    ret (makeImageSnapshot surface).

(** Step 1: reduce to ~2MP. *)
Definition reduceResolution (image : SkImage) (intensity : R)
  : result SkImage :=
  let w := width image in
  let h := height image in
  let targetPixels := 2000000%Z in
  let currentPixels := (Z.of_nat w * Z.of_nat h)%Z in
  if (currentPixels <=? targetPixels)%Z then Ok image
  else
    let scale := Math_sqrt (IZR targetPixels / IZR currentPixels) in
    let blended := 1 - (1 - scale) * intensity in
    let newW := Math_round (INR w * blended) in
    let newH := Math_round (INR h * blended) in
    drawImageToSurface image newW newH.

(** Step 4b: the buffer handed to [pixelsToImage]. *)
Definition reduceLocalContrast_buffer (image : SkImage) (amount windowSize : R)
  : result PixelData :=
  px <- imageToPixels image ;;
  let d := data px in
  let width := px_width px in
  let height := px_height px in
  let lumData := localContrast_lumData d width height in
  let lumRGBA := localContrast_lumRGBA lumData width height in
  lumImage <- pixelsToImage lumRGBA width height ;;
  blurredLumImage <-
    applyGaussianBlur lumImage
      (pilRadiusToSigma (IZR (Math_floor (windowSize / 2)))) ;;
  blurredPixels <- imageToPixels blurredLumImage ;;
  ret {| data := localContrast_apply d lumData (data blurredPixels)
                                      width height amount;
         px_width := width;
         px_height := height |}.

(** Step 4b: reduce local contrast. *)
Definition reduceLocalContrast (image : SkImage) (amount windowSize : R)
  : result SkImage :=
  out <- reduceLocalContrast_buffer image amount windowSize ;;
  pixelsToImage (data out) (px_width out) (px_height out).

(** Step 5: the [result] buffer handed to [pixelsToImage]. *)
Definition applyBloomEffect_buffer (image : SkImage) (opts : BloomOptions)
  : result PixelData :=
  px <- imageToPixels image ;;
  let d := data px in
  let width := px_width px in
  let height := px_height px in
  let intensity := intensity opts in
  let (lumArray, highlightMask) := bloom_masks d width height opts in
  let bloomPixels := bloom_layer d highlightMask width height in
  bloomImage <- pixelsToImage bloomPixels width height ;;
  let baseBloomRadius := Math_max 15 (IZR (Math_floor (40 * intensity))) in
  let r1 := pilRadiusToSigma (baseBloomRadius * bloomRadius opts) in
  let r2 := pilRadiusToSigma (baseBloomRadius * bloomRadius opts * 2.5) in
  let r3 := pilRadiusToSigma (baseBloomRadius * bloomRadius opts * 4) in
  blur1 <- applyGaussianBlur bloomImage r1 ;;
  bloom1 <- imageToPixels blur1 ;;
  blur2 <- applyGaussianBlur bloomImage r2 ;;
  bloom2 <- imageToPixels blur2 ;;
  blur3 <- applyGaussianBlur bloomImage r3 ;;
  bloom3 <- imageToPixels blur3 ;;
  let combinedBloom :=
    bloom_combine (data bloom1) (data bloom2) (data bloom3) width height in
  let baseCrushRadius := Math_max 10 (IZR (Math_floor (30 * intensity))) in
  let cr1 := pilRadiusToSigma (baseCrushRadius * shadowCrushRadius opts) in
  let cr2 := pilRadiusToSigma (baseCrushRadius * shadowCrushRadius opts * 2) in
  let hmRGBA := bloom_hmRGBA highlightMask width height in
  hmImage <- pixelsToImage hmRGBA width height ;;
  crush1 <- applyGaussianBlur hmImage cr1 ;;
  crush1Pixels <- imageToPixels crush1 ;;
  crush2 <- applyGaussianBlur hmImage cr2 ;;
  crush2Pixels <- imageToPixels crush2 ;;
  let crushInfluence :=
    bloom_crushInfluence (data crush1Pixels) (data crush2Pixels) width height in
  let highlightAmount := bloom_highlightAmount highlightMask width height in
  let adjusted :=
    bloom_adjusted d lumArray crushInfluence highlightAmount width height opts in
  ret {| data := bloom_composite adjusted combinedBloom (List.length d)
                                 width height opts;
         px_width := width;
         px_height := height |}.

(** Step 5: bloom / glow effect. *)
Definition applyBloomEffect (image : SkImage) (opts : BloomOptions)
  : result SkImage :=
  out <- applyBloomEffect_buffer image opts ;;
  pixelsToImage (data out) (px_width out) (px_height out).

(** Step 6: the buffer handed to [pixelsToImage]. *)
Definition applyOversharpening_buffer (image : SkImage) (intensity : R)
  : result PixelData :=
  let sigma := pilRadiusToSigma 1.5 in
  blurred <- applyGaussianBlur image sigma ;;
  origPx <- imageToPixels image ;;
  blurPx <- imageToPixels blurred ;;
  let sharpeningAmount := 1.5 * intensity in
  ret {| data := sharpen_loop (data origPx) (data blurPx) sharpeningAmount;
         px_width := px_width origPx;
         px_height := px_height origPx |}.

(** Step 6: aggressive unsharp-mask sharpening with halos. *)
Definition applyOversharpening (image : SkImage) (intensity : R)
  : result SkImage :=
  out <- applyOversharpening_buffer image intensity ;;
  pixelsToImage (data out) (px_width out) (px_height out).

(** Step 8: JPEG compression artifacts via Skia re-encode. *)
Definition applyJpegArtifacts (image : SkImage) (intensity : R) : SkImage :=
  let quality := Math_round (70 - 30 * intensity) in
  match encodeToBytes B image quality with
  | None => image
  | Some encoded =>
      match MakeImageFromEncoded B encoded with
      | Some decoded => decoded
      | None => image
      end
  end.

(** Step 10: orange date stamp. *)
Definition addDateStamp (image : SkImage) (customText : option string)
  : Rand SkImage :=
  let w := width image in
  let h := height image in
  surface <- lift (makeSurface (Z.of_nat w) (Z.of_nat h)) ;;
  let cv := pixels image in
  text <- match customText with
          | Some t => ret t
          | None => generateDate
          end ;;
  let fontSize := Z.max 16 (Math_floor (INR w / 30)) in
  let textWidth := measureText B text fontSize in
  let padding := 20 in
  let x := INR w - textWidth - padding in
  let y := INR h - padding in
  let cv := drawText B cv w h text (x + 1) (y + 1) "rgba(100, 50, 0, 1)" fontSize in
  let cv := drawText B cv w h text x y "rgba(255, 140, 0, 1)" fontSize in
  let surface :=
    {| surf_width := surf_width surface;
       surf_height := surf_height surface;
       canvas := cv |} in
  ret (makeImageSnapshot surface).

(* ------------------------------------------------------------------------- *)
(** ** Main pipeline *)

(** The parameters step 5 of the pipeline passes to [applyBloomEffect]. *)
Definition pipeline_bloomOptions (intensity : R) : BloomOptions :=
  {| intensity := 0.8;
     highlightThreshold := 150;
     bloomStrength := intensity * 0.8;
     bloomRadius := intensity * 0.01;
     shadowCrushStrength := intensity * 0.5;
     shadowCrushRadius := intensity * 0.001 |}.

(** Step 1 as the pipeline calls it. *)
Definition pipeline_reduceResolution (sourceImage : SkImage) (intensity : R)
  : result SkImage :=
  reduceResolution sourceImage (intensity * 0.02).

(** Steps 2 to 4 as the pipeline calls them, on one buffer. *)
Definition pipeline_colorGrade (px : PixelData) (intensity : R) : Float32Array :=
  let d := applyCoolCast (data px) (px_width px) (px_height px) intensity in
  let d := adjustSaturation d (px_width px) (px_height px) (intensity * 1.3) in
  let d := adjustVibrance d (px_width px) (px_height px) (intensity * 1.3) in
  reduceDynamicRange d (px_width px) (px_height px) intensity.

(** Step 6 as the pipeline calls it. *)
Definition pipeline_oversharpening_buffer (image : SkImage) (intensity : R)
  : result PixelData :=
  applyOversharpening_buffer image (intensity * 1.3).

Definition pipeline_oversharpening (image : SkImage) (intensity : R)
  : result SkImage :=
  applyOversharpening image (intensity * 1.3).

(** Steps 1 to 9: everything before the JPEG re-encode. *)
Definition pipeline_stages (sourceImage : SkImage) (intensity : R)
  : Rand SkImage :=
  image <- lift (pipeline_reduceResolution sourceImage intensity) ;;
  px <- lift (imageToPixels image) ;;
  image <- lift (pixelsToImage (pipeline_colorGrade px intensity)
                               (px_width px) (px_height px)) ;;
  image <- lift (reduceLocalContrast image (intensity * 1.0) 5) ;;
  image <- lift (applyBloomEffect image (pipeline_bloomOptions intensity)) ;;
  px <- lift (imageToPixels image) ;;
  image <- lift (pixelsToImage
                   (addChromaticAberration (data px) (px_width px)
                                           (px_height px) intensity)
                   (px_width px) (px_height px)) ;;
  image <- lift (pipeline_oversharpening image intensity) ;;
  px <- lift (imageToPixels image) ;;
  d <- addDigitalNoise (data px) (px_width px) (px_height px) intensity ;;
  let d := applyBarrelDistortion d (px_width px) (px_height px) intensity in
  lift (pixelsToImage d (px_width px) (px_height px)).

(** Steps 10 and 11: resize back to the original size, date stamp. *)
Definition pipeline_finish (image : SkImage) (originalW originalH : nat)
           (addStamp : bool) (dateStampText : option string) : Rand SkImage :=
  image <- lift (drawImageToSurface image (Z.of_nat originalW)
                                    (Z.of_nat originalH)) ;;
  if addStamp then addDateStamp image dateStampText else ret image.

Definition default {A : Type} (o : option A) (d : A) : A :=
  match o with Some a => a | None => d end.

(** Apply the full Y2K digital camera effect to a Skia image. *)
Definition applyY2KCameraEffect (sourceImage : SkImage) (options : Y2KOptions)
  : Rand SkImage :=
  let intensity := default (opt_intensity options) 1.0 in
  let addStamp := default (opt_addDateStamp options) true in
  let dateStampText := opt_dateStampText options in
  let outputQuality := default (opt_outputQuality options) 85%Z in
  let originalW := width sourceImage in
  let originalH := height sourceImage in
  image <- pipeline_stages sourceImage intensity ;;
  (* Step 8: JPEG artifacts *)
  let image := applyJpegArtifacts image intensity in
  pipeline_finish image originalW originalH addStamp dateStampText.

End Skia.

(* ------------------------------------------------------------------------- *)
(** ** Predicates the properties are stated with *)

(** Every channel value of a buffer lies in [0,255]. *)
Definition in_range (d : Float32Array) : Prop :=
  Forall (fun v => 0 <= v <= 255) d.

(** A buffer holds [w]x[h] RGBA pixels. *)
Definition buffer_of (w h : nat) (d : Float32Array) : Prop :=
  List.length d = (w * h * 4)%nat.

(** Two parameter sets that differ at most in [bloomStrength]. *)
Definition same_but_bloomStrength (o1 o2 : BloomOptions) : Prop :=
  intensity o1 = intensity o2 /\
  highlightThreshold o1 = highlightThreshold o2 /\
  bloomRadius o1 = bloomRadius o2 /\
  shadowCrushStrength o1 = shadowCrushStrength o2 /\
  shadowCrushRadius o1 = shadowCrushRadius o2.

(** The buffer a stage that mutates pixel data hands on, for the buffer it
    was given: one constructor per stage of the pipeline, with the stage's
    own parameters free. *)
Inductive stage_output : Float32Array -> Float32Array -> Prop :=
| out_coolCast d w h i :
    stage_output d (applyCoolCast d w h i)
| out_saturation d w h f :
    stage_output d (adjustSaturation d w h f)
| out_vibrance d w h f :
    stage_output d (adjustVibrance d w h f)
| out_dynamicRange d w h i :
    stage_output d (reduceDynamicRange d w h i)
| out_localContrast d lumData blurred w h amount :
    stage_output d (localContrast_apply d lumData blurred w h amount)
| out_bloom d adjusted combinedBloom w h opts :
    stage_output d (bloom_composite adjusted combinedBloom (List.length d) w h opts)
| out_chromaticAberration d w h i :
    stage_output d (addChromaticAberration d w h i)
| out_oversharpening d blurPx amount :
    stage_output d (sharpen_loop d blurPx amount)
| out_digitalNoise d w h i t d' rest :
    addDigitalNoise d w h i t = Returns d' rest ->
    stage_output d d'
| out_barrelDistortion d w h i :
    stage_output d (applyBarrelDistortion d w h i).

(** A function that draws from the ambient source consumes a prefix of the
    tape, and what it returns depends on that prefix only. *)
Definition prefix_determined {A : Type} (m : Rand A) : Prop :=
  forall t a rest,
    m t = Returns a rest ->
    exists used, t = used ++ rest /\
                 forall rest', m (used ++ rest') = Returns a rest'.

(** The buffers that flow through the pipeline: a buffer read from an
    image, and whatever a stage hands on for such a buffer. *)
Inductive pipeline_buffer : Float32Array -> Prop :=
| pb_decoded (B : SkiaBackend) image px :
    imageToPixels B image = Ok px -> pipeline_buffer (data px)
| pb_stage d d' :
    pipeline_buffer d -> stage_output d d' -> pipeline_buffer d'.

(** Buffers that are in range except at some indices, for stages that
    write a raw value first and clamp it afterwards. *)
Definition ok_except (D : nat -> Prop) (d : Float32Array) : Prop :=
  forall j, ~ D j -> 0 <= get d j <= 255.

(** What holds of every value a drawing function can return. *)
Definition returns_only {A : Type} (P : A -> Prop) (m : Rand A) : Prop :=
  forall t a rest, m t = Returns a rest -> P a.

(** A backend whose allocations succeed for positive dimensions. *)
Definition reliable (B : SkiaBackend) : Prop :=
  (forall w h, (0 < w)%Z -> (0 < h)%Z -> Surface_Make B w h = true) /\
  (forall image, readPixels_ok B image = true) /\
  (forall w h bs, MakeImage_ok B w h bs = true).

(** A tape on which [Math.random] never returns 0. *)
Definition nonzero_tape (t : tape) : Prop := Forall (fun u => u <> 0) t.

(** A tape of values in [0,1), the range of [Math.random]. *)
Definition unit_tape (t : tape) : Prop := Forall (fun u => 0 <= u < 1) t.

(** The codec fails on an image at the quality step 8 asks for: encoding
    yields nothing, or it yields bytes that cannot be decoded. *)
Definition codec_fails (B : SkiaBackend) (image : SkImage) (intensity : R)
  : Prop :=
  let quality := Math_round (70 - 30 * intensity) in
  encodeToBytes B image quality = None \/
  exists encoded,
    encodeToBytes B image quality = Some encoded /\
    MakeImageFromEncoded B encoded = None.

(** The blend of chromatic aberration: the original value weighted by
    [1 - 0.5 * intensity], the shifted sample by [0.5 * intensity]. *)
Definition blend (orig sample intensity : R) : R :=
  orig * (1 - 0.5 * intensity) + sample * (0.5 * intensity).

(** Whether the integer coordinates lie inside a [w]x[h] image. *)
Definition in_bounds (sx sy : Z) (w h : nat) : Prop :=
  (0 <= sx < Z.of_nat w)%Z /\ (0 <= sy < Z.of_nat h)%Z.

(** Recogniser of [MM/DD/YYYY]: ten characters, digits around two slashes;
    returns month, day and year. *)
Definition digit_of (c : ascii) : option Z :=
  let n := Z.of_nat (nat_of_ascii c) in
  if ((48 <=? n) && (n <=? 57))%Z then Some (n - 48)%Z else None.

Definition digits2 (a b : ascii) : option Z :=
  match digit_of a, digit_of b with
  | Some x, Some y => Some (10 * x + y)%Z
  | _, _ => None
  end.

Definition parse_MMDDYYYY (s : string) : option (Z * Z * Z) :=
  match s with
  | String m1 (String m2 (String "/" (String d1 (String d2 (String "/"
      (String y1 (String y2 (String y3 (String y4 EmptyString))))))))) =>
      match digits2 m1 m2, digits2 d1 d2, digits2 y1 y2, digits2 y3 y4 with
      | Some m, Some d, Some yh, Some yl => Some (m, d, (100 * yh + yl)%Z)
      | _, _, _, _ => None
      end
  | _ => None
  end.

(** Whether a date text reads back as its month, day and year. *)
Definition date_text_ok (month day year : Z) : bool :=
  match parse_MMDDYYYY (date_text month day year) with
  | Some (m, d, y) => ((m =? month) && (d =? day) && (y =? year))%Z
  | None => false
  end.


(* ------------------------------------------------------------------------- *)
(** ** A software backend, for concrete runs *)

Module Soft.

(** Nearest-neighbour resampling of the whole image into [w]x[h]. *)
Definition resample (image : SkImage) (w h : Z) : list byte :=
  let sw := width image in
  let sh := height image in
  flat_map (fun p =>
    let x := (p mod Z.to_nat w)%nat in
    let y := (p / Z.to_nat w)%nat in
    let sx := (x * sw / Z.to_nat w)%nat in
    let sy := (y * sh / Z.to_nat h)%nat in
    map (fun c => nth ((sy * sw + sx) * 4 + c) (pixels image) "000"%byte)
        [0; 1; 2; 3]%nat)
    (seq 0 (Z.to_nat w * Z.to_nat h)).

(** A horizontal [1 2 1]/4 smoothing with clamped edges, whatever the
    (positive) sigma. *)
Definition blur (sigma : R) (image : SkImage) : list byte :=
  let w := width image in
  let px := pixels image in
  let at_ i := Z.of_N (Byte.to_N (nth i px "000"%byte)) in
  map (fun i =>
    let x := ((i / 4) mod w)%nat in
    let left := if (x =? 0)%nat then i else (i - 4)%nat in
    let right := if (x + 1 =? w)%nat then i else (i + 4)%nat in
    Uint8 ((at_ left + 2 * at_ i + at_ right + 2) / 4)%Z)
    (seq 0 (List.length px)).

Definition backend : SkiaBackend :=
  {| Surface_Make := fun w h => ((0 <? w) && (0 <? h))%Z;
     readPixels_ok := fun _ => true;
     MakeImage_ok := fun _ _ _ => true;
     drawImageRect := resample;
     MakeBlur := blur;
     encodeToBytes := fun _ _ => None;
     MakeImageFromEncoded := fun _ => None;
     measureText := fun text fontSize =>
                      INR (String.length text) * IZR fontSize * 0.6;
     drawText := fun cv _ _ _ _ _ _ _ => cv |}.

(** The same backend with a codec that encodes but cannot decode. *)
Definition backend_undecodable : SkiaBackend :=
  {| Surface_Make := Surface_Make backend;
     readPixels_ok := readPixels_ok backend;
     MakeImage_ok := MakeImage_ok backend;
     drawImageRect := drawImageRect backend;
     MakeBlur := MakeBlur backend;
     encodeToBytes := fun image _ => Some (pixels image);
     MakeImageFromEncoded := fun _ => None;
     measureText := measureText backend;
     drawText := drawText backend |}.

(** A 1x1 mid-gray image, a 2x1 image with an edge, a 1x1 white image. *)
Definition gray1x1 : SkImage :=
  {| width := 1; height := 1;
     pixels := ["128"; "128"; "128"; "255"]%byte |}.

Definition edge2x1 : SkImage :=
  {| width := 2; height := 1;
     pixels := ["100"; "100"; "100"; "255"; "120"; "120"; "120"; "255"]%byte |}.

Definition white1x1 : SkImage :=
  {| width := 1; height := 1;
     pixels := ["255"; "255"; "255"; "255"]%byte |}.

(** A 4000x3000 opaque-white image. *)
Definition white4000x3000 : SkImage :=
  {| width := 4000; height := 3000;
     pixels := repeat "255"%byte (4000 * 3000 * 4) |}.

Definition no_options : Y2KOptions :=
  {| opt_intensity := None;
     opt_addDateStamp := None;
     opt_dateStampText := None;
     opt_outputQuality := None |}.

(** The default options without the date stamp. *)
Definition no_stamp : Y2KOptions :=
  {| opt_intensity := None;
     opt_addDateStamp := Some false;
     opt_dateStampText := None;
     opt_outputQuality := None |}.

End Soft.

(** Buffers and parameters for concrete runs. *)

(** A 2x2 buffer for concrete runs of the buffer stages. *)
Definition buffer2x2 : Float32Array :=
  [10; 20; 30; 255; 40; 50; 60; 255; 70; 80; 90; 255; 100; 110; 120; 255].

(** Bloom parameters with no blur radius, for concrete runs of step 5. *)
Definition bloom_params (i bs : R) : BloomOptions :=
  {| intensity := i;
     highlightThreshold := 150;
     bloomStrength := bs;
     bloomRadius := 0;
     shadowCrushStrength := 0;
     shadowCrushRadius := 0 |}.

(** The buffer of one opaque-white pixel. *)
Definition white_pixel : Float32Array := [255; 255; 255; 255].

(* ------------------------------------------------------------------------- *)
(** ** The hook that runs the effect: [useY2KCamera]

    The hook keeps three [useState] cells and a request counter, and its
    [processImage] is an [async] function with two [await]s.  Each piece of
    code that runs without interruption (a call up to its first [await], the
    continuation after an [await]) is one function on the state, and the
    order in which the event loop runs them is a list of events. *)

(** The argument of [processImage]: the options of the effect and the three
    places the image can come from. *)
Record ProcessImageInput : Type := {
  in_options : Y2KOptions;
  in_uri : option string;
  in_bytes : option (list byte);
  in_skImage : option SkImage
}.

(** What the hook uses besides Skia: [fetch(uri)] followed by
    [response.arrayBuffer()] (the bytes, or the message of the rejection),
    [btoa] of the binary string of some bytes, and [RNFS.writeFile] in
    base64 mode. *)
Record HookEnv : Type := {
  fetch : string -> result (list byte);
  btoa : list byte -> string;
  writeFile : string -> string -> result unit
}.

(** The [useState] cells [result], [processing], [error], and
    [requestIdRef.current]. *)
Record HookState : Type := {
  st_result : option SkImage;
  st_processing : bool;
  st_error : option string;
  requestIdRef : nat
}.

(** A call of [processImage] that is suspended at one of its [await]s. *)
Inductive Pending : Type :=
| AwaitLoad (currentRequestId : nat) (input : ProcessImageInput)
| AwaitEffect (currentRequestId : nat) (input : ProcessImageInput)
              (sourceImage : SkImage).

Definition pending_id (p : Pending) : nat :=
  match p with
  | AwaitLoad currentRequestId _ => currentRequestId
  | AwaitEffect currentRequestId _ _ => currentRequestId
  end.

Fixpoint pending_lookup (id : nat) (l : list Pending) : option Pending :=
  match l with
  | [] => None
  | p :: l' => if (pending_id p =? id)%nat then Some p else pending_lookup id l'
  end.

Definition pending_drop (id : nat) (l : list Pending) : list Pending :=
  filter (fun p => negb (pending_id p =? id)%nat) l.

(** The hook, the calls in flight, and what the promises of the finished
    calls resolved to. *)
Record World : Type := {
  w_hook : HookState;
  w_pending : list Pending;
  w_resolved : list (nat * option SkImage)
}.

(** What happens next: the component calls [processImage] or [reset], or
    the event loop resumes the suspended call of a request; [draws] are the
    values [Math.random] returns while it runs. *)
Inductive Event : Type :=
| Call_processImage (input : ProcessImageInput)
| Call_reset
| Resume (id : nat) (draws : tape).

Section Hook.

Variable B : SkiaBackend.
Variable env : HookEnv.

(** Load an SkImage from the sources of the input, in the order skImage,
    bytes, uri.  An empty [uri] is falsy. *)
Definition loadSkImage (input : ProcessImageInput) : result SkImage :=
  match in_skImage input with
  | Some skImage => Ok skImage
  | None =>
      match in_bytes input with
      | Some bytes =>
          match MakeImageFromEncoded B bytes with
          | Some image => Ok image
          | None => Error "Failed to decode image from bytes"
          end
      | None =>
          match in_uri input with
          | Some (String _ _ as uri) =>
              uint8 <- fetch env uri ;;
              match MakeImageFromEncoded B uint8 with
              | Some image => Ok image
              | None => Error ("Failed to decode image from URI: " ++ uri)
              end
          | _ =>
              Error "processImage requires at least one of: uri, bytes, or skImage"
          end
      end
  end.

(** [reset]. *)
Definition reset (s : HookState) : HookState :=
  {| st_result := None;
     st_error := None;
     st_processing := false;
     requestIdRef := S (requestIdRef s) |}.

(** [processImage] up to [await loadSkImage(input)]. *)
Definition processImage_begin (s : HookState) : nat * HookState :=
  let currentRequestId := S (requestIdRef s) in
  (currentRequestId,
   {| st_result := st_result s;
      st_processing := true;
      st_error := None;
      requestIdRef := currentRequestId |}).

(** The [catch] block of [processImage], for an [Error] with a message. *)
Definition processImage_catch (currentRequestId : nat) (message : string)
           (s : HookState) : HookState :=
  if (currentRequestId =? requestIdRef s)%nat then
    {| st_result := st_result s;
       st_processing := false;
       st_error := Some message;
       requestIdRef := requestIdRef s |}
  else s.

(** A call returns: it leaves the calls in flight and its promise resolves. *)
Definition processImage_return (id : nat) (value : option SkImage)
           (s : HookState) (w : World) : World :=
  {| w_hook := s;
     w_pending := pending_drop id (w_pending w);
     w_resolved := w_resolved w ++ [(id, value)] |}.

(** [processImage] from [await loadSkImage(input)] to the second [await]:
    the load has settled. *)
Definition processImage_loaded (currentRequestId : nat)
           (input : ProcessImageInput) (w : World) : World :=
  match loadSkImage input with
  | Error message =>
      processImage_return currentRequestId None
        (processImage_catch currentRequestId message (w_hook w)) w
  | Ok sourceImage =>
      if negb (currentRequestId =? requestIdRef (w_hook w))%nat then
        processImage_return currentRequestId None (w_hook w) w
      else
        {| w_hook := w_hook w;
           w_pending := AwaitEffect currentRequestId input sourceImage
                        :: pending_drop currentRequestId (w_pending w);
           w_resolved := w_resolved w |}
  end.

(** [processImage] from the [setTimeout] callback to its end: the effect
    runs, the promise settles and the call finishes.  A run of the effect
    that never returns has no next state. *)
Definition processImage_timeout (currentRequestId : nat)
           (input : ProcessImageInput) (sourceImage : SkImage)
           (draws : tape) (w : World) : option World :=
  match applyY2KCameraEffect B sourceImage
          {| opt_intensity := opt_intensity (in_options input);
             opt_addDateStamp := opt_addDateStamp (in_options input);
             opt_dateStampText := opt_dateStampText (in_options input);
             opt_outputQuality := opt_outputQuality (in_options input) |}
          draws with
  | Starved => None
  | Throws message =>
      Some (processImage_return currentRequestId None
              (processImage_catch currentRequestId message (w_hook w)) w)
  | Returns processed _ =>
      if negb (currentRequestId =? requestIdRef (w_hook w))%nat then
        Some (processImage_return currentRequestId None (w_hook w) w)
      else
        Some (processImage_return currentRequestId (Some processed)
                {| st_result := Some processed;
                   st_processing := false;
                   st_error := st_error (w_hook w);
                   requestIdRef := requestIdRef (w_hook w) |} w)
  end.

(** One event. *)
Definition hook_step (w : World) (e : Event) : option World :=
  match e with
  | Call_processImage input =>
      let (currentRequestId, s) := processImage_begin (w_hook w) in
      Some {| w_hook := s;
              w_pending := w_pending w ++ [AwaitLoad currentRequestId input];
              w_resolved := w_resolved w |}
  | Call_reset =>
      Some {| w_hook := reset (w_hook w);
              w_pending := w_pending w;
              w_resolved := w_resolved w |}
  | Resume id draws =>
      match pending_lookup id (w_pending w) with
      | None => None
      | Some (AwaitLoad currentRequestId input) =>
          Some (processImage_loaded currentRequestId input w)
      | Some (AwaitEffect currentRequestId input sourceImage) =>
          processImage_timeout currentRequestId input sourceImage draws w
      end
  end.

Fixpoint hook_run (w : World) (es : list Event) : option World :=
  match es with
  | [] => Some w
  | e :: es' =>
      match hook_step w e with
      | Some w' => hook_run w' es'
      | None => None
      end
  end.

(** [saveResult]: the state it leaves and the path it returns. *)
Definition saveResult (outputPath : string) (quality : option Z)
           (s : HookState) : HookState * option string :=
  let quality := default quality 85%Z in
  let setError message :=
    {| st_result := st_result s;
       st_processing := st_processing s;
       st_error := Some message;
       requestIdRef := requestIdRef s |} in
  match st_result s with
  | None => (setError "No result to save"%string, None)
  | Some image =>
      match encodeToBytes B image quality with
      | None => (setError "Failed to encode result as JPEG"%string, None)
      | Some encoded =>
          match writeFile env outputPath (btoa env encoded) with
          | Ok _ => (s, Some outputPath)
          | Error message => (setError message, None)
          end
      end
  end.

End Hook.

(** The hook as [useY2KCamera] creates it. *)
Definition hook_initial : World :=
  {| w_hook := {| st_result := None;
                  st_processing := false;
                  st_error := None;
                  requestIdRef := 0 |};
     w_pending := [];
     w_resolved := [] |}.

(** No call in flight has an id above the request counter. *)
Definition hook_bounded (w : World) : Prop :=
  Forall (fun p => (pending_id p <= requestIdRef (w_hook w))%nat) (w_pending w).

(** The hook after [reset]: the cells are cleared and every call in flight
    is stale. *)
Definition hook_quiet (w : World) : Prop :=
  st_result (w_hook w) = None /\ st_error (w_hook w) = None /\
  st_processing (w_hook w) = false /\
  Forall (fun p => (pending_id p < requestIdRef (w_hook w))%nat) (w_pending w).

(** The hook while it serves the call [id] of [processImage input] that
    found the result [r0]: the call is suspended at its first [await], or at
    its second, or it has finished with an image, or with an error. *)
Definition hook_serving (B : SkiaBackend) (env : HookEnv) (id : nat)
           (input : ProcessImageInput) (r0 : option SkImage) (w : World)
  : Prop :=
  requestIdRef (w_hook w) = id /\
  ((pending_lookup id (w_pending w) = Some (AwaitLoad id input) /\
    st_processing (w_hook w) = true /\ st_error (w_hook w) = None /\
    st_result (w_hook w) = r0) \/
   (exists sourceImage,
      loadSkImage B env input = Ok sourceImage /\
      pending_lookup id (w_pending w)
      = Some (AwaitEffect id input sourceImage) /\
      st_processing (w_hook w) = true /\ st_error (w_hook w) = None /\
      st_result (w_hook w) = r0) \/
   (pending_lookup id (w_pending w) = None /\
    st_processing (w_hook w) = false /\ st_error (w_hook w) = None /\
    exists sourceImage draws rest processed,
      loadSkImage B env input = Ok sourceImage /\
      applyY2KCameraEffect B sourceImage (in_options input) draws
      = Returns processed rest /\
      st_result (w_hook w) = Some processed /\
      In (id, Some processed) (w_resolved w)) \/
   (pending_lookup id (w_pending w) = None /\
    st_processing (w_hook w) = false /\ st_result (w_hook w) = r0 /\
    In (id, None) (w_resolved w) /\
    exists message,
      st_error (w_hook w) = Some message /\
      (loadSkImage B env input = Error message \/
       exists sourceImage draws,
         loadSkImage B env input = Ok sourceImage /\
         applyY2KCameraEffect B sourceImage (in_options input) draws
         = Throws message))).

(** Events that are all resumptions: the component makes no call. *)
Definition only_resumes (es : list Event) : Prop :=
  Forall (fun e => match e with Resume _ _ => True | _ => False end) es.

(** An environment for concrete runs: nothing can be fetched or written. *)
Definition offline : HookEnv :=
  {| fetch := fun _ => Error "Network request failed";
     btoa := fun _ => EmptyString;
     writeFile := fun _ _ => Error "ENOENT" |}.
(* ========================================================================= *)
(** * Properties *)

(* ------------------------------------------------------------------------- *)
(** ** Buffers and loops *)

Section BufferFacts.

Implicit Types (d : Float32Array) (i j n : nat) (v : R).

Lemma set_length d i v : List.length (set d i v) = List.length d.
Proof.
  revert i; induction d as [|a d IH]; intros [|i]; simpl; auto.
Qed.

Lemma get_overflow d i : (List.length d <= i)%nat -> get d i = 0.
Proof. intros H; unfold get; now apply nth_overflow. Qed.

Lemma get_set_same d i v : (i < List.length d)%nat -> get (set d i v) i = v.
Proof.
  revert i; induction d as [|a d IH]; intros [|i] H; simpl in *;
    try lia; auto.
  apply IH; lia.
Qed.

Lemma get_set_other d i v j : j <> i -> get (set d i v) j = get d j.
Proof.
  revert i j; induction d as [|a d IH]; intros [|i] [|j] H; simpl;
    try reflexivity; try congruence.
  apply IH; congruence.
Qed.

Lemma get_set d i v j :
  get (set d i v) j
  = if ((j =? i) && (i <? List.length d))%nat then v else get d j.
Proof.
  destruct (Nat.eqb_spec j i) as [->|Hne]; simpl.
  - destruct (Nat.ltb_spec i (List.length d)).
    + now apply get_set_same.
    + rewrite !get_overflow; auto. now rewrite set_length.
  - now apply get_set_other.
Qed.

Lemma set_get_id d i : set d i (get d i) = d.
Proof.
  revert i; induction d as [|a d IH]; intros [|i]; simpl; auto.
  unfold get in IH; simpl; now rewrite IH.
Qed.

Lemma get_new n i : get (new_Float32Array n) i = 0.
Proof.
  unfold get, new_Float32Array.
  destruct (Nat.lt_ge_cases i n) as [H|H].
  - now rewrite nth_repeat_lt.
  - apply nth_overflow. now rewrite repeat_length.
Qed.

Lemma new_length n : List.length (new_Float32Array n) = n.
Proof. apply repeat_length. Qed.

Lemma buffer_ext d d' :
  List.length d = List.length d' ->
  (forall j, get d j = get d' j) -> d = d'.
Proof.
  intros Hl Hg. apply nth_ext with (d := 0) (d' := 0); auto.
  intros k _. apply Hg.
Qed.

(** Loop invariants. *)
Lemma for_loop_inv {A : Type} (P : A -> Prop) n (body : nat -> A -> A) (a : A) :
  P a ->
  (forall i a, (i < n)%nat -> P a -> P (body i a)) ->
  P (for_loop n body a).
Proof.
  intros Ha Hstep. induction n as [|n IH]; simpl; auto.
  apply Hstep; [lia|]. apply IH. intros; apply Hstep; auto with arith.
Qed.

Lemma scan_inv {A : Type} (P : A -> Prop) (w h : nat)
      (body : nat -> nat -> A -> A) (a : A) :
  P a ->
  (forall x y a, (x < w)%nat -> (y < h)%nat -> P a -> P (body x y a)) ->
  P (scan w h body a).
Proof.
  intros Ha Hstep. unfold scan.
  apply for_loop_inv; auto.
  intros y a' Hy Ha'. apply for_loop_inv; auto.
Qed.

(** Two loops run side by side. *)
Lemma for_loop_rel {A B : Type} (Q : A -> B -> Prop) n
      (f : nat -> A -> A) (g : nat -> B -> B) (a : A) (b : B) :
  Q a b ->
  (forall i a b, (i < n)%nat -> Q a b -> Q (f i a) (g i b)) ->
  Q (for_loop n f a) (for_loop n g b).
Proof.
  intros H0 Hstep. induction n as [|n IH]; simpl; auto.
  apply Hstep; [lia|]. apply IH. intros; apply Hstep; auto with arith.
Qed.

Lemma scan_rel {A B : Type} (Q : A -> B -> Prop) (w h : nat)
      (f : nat -> nat -> A -> A) (g : nat -> nat -> B -> B) (a : A) (b : B) :
  Q a b ->
  (forall x y a b, (x < w)%nat -> (y < h)%nat -> Q a b -> Q (f x y a) (g x y b)) ->
  Q (scan w h f a) (scan w h g b).
Proof.
  intros H0 Hstep. unfold scan.
  apply for_loop_rel; auto.
  intros y a' b' Hy H'. apply for_loop_rel; auto.
Qed.

Lemma for_loop_ext {A : Type} n (f g : nat -> A -> A) (a : A) :
  (forall i a, (i < n)%nat -> f i a = g i a) ->
  for_loop n f a = for_loop n g a.
Proof.
  intros H. induction n as [|n IH]; simpl; auto.
  rewrite IH by (intros; apply H; lia). apply H; lia.
Qed.

(** The nested scan visits the pixels in row-major order. *)
Lemma scan_flat {A : Type} (w h : nat) (body : nat -> nat -> A -> A) (a : A) :
  scan w h body a
  = for_loop (h * w) (fun p => body (p mod w)%nat (p / w)%nat) a.
Proof.
  unfold scan. induction h as [|h IH]; simpl; auto.
  rewrite IH. clear IH.
  assert (G : forall k, (k <= w)%nat ->
            for_loop k (fun x => body x h)
              (for_loop (h * w) (fun p => body (p mod w)%nat (p / w)%nat) a)
            = for_loop (k + h * w)
                (fun p => body (p mod w)%nat (p / w)%nat) a).
  { induction k as [|k IHk]; intros Hk; simpl; auto.
    rewrite IHk by lia.
    replace ((k + h * w) mod w)%nat with k.
    2:{ rewrite Nat.Div0.mod_add. symmetry; apply Nat.mod_small; lia. }
    replace ((k + h * w) / w)%nat with h; auto.
    rewrite Nat.div_add by lia. rewrite Nat.div_small by lia. lia. }
  apply G; lia.
Qed.

End BufferFacts.

(** Facts on [clamp]. *)
Lemma clamp_bounds (v lo hi : R) : lo <= hi -> lo <= clamp v lo hi <= hi.
Proof.
  intros H. unfold clamp.
  destruct (Rlt_dec v lo); [lra|]. destruct (Rgt_dec v hi); lra.
Qed.

Lemma clamp_id (v lo hi : R) : lo <= v <= hi -> clamp v lo hi = v.
Proof.
  intros H. unfold clamp.
  destruct (Rlt_dec v lo); [lra|]. destruct (Rgt_dec v hi); lra.
Qed.

Lemma clamp_mono (u v lo hi : R) :
  lo <= hi -> u <= v -> clamp u lo hi <= clamp v lo hi.
Proof.
  intros H Huv. unfold clamp.
  destruct (Rlt_dec u lo), (Rlt_dec v lo), (Rgt_dec u hi), (Rgt_dec v hi); lra.
Qed.

Lemma clamp_byte (v : R) : 0 <= clamp v 0 255 <= 255.
Proof. apply clamp_bounds; lra. Qed.

Create HintDb y2k.
#[local] Hint Resolve clamp_byte : y2k.
(* ------------------------------------------------------------------------- *)
(** ** The clamp invariant *)

Lemma in_range_get (d : Float32Array) :
  in_range d <-> forall j, 0 <= get d j <= 255.
Proof.
  unfold in_range. rewrite Forall_forall. split.
  - intros H j. destruct (Nat.lt_ge_cases j (List.length d)) as [Hj|Hj].
    + apply H. unfold get. now apply nth_In.
    + rewrite get_overflow by auto. lra.
  - intros H v Hv. destruct (In_nth _ _ 0 Hv) as (j & _ & <-). apply H.
Qed.

Lemma in_range_set (d : Float32Array) (i : nat) (v : R) :
  in_range d -> 0 <= v <= 255 -> in_range (set d i v).
Proof.
  rewrite !in_range_get. intros Hd Hv j. rewrite get_set.
  destruct ((j =? i) && (i <? List.length d))%nat; auto.
Qed.

Lemma in_range_new (n : nat) : in_range (new_Float32Array n).
Proof. apply in_range_get. intros j. rewrite get_new. lra. Qed.

Lemma byte_to_R_bounds (b : byte) : 0 <= byte_to_R b <= 255.
Proof.
  unfold byte_to_R. pose proof (Byte.to_N_bounded b) as H.
  split; apply IZR_le; lia.
Qed.

Lemma in_range_bytes (bs : list byte) : in_range (map byte_to_R bs).
Proof.
  unfold in_range. apply Forall_forall. intros v Hv.
  apply in_map_iff in Hv as (b & <- & _). apply byte_to_R_bounds.
Qed.

Lemma in_range_at (d : Float32Array) (j : nat) :
  in_range d -> 0 <= get d j <= 255.
Proof. intros H. now apply in_range_get. Qed.

#[local] Hint Resolve in_range_set in_range_new in_range_at : y2k.

Lemma ok_except_start (d : Float32Array) (D : nat -> Prop) :
  in_range d -> ok_except D d.
Proof. intros H j _. now apply in_range_at. Qed.

Lemma ok_except_raw (D : nat -> Prop) (d : Float32Array) (i : nat) (v : R) :
  ok_except D d -> D i -> ok_except D (set d i v).
Proof.
  intros H Hi j Hj. rewrite get_set_other; auto. congruence.
Qed.

Lemma ok_except_clamped (D : nat -> Prop) (d : Float32Array) (i : nat) (v : R) :
  ok_except D d -> 0 <= v <= 255 ->
  ok_except (fun j => D j /\ j <> i) (set d i v).
Proof.
  intros H Hv j Hj. rewrite get_set.
  destruct (Nat.eqb_spec j i) as [->|Hne]; simpl.
  - destruct (i <? List.length d)%nat eqn:E; auto.
    rewrite get_overflow; [lra|]. apply Nat.ltb_ge; auto.
  - apply H. tauto.
Qed.

Lemma ok_except_done (D : nat -> Prop) (d : Float32Array) :
  ok_except D d -> (forall j, ~ D j) -> in_range d.
Proof. intros H HD. apply in_range_get. intros j. apply H, HD. Qed.

Ltac range_sets :=
  repeat (apply in_range_set; [|solve [auto with y2k]]); auto with y2k.

Lemma applyCoolCast_in_range d w h i :
  in_range d -> in_range (applyCoolCast d w h i).
Proof.
  intros H. unfold applyCoolCast. apply scan_inv; auto.
  intros x y a _ _ Ha. range_sets.
Qed.

Lemma adjustSaturation_in_range d w h f :
  in_range d -> in_range (adjustSaturation d w h f).
Proof.
  intros H. unfold adjustSaturation. apply scan_inv; auto.
  intros x y a _ _ Ha. range_sets.
Qed.

Lemma adjustVibrance_in_range d w h f :
  in_range d -> in_range (adjustVibrance d w h f).
Proof.
  intros H. unfold adjustVibrance.
  destruct (Req_dec_T f 1.0); auto.
  apply scan_inv; auto.
  intros x y a _ _ Ha. range_sets.
Qed.

Lemma reduceDynamicRange_in_range d w h i :
  in_range d -> in_range (reduceDynamicRange d w h i).
Proof.
  intros H. unfold reduceDynamicRange. apply for_loop_inv; auto.
  intros k a _ Ha. destruct (k mod 4 =? 3)%nat; auto. range_sets.
Qed.

Lemma localContrast_apply_in_range d lumData blurred w h amount :
  in_range d -> in_range (localContrast_apply d lumData blurred w h amount).
Proof.
  intros H. unfold localContrast_apply. apply scan_inv; auto.
  intros x y a _ _ Ha. range_sets.
Qed.

Lemma addChromaticAberration_in_range d w h i :
  in_range d -> in_range (addChromaticAberration d w h i).
Proof.
  intros H. unfold addChromaticAberration.
  destruct (Math_floor (2 * i) <? 1)%Z; auto.
  apply scan_inv; auto.
  intros x y a _ _ Ha.
  repeat match goal with
         | |- context [if ?c then _ else _] => destruct c
         end; range_sets.
Qed.

Lemma sharpen_loop_in_range d blurPx amount :
  in_range d -> in_range (sharpen_loop d blurPx amount).
Proof.
  intros H. unfold sharpen_loop. apply for_loop_inv; auto.
  intros k a _ Ha. destruct (k mod 4 =? 3)%nat; auto. range_sets.
Qed.

Lemma applyBarrelDistortion_in_range d w h i :
  in_range d -> in_range (applyBarrelDistortion d w h i).
Proof.
  intros H. unfold applyBarrelDistortion. apply scan_inv.
  - unfold for_step4. apply for_loop_inv; auto with y2k.
    intros k a _ Ha. apply in_range_set; auto. lra.
  - intros x y a _ _ Ha. range_sets.
Qed.

Lemma bloom_composite_in_range adjusted combinedBloom len w h opts :
  in_range (bloom_composite adjusted combinedBloom len w h opts).
Proof.
  unfold bloom_composite. apply scan_inv; auto with y2k.
  intros x y a _ _ Ha.
  set (base := ((y * w + x) * 4)%nat).
  apply in_range_set; [|lra].
  pose (D := fun j : nat => j = base \/ j = (base + 1)%nat \/ j = (base + 2)%nat).
  apply (ok_except_done
           (fun j => ((D j /\ j <> base) /\ j <> (base + 1)%nat)
                     /\ j <> (base + 2)%nat)).
  - do 3 (apply ok_except_clamped; [|solve [auto with y2k]]).
    do 2 (apply ok_except_raw; [|unfold D; lia]).
    simpl for_loop.
    repeat (apply ok_except_raw; [|unfold D; lia]).
    now apply ok_except_start.
  - unfold D. intros j. lia.
Qed.

Lemma returns_only_ret {A : Type} (P : A -> Prop) (a : A) :
  P a -> returns_only P (ret a).
Proof. intros H t a' rest E. simpl in E. now inversion E; subst. Qed.

Lemma returns_only_bind {A B : Type} (P : A -> Prop) (Q : B -> Prop)
      (m : Rand A) (k : A -> Rand B) :
  returns_only P m ->
  (forall a, P a -> returns_only Q (k a)) ->
  returns_only Q (bind m k).
Proof.
  intros Hm Hk t b rest E. simpl in E.
  destruct (m t) as [a t'| |] eqn:Em; try discriminate.
  eapply Hk; eauto.
Qed.

Lemma addDigitalNoise_in_range d w h i :
  in_range d -> returns_only in_range (addDigitalNoise d w h i).
Proof.
  intros H. unfold addDigitalNoise.
  apply (scan_inv (returns_only in_range)).
  - now apply returns_only_ret.
  - intros x y acc _ _ Hacc.
    eapply returns_only_bind; [exact Hacc|].
    intros a Ha.
    apply (for_loop_inv (returns_only in_range)).
    + now apply returns_only_ret.
    + intros c acc' _ Hacc'.
      eapply returns_only_bind; [exact Hacc'|].
      intros a' Ha'.
      eapply returns_only_bind with (P := fun _ => True).
      * intros ? ? ? _. exact I.
      * intros n _. apply returns_only_ret. range_sets.
Qed.

Lemma stage_output_in_range d d' :
  stage_output d d' -> in_range d -> in_range d'.
Proof.
  intros Hs Hd. destruct Hs.
  - now apply applyCoolCast_in_range.
  - now apply adjustSaturation_in_range.
  - now apply adjustVibrance_in_range.
  - now apply reduceDynamicRange_in_range.
  - now apply localContrast_apply_in_range.
  - apply bloom_composite_in_range.
  - now apply addChromaticAberration_in_range.
  - now apply sharpen_loop_in_range.
  - eapply addDigitalNoise_in_range; eauto.
  - now apply applyBarrelDistortion_in_range.
Qed.

(** C2 (clamp invariant).  Every buffer that flows through the pipeline has
    all its channel values in [0,255]: this holds of a buffer read from an
    image, and it is preserved by every stage that mutates pixel data
    (cool cast, saturation, vibrance, dynamic range, local contrast, bloom,
    chromatic aberration, sharpening, noise, barrel distortion), whatever
    the dimensions, the intensity and the other parameters of the stage. *)
Theorem clamp_invariant (d : Float32Array) :
  pipeline_buffer d -> in_range d.
Proof.
  induction 1 as [B image px E | d d' _ IH Hs].
  - unfold imageToPixels in E.
    destruct (readPixels_ok B image); inversion E; subst; simpl.
    apply in_range_bytes.
  - eapply stage_output_in_range; eauto.
Qed.

(** A concrete run of three stages on the 1x1 gray image. *)
Lemma clamp_invariant_witness :
  in_range
    (sharpen_loop
       (addChromaticAberration
          (applyCoolCast (map byte_to_R (pixels Soft.gray1x1)) 1 1 1) 1 1 1)
       [0; 0; 0; 0] 3).
Proof.
  apply clamp_invariant.
  eapply pb_stage; [|apply out_oversharpening].
  eapply pb_stage; [|apply out_chromaticAberration].
  eapply pb_stage; [|apply out_coolCast].
  apply (pb_decoded Soft.backend Soft.gray1x1
           {| data := map byte_to_R (pixels Soft.gray1x1);
              px_width := 1; px_height := 1 |}).
  reflexivity.
Defined.

(* ------------------------------------------------------------------------- *)
(** ** Dimensions through the Skia functions *)

Section Dimensions.

Variable B : SkiaBackend.

Lemma imageToPixels_dims image px :
  imageToPixels B image = Ok px ->
  data px = map byte_to_R (pixels image) /\
  px_width px = width image /\ px_height px = height image.
Proof.
  unfold imageToPixels. destruct (readPixels_ok B image); intros E;
    inversion E; subst; simpl; auto.
Qed.

Lemma pixelsToImage_dims d w h image :
  pixelsToImage B d w h = Ok image ->
  width image = w /\ height image = h /\ pixels image = map to_Uint8 d.
Proof.
  unfold pixelsToImage. destruct (MakeImage_ok B w h _); intros E;
    inversion E; subst; simpl; auto.
Qed.

Lemma drawImageToSurface_dims image w h out :
  drawImageToSurface B image w h = Ok out ->
  width out = Z.to_nat w /\ height out = Z.to_nat h.
Proof.
  unfold drawImageToSurface, makeSurface. simpl.
  destruct (Surface_Make B w h); intros E; inversion E; subst; simpl; auto.
Qed.

Lemma applyGaussianBlur_dims image sigma out :
  applyGaussianBlur B image sigma = Ok out ->
  width out = width image /\ height out = height image.
Proof.
  unfold applyGaussianBlur, makeSurface. simpl.
  destruct (Rle_dec sigma 0).
  - intros E; inversion E; subst; auto.
  - destruct (Surface_Make B _ _); intros E; inversion E; subst; simpl.
    now rewrite !Nat2Z.id.
Qed.

Lemma addDateStamp_dims image customText t out rest :
  addDateStamp B image customText t = Returns out rest ->
  width out = width image /\ height out = height image.
Proof.
  unfold addDateStamp, makeSurface. simpl.
  destruct (Surface_Make B _ _); simpl; [|discriminate].
  match goal with
  | |- match ?m t with _ => _ end = _ -> _ =>
      destruct (m t) as [text t'| |]; intros E; inversion E; subst; simpl
  end.
  now rewrite !Nat2Z.id.
Qed.

Lemma pipeline_finish_dims image w h addStamp text t out rest :
  pipeline_finish B image w h addStamp text t = Returns out rest ->
  width out = w /\ height out = h.
Proof.
  unfold pipeline_finish. simpl.
  destruct (drawImageToSurface B image (Z.of_nat w) (Z.of_nat h))
    as [resized|msg] eqn:Er; simpl; [|discriminate].
  apply drawImageToSurface_dims in Er. rewrite !Nat2Z.id in Er.
  destruct Er as [Ew Eh].
  destruct addStamp.
  - intros E. apply addDateStamp_dims in E. destruct E; split; congruence.
  - simpl. intros E; inversion E; subst; auto.
Qed.

End Dimensions.

(** C1 (shape invariant).  Whatever the backend, the source image, the
    options (intensity, addDateStamp, dateStampText, outputQuality) and the
    draws of [Math.random], an image returned by [applyY2KCameraEffect] has
    exactly the width and the height of the source image. *)
Theorem applyY2KCameraEffect_shape (B : SkiaBackend) (sourceImage : SkImage)
        (options : Y2KOptions) (t : tape) (out : SkImage) (rest : tape) :
  applyY2KCameraEffect B sourceImage options t = Returns out rest ->
  width out = width sourceImage /\ height out = height sourceImage.
Proof.
  unfold applyY2KCameraEffect. simpl.
  destruct (pipeline_stages B sourceImage _ t) as [image t'| |];
    try discriminate.
  apply pipeline_finish_dims.
Qed.

(* ------------------------------------------------------------------------- *)
(** ** Runs that return *)

Lemma for_loop_S {A : Type} (n : nat) (body : nat -> A -> A) (a : A) :
  for_loop (S n) body a = body n (for_loop n body a).
Proof. reflexivity. Qed.

Lemma bind_Returns {A C : Type} (m : Rand A) (k : A -> Rand C) t a t' :
  m t = Returns a t' -> bind m k t = k a t'.
Proof. intros E. simpl. now rewrite E. Qed.

Lemma random_nonzero_cons (u : R) (t : tape) :
  u <> 0 -> random_nonzero (u :: t) = Returns u t.
Proof. intros H. simpl. destruct (Req_dec_T u 0); congruence. Qed.

Lemma randomNormal_cons (u v : R) (t : tape) :
  u <> 0 -> v <> 0 ->
  randomNormal (u :: v :: t)
  = Returns (Math_sqrt (-2.0 * ln u) * cos (2.0 * PI * v)) t.
Proof.
  intros Hu Hv. unfold randomNormal. cbn [bind Rand_Monad ret].
  rewrite (random_nonzero_cons u) by auto.
  rewrite (random_nonzero_cons v) by auto. reflexivity.
Qed.

Lemma nonzero_tape_skipn (n : nat) (t : tape) :
  nonzero_tape t -> nonzero_tape (skipn n t).
Proof.
  unfold nonzero_tape. rewrite !Forall_forall. intros H u Hu.
  apply H. rewrite <- (firstn_skipn n t). apply in_or_app; auto.
Qed.

Lemma six_draws (t : tape) :
  nonzero_tape t -> (6 <= List.length t)%nat ->
  exists u1 v1 u2 v2 u3 v3,
    t = u1 :: v1 :: u2 :: v2 :: u3 :: v3 :: skipn 6 t /\
    u1 <> 0 /\ v1 <> 0 /\ u2 <> 0 /\ v2 <> 0 /\ u3 <> 0 /\ v3 <> 0.
Proof.
  intros Hnz Hlen.
  destruct t as [|u1 [|v1 [|u2 [|v2 [|u3 [|v3 t]]]]]]; simpl in Hlen; try lia.
  exists u1, v1, u2, v2, u3, v3. simpl.
  unfold nonzero_tape in Hnz.
  repeat match goal with
         | H : Forall _ (_ :: _) |- _ => inversion H; clear H; subst
         end.
  repeat split; auto.
Qed.

Lemma addDigitalNoise_returns d w h i t :
  nonzero_tape t -> (6 * (w * h) <= List.length t)%nat ->
  exists d', addDigitalNoise d w h i t = Returns d' (skipn (6 * (w * h)) t).
Proof.
  intros Hnz Hlen. unfold addDigitalNoise. rewrite scan_flat.
  replace (w * h)%nat with (h * w)%nat in * by lia.
  induction (h * w)%nat as [|n IH].
  - exists d. reflexivity.
  - destruct IH as [d1 E1]; [lia|].
    rewrite for_loop_S. rewrite (bind_Returns _ _ _ _ _ E1).
    destruct (six_draws (skipn (6 * n) t)) as
        (u1 & v1 & u2 & v2 & u3 & v3 & Et & H1 & H2 & H3 & H4 & H5 & H6).
    { now apply nonzero_tape_skipn. }
    { rewrite length_skipn. lia. }
    rewrite skipn_skipn in Et.
    replace (6 + 6 * n)%nat with (6 * S n)%nat in Et by lia.
    rewrite Et. rewrite !for_loop_S. cbn [for_loop].
    cbn [bind Rand_Monad ret].
    rewrite (randomNormal_cons u1 v1) by auto.
    rewrite (randomNormal_cons u2 v2) by auto.
    rewrite (randomNormal_cons u3 v3) by auto.
    eexists. reflexivity.
Qed.

Section Returns.

Variable B : SkiaBackend.
Hypothesis HB : reliable B.

Lemma imageToPixels_ok image :
  imageToPixels B image
  = Ok {| data := map byte_to_R (pixels image);
          px_width := width image;
          px_height := height image |}.
Proof.
  unfold imageToPixels. destruct HB as (_ & Hr & _). now rewrite Hr.
Qed.

Lemma pixelsToImage_ok d w h :
  pixelsToImage B d w h
  = Ok {| width := w; height := h; pixels := map to_Uint8 d |}.
Proof.
  unfold pixelsToImage. destruct HB as (_ & _ & Hm). now rewrite Hm.
Qed.

Lemma makeSurface_ok w h :
  (0 < w)%nat -> (0 < h)%nat ->
  makeSurface B (Z.of_nat w) (Z.of_nat h)
  = Ok {| surf_width := Z.of_nat w; surf_height := Z.of_nat h; canvas := [] |}.
Proof.
  intros Hw Hh. unfold makeSurface. destruct HB as (Hs & _ & _).
  rewrite Hs by lia. reflexivity.
Qed.

Lemma applyGaussianBlur_ok image sigma :
  (0 < width image)%nat -> (0 < height image)%nat ->
  exists out, applyGaussianBlur B image sigma = Ok out /\
              width out = width image /\ height out = height image.
Proof.
  intros Hw Hh. unfold applyGaussianBlur.
  destruct (Rle_dec sigma 0); [eauto|].
  cbn [bind result_Monad ret]. rewrite makeSurface_ok by auto.
  eexists; split; [reflexivity|]. simpl. now rewrite !Nat2Z.id.
Qed.

Ltac blur_step image sigma H :=
  let out := fresh "blurred" in
  let E := fresh "E" in
  let Ew := fresh "Ew" in
  let Eh := fresh "Eh" in
  destruct (applyGaussianBlur_ok image sigma) as (out & E & Ew & Eh);
  [simpl; auto; lia | simpl; auto; lia |];
  rewrite E; cbn [bind result_Monad ret].

Lemma reduceLocalContrast_ok image amount windowSize :
  (0 < width image)%nat -> (0 < height image)%nat ->
  exists out, reduceLocalContrast B image amount windowSize = Ok out /\
              width out = width image /\ height out = height image.
Proof.
  intros Hw Hh. unfold reduceLocalContrast, reduceLocalContrast_buffer.
  cbn [bind result_Monad ret].
  rewrite imageToPixels_ok. cbn [data px_width px_height].
  rewrite pixelsToImage_ok.
  match goal with
  | |- context [applyGaussianBlur B ?im ?s] => blur_step im s tt
  end.
  rewrite imageToPixels_ok. cbn [data px_width px_height].
  rewrite pixelsToImage_ok. eexists; split; [reflexivity|]. simpl; auto.
Qed.

Lemma applyBloomEffect_ok image opts :
  (0 < width image)%nat -> (0 < height image)%nat ->
  exists out, applyBloomEffect B image opts = Ok out /\
              width out = width image /\ height out = height image.
Proof.
  intros Hw Hh. unfold applyBloomEffect, applyBloomEffect_buffer.
  cbn [bind result_Monad ret].
  rewrite imageToPixels_ok. cbn [data px_width px_height].
  destruct (bloom_masks _ _ _ _) as [lumArray highlightMask].
  rewrite pixelsToImage_ok.
  do 3 (match goal with
        | |- context [applyGaussianBlur B ?im ?s] => blur_step im s tt
        end; rewrite imageToPixels_ok).
  rewrite pixelsToImage_ok.
  do 2 (match goal with
        | |- context [applyGaussianBlur B ?im ?s] => blur_step im s tt
        end; rewrite imageToPixels_ok).
  cbn [data px_width px_height].
  rewrite pixelsToImage_ok. eexists; split; [reflexivity|]. simpl; auto.
Qed.

Lemma applyOversharpening_ok image i :
  (0 < width image)%nat -> (0 < height image)%nat ->
  exists out, applyOversharpening B image i = Ok out /\
              width out = width image /\ height out = height image.
Proof.
  intros Hw Hh. unfold applyOversharpening, applyOversharpening_buffer.
  cbn [bind result_Monad ret].
  match goal with
  | |- context [applyGaussianBlur B ?im ?s] => blur_step im s tt
  end.
  rewrite !imageToPixels_ok. cbn [data px_width px_height].
  rewrite pixelsToImage_ok. eexists; split; [reflexivity|]. simpl; auto.
Qed.

Lemma lift_Ok {A : Type} (r : result A) (a : A) (t : tape) :
  r = Ok a -> lift r t = Returns a t.
Proof. intros ->. reflexivity. Qed.

Lemma pipeline_stages_returns sourceImage i t :
  (0 < width sourceImage)%nat -> (0 < height sourceImage)%nat ->
  (Z.of_nat (width sourceImage) * Z.of_nat (height sourceImage) <= 2000000)%Z ->
  nonzero_tape t ->
  (6 * (width sourceImage * height sourceImage) <= List.length t)%nat ->
  exists image,
    pipeline_stages B sourceImage i t
    = Returns image
              (skipn (6 * (width sourceImage * height sourceImage)) t) /\
    width image = width sourceImage /\ height image = height sourceImage.
Proof.
  intros Hw Hh Hsmall Hnz Hlen.
  unfold pipeline_stages, pipeline_reduceResolution, reduceResolution,
    pipeline_oversharpening.
  apply Z.leb_le in Hsmall. rewrite Hsmall.
  rewrite (bind_Returns _ _ _ _ _ (lift_Ok _ _ _ eq_refl)).
  rewrite (bind_Returns _ _ _ _ _ (lift_Ok _ _ _ (imageToPixels_ok _))).
  cbn [data px_width px_height].
  rewrite (bind_Returns _ _ _ _ _ (lift_Ok _ _ _ (pixelsToImage_ok _ _ _))).
  match goal with
  | |- context [reduceLocalContrast B ?im ?a ?ws] =>
      destruct (reduceLocalContrast_ok im a ws) as (im1 & E1 & Ew1 & Eh1);
        [exact Hw | exact Hh |]
  end.
  rewrite (bind_Returns _ _ _ _ _ (lift_Ok _ _ _ E1)).
  cbn [width height] in Ew1, Eh1.
  destruct (applyBloomEffect_ok im1 (pipeline_bloomOptions i))
    as (im2 & E2 & Ew2 & Eh2); [lia | lia |].
  rewrite (bind_Returns _ _ _ _ _ (lift_Ok _ _ _ E2)).
  rewrite (bind_Returns _ _ _ _ _ (lift_Ok _ _ _ (imageToPixels_ok _))).
  cbn [data px_width px_height].
  rewrite (bind_Returns _ _ _ _ _ (lift_Ok _ _ _ (pixelsToImage_ok _ _ _))).
  match goal with
  | |- context [applyOversharpening B ?im ?a] =>
      destruct (applyOversharpening_ok im a) as (im3 & E3 & Ew3 & Eh3);
        [simpl; lia | simpl; lia |]
  end.
  rewrite (bind_Returns _ _ _ _ _ (lift_Ok _ _ _ E3)).
  cbn [width height] in Ew3, Eh3.
  rewrite (bind_Returns _ _ _ _ _ (lift_Ok _ _ _ (imageToPixels_ok _))).
  cbn [data px_width px_height].
  destruct (addDigitalNoise_returns (map byte_to_R (pixels im3))
              (width im3) (height im3) i t Hnz) as (d' & Ed).
  { rewrite Ew3, Ew2, Ew1, Eh3, Eh2, Eh1. exact Hlen. }
  rewrite (bind_Returns _ _ _ _ _ Ed).
  rewrite (lift_Ok _ _ _ (pixelsToImage_ok _ _ _)).
  eexists. split.
  - rewrite Ew3, Ew2, Ew1, Eh3, Eh2, Eh1. reflexivity.
  - simpl. split; congruence.
Qed.

Lemma applyY2KCameraEffect_returns sourceImage options t :
  (0 < width sourceImage)%nat -> (0 < height sourceImage)%nat ->
  (Z.of_nat (width sourceImage) * Z.of_nat (height sourceImage) <= 2000000)%Z ->
  nonzero_tape t ->
  (6 * (width sourceImage * height sourceImage) + 3 <= List.length t)%nat ->
  exists out rest,
    applyY2KCameraEffect B sourceImage options t = Returns out rest.
Proof.
  intros Hw Hh Hsmall Hnz Hlen.
  unfold applyY2KCameraEffect.
  destruct (pipeline_stages_returns sourceImage
              (default (opt_intensity options) 1.0) t)
    as (image & E & _ & _); auto; [lia|].
  cbv zeta. rewrite (bind_Returns _ _ _ _ _ E).
  unfold pipeline_finish, drawImageToSurface.
  cbn [bind result_Monad ret]. rewrite makeSurface_ok by auto.
  rewrite (bind_Returns _ _ _ _ _ (lift_Ok _ _ _ eq_refl)).
  destruct (default (opt_addDateStamp options) true); [|simpl; eauto].
  unfold addDateStamp.
  cbn [makeImageSnapshot width height surf_width surf_height].
  rewrite !Nat2Z.id. rewrite makeSurface_ok by auto.
  rewrite (bind_Returns _ _ _ _ _ (lift_Ok _ _ _ eq_refl)).
  destruct (opt_dateStampText options) as [text|].
  - simpl. eauto.
  - set (t' := skipn _ t).
    assert (Hl : (3 <= List.length t')%nat).
    { unfold t'. rewrite length_skipn. lia. }
    destruct t' as [|u1 [|u2 [|u3 t']]]; simpl in Hl; try lia.
    simpl. eauto.
Qed.

End Returns.

Lemma Soft_backend_reliable : reliable Soft.backend.
Proof.
  repeat split; simpl; auto.
  intros w h Hw Hh. apply andb_true_iff; split; now apply Z.ltb_lt.
Qed.

(** A run on the 1x1 gray image with the default options returns, and the
    image it returns is 1x1. *)
Lemma applyY2KCameraEffect_shape_witness :
  exists out rest,
    applyY2KCameraEffect Soft.backend Soft.gray1x1 Soft.no_options
                         (repeat 0.5 9) = Returns out rest /\
    width out = 1%nat /\ height out = 1%nat.
Proof.
  destruct (applyY2KCameraEffect_returns Soft.backend Soft_backend_reliable
              Soft.gray1x1 Soft.no_options (repeat 0.5 9))
    as (out & rest & E); simpl; try lia.
  - unfold nonzero_tape. repeat (apply Forall_cons; [lra|]). apply Forall_nil.
  - exists out, rest. split; [exact E|].
    exact (applyY2KCameraEffect_shape _ _ _ _ _ _ E).
Defined.

(* ------------------------------------------------------------------------- *)
(** ** Lossy re-encode *)

(** C4 (recode-failure resilience).  When the codec fails on the image
    (encoding yields nothing, or decoding yields nothing),
    [applyJpegArtifacts] returns the image it was given, and the pipeline
    goes on to the resize and the date stamp with that image: the stage has
    no failing outcome. *)
Theorem recode_failure_resilience (B : SkiaBackend) (image : SkImage)
        (intensity : R) :
  codec_fails B image intensity ->
  applyJpegArtifacts B image intensity = image /\
  forall sourceImage options t t',
    default (opt_intensity options) 1.0 = intensity ->
    pipeline_stages B sourceImage intensity t = Returns image t' ->
    applyY2KCameraEffect B sourceImage options t
    = pipeline_finish B image (width sourceImage) (height sourceImage)
                      (default (opt_addDateStamp options) true)
                      (opt_dateStampText options) t'.
Proof.
  intros Hfail.
  assert (E : applyJpegArtifacts B image intensity = image).
  { unfold applyJpegArtifacts. destruct Hfail as [-> | (enc & -> & ->)]; auto. }
  split; [exact E|].
  intros sourceImage options t t' Hi Hs.
  unfold applyJpegArtifacts in E.
  unfold applyY2KCameraEffect. cbv zeta. rewrite Hi.
  cbn [bind Rand_Monad]. rewrite Hs.
  unfold applyJpegArtifacts. now rewrite E.
Qed.

Lemma recode_failure_resilience_witness :
  applyJpegArtifacts Soft.backend Soft.gray1x1 1 = Soft.gray1x1 /\
  applyJpegArtifacts Soft.backend_undecodable Soft.gray1x1 1 = Soft.gray1x1.
Proof.
  split.
  - apply (recode_failure_resilience Soft.backend Soft.gray1x1 1).
    left. reflexivity.
  - apply (recode_failure_resilience Soft.backend_undecodable Soft.gray1x1 1).
    right. exists (pixels Soft.gray1x1). split; reflexivity.
Defined.

(* ------------------------------------------------------------------------- *)
(** ** Date stamp text *)

Lemma floor_scaled (u : R) (n : Z) :
  (0 < n)%Z -> 0 <= u < 1 -> (0 <= Math_floor (u * IZR n) < n)%Z.
Proof.
  intros Hn Hu. unfold Math_floor.
  pose proof (Zfloor_bound (u * IZR n)) as [Hlo Hhi].
  assert (Hn' : 0 < IZR n) by now apply IZR_lt.
  split.
  - apply Zfloor_lub. simpl. nra.
  - apply lt_IZR. nra.
Qed.

Lemma date_text_ok_all :
  forallb (fun y =>
    forallb (fun m =>
      forallb (fun d =>
        date_text_ok (1 + Z.of_nat m) (1 + Z.of_nat d) (2001 + Z.of_nat y))
        (seq 0 28))
      (seq 0 12))
    (seq 0 6) = true.
Proof. vm_compute. reflexivity. Qed.

Lemma date_text_ok_range (m d y : Z) :
  (1 <= m <= 12)%Z -> (1 <= d <= 28)%Z -> (2001 <= y <= 2006)%Z ->
  date_text_ok m d y = true.
Proof.
  intros Hm Hd Hy.
  pose proof date_text_ok_all as H.
  rewrite forallb_forall in H.
  specialize (H (Z.to_nat (y - 2001)) ltac:(apply in_seq; lia)).
  rewrite forallb_forall in H.
  specialize (H (Z.to_nat (m - 1)) ltac:(apply in_seq; lia)).
  rewrite forallb_forall in H.
  specialize (H (Z.to_nat (d - 1)) ltac:(apply in_seq; lia)).
  replace (1 + Z.of_nat (Z.to_nat (m - 1)))%Z with m in H by lia.
  replace (1 + Z.of_nat (Z.to_nat (d - 1)))%Z with d in H by lia.
  replace (2001 + Z.of_nat (Z.to_nat (y - 2001)))%Z with y in H by lia.
  exact H.
Qed.

(** Without a caller-supplied text the date-stamp stage draws the text
    that [generateDate] returns. *)
Lemma addDateStamp_generated_text (B : SkiaBackend) (image : SkImage)
      (t : tape) (out : SkImage) (rest : tape) :
  addDateStamp B image None t = Returns out rest ->
  exists text,
    generateDate t = Returns text rest /\
    let fontSize := Z.max 16 (Math_floor (INR (width image) / 30)) in
    let x := INR (width image) - measureText B text fontSize - 20 in
    let y := INR (height image) - 20 in
    pixels out
    = drawText B
        (drawText B (pixels image) (width image) (height image) text
                  (x + 1) (y + 1) "rgba(100, 50, 0, 1)" fontSize)
        (width image) (height image) text x y "rgba(255, 140, 0, 1)" fontSize.
Proof.
  unfold addDateStamp, makeSurface. cbn [bind Rand_Monad].
  destruct (Surface_Make B _ _); cbn [lift]; [|discriminate].
  destruct (generateDate t) as [text t'| |]; try discriminate.
  cbn [ret Rand_Monad]. intros E. injection E as <- <-.
  exists text. split; reflexivity.
Qed.

Lemma generateDate_cons (u1 u2 u3 : R) (t : tape) :
  generateDate (u1 :: u2 :: u3 :: t)
  = Returns (date_text (1 + Math_floor (u2 * 12)) (1 + Math_floor (u3 * 28))
                       (2001 + Math_floor (u1 * 6))) t.
Proof. reflexivity. Qed.

(** C9 (date stamp formatting).  When [Math.random] yields values of [0,1),
    the text generated for the date stamp reads as MM/DD/YYYY (two digits,
    a slash, two digits, a slash, four digits) with month in [1,12], day in
    [1,28] and year in [2001,2006]. *)
Theorem generateDate_format (t : tape) (text : string) (rest : tape) :
  unit_tape t ->
  generateDate t = Returns text rest ->
  exists month day year,
    parse_MMDDYYYY text = Some (month, day, year) /\
    (1 <= month <= 12)%Z /\ (1 <= day <= 28)%Z /\ (2001 <= year <= 2006)%Z.
Proof.
  intros Ht E.
  destruct t as [|u1 [|u2 [|u3 t]]]; try discriminate.
  pose proof (generateDate_cons u1 u2 u3 t) as E'.
  unfold unit_tape in Ht.
  inversion Ht as [|? ? H1 Ht1]; subst.
  inversion Ht1 as [|? ? H2 Ht2]; subst.
  inversion Ht2 as [|? ? H3 _]; subst.
  pose proof (floor_scaled u1 6 ltac:(lia) H1) as F1.
  pose proof (floor_scaled u2 12 ltac:(lia) H2) as F2.
  pose proof (floor_scaled u3 28 ltac:(lia) H3) as F3.
  set (m := (1 + Math_floor (u2 * 12))%Z) in *.
  set (d := (1 + Math_floor (u3 * 28))%Z) in *.
  set (y := (2001 + Math_floor (u1 * 6))%Z) in *.
  assert (Etext : text = date_text m d y) by congruence.
  subst text. clear E E'.
  assert (Hm : (1 <= m <= 12)%Z) by (unfold m; lia).
  assert (Hd : (1 <= d <= 28)%Z) by (unfold d; lia).
  assert (Hy : (2001 <= y <= 2006)%Z) by (unfold y; lia).
  pose proof (date_text_ok_range m d y Hm Hd Hy) as Hok.
  unfold date_text_ok in Hok.
  destruct (parse_MMDDYYYY (date_text m d y)) as [[[m' d'] y']|];
    [|discriminate].
  apply andb_true_iff in Hok as [Hok Hy'].
  apply andb_true_iff in Hok as [Hm' Hd'].
  apply Z.eqb_eq in Hm', Hd', Hy'.
  exists m, d, y. repeat split; try lia; congruence.
Qed.

Lemma generateDate_format_witness :
  exists text rest month day year,
    generateDate [0.5; 0; 0.999] = Returns text rest /\
    parse_MMDDYYYY text = Some (month, day, year) /\
    (1 <= month <= 12)%Z /\ (1 <= day <= 28)%Z /\ (2001 <= year <= 2006)%Z.
Proof.
  pose proof (generateDate_cons 0.5 0 0.999 []) as E.
  assert (Ht : unit_tape [0.5; 0; 0.999]).
  { unfold unit_tape. repeat (apply Forall_cons; [lra|]). apply Forall_nil. }
  destruct (generateDate_format _ _ _ Ht E) as (m & d & y & H).
  eexists. exists [], m, d, y. split; [exact E | exact H].
Defined.

(* ------------------------------------------------------------------------- *)
(** ** Loops that work block by block *)

(** A loop whose iteration [p] writes only the block of [k] cells that
    starts at [k * p], and reads the state only there: after the loop each
    block holds what its own iteration makes of the initial buffer. *)
Lemma for_loop_block (k n L : nat)
      (body : nat -> Float32Array -> Float32Array) (d0 : Float32Array) :
  List.length d0 = L ->
  (forall p d, (p < n)%nat -> List.length d = L ->
               List.length (body p d) = L) ->
  (forall p d j, (p < n)%nat -> List.length d = L ->
                 (j < k * p \/ k * p + k <= j)%nat ->
                 get (body p d) j = get d j) ->
  (forall p d d' c, (p < n)%nat ->
                    List.length d = L -> List.length d' = L ->
                    (forall c', (c' < k)%nat ->
                                get d (k * p + c') = get d' (k * p + c')) ->
                    (c < k)%nat ->
                    get (body p d) (k * p + c) = get (body p d') (k * p + c)) ->
  (forall p c, (p < n)%nat -> (c < k)%nat ->
               get (for_loop n body d0) (k * p + c)
               = get (body p d0) (k * p + c)) /\
  (forall j, (k * n <= j)%nat -> get (for_loop n body d0) j = get d0 j) /\
  List.length (for_loop n body d0) = L.
Proof.
  intros HL Hlen Hframe Hlocal.
  induction n as [|n IH].
  - simpl. repeat split; auto. intros; lia.
  - destruct IH as (IH1 & IH2 & IH3).
    { intros; apply Hlen; auto. }
    { intros; apply Hframe; auto. }
    { intros; apply Hlocal; auto. }
    simpl. repeat split.
    + intros p c Hp Hc.
      destruct (Nat.eq_dec p n) as [->|Hne].
      * apply Hlocal; auto. intros c' Hc'. apply IH2. lia.
      * rewrite Hframe; auto; [apply IH1; lia | nia].
    + intros j Hj. rewrite Hframe; auto; [apply IH2; lia | lia].
    + apply Hlen; auto.
Qed.

(** The pixel that the flattened scan visits at step [p]. *)
Lemma pixel_of_index (w h p : nat) :
  (p < h * w)%nat ->
  (p mod w < w)%nat /\ (p / w < h)%nat /\ (p / w * w + p mod w = p)%nat.
Proof.
  intros Hp. assert (Hw : (w <> 0)%nat) by nia.
  repeat split.
  - now apply Nat.mod_upper_bound.
  - apply Nat.Div0.div_lt_upper_bound. nia.
  - pose proof (Nat.div_mod_eq p w). nia.
Qed.

Lemma index_of_pixel (w x y : nat) :
  (x < w)%nat -> ((y * w + x) mod w = x /\ (y * w + x) / w = y)%nat.
Proof.
  intros Hx. split.
  - rewrite Nat.add_comm, Nat.Div0.mod_add. now apply Nat.mod_small.
  - rewrite Nat.add_comm, Nat.div_add by lia.
    rewrite Nat.div_small by lia. lia.
Qed.

(* ------------------------------------------------------------------------- *)
(** ** Chromatic aberration *)

Section ChromaticAberration.

Variables (d : Float32Array) (w h : nat) (intensity : R).

Local Abbreviation shift := (Math_floor (2 * intensity)).

(** The values the stage writes at pixel [(x, y)], from the source, and the
    tests under which it writes them. *)
Local Abbreviation red_at x y :=
  (clamp (get d ((y * w + x) * 4) * (1 - 0.5 * intensity)
          + get d (Z.to_nat (((Z.of_nat y - shift) * Z.of_nat w
                              + (Z.of_nat x - shift)) * 4))
            * (0.5 * intensity)) 0 255).

Local Abbreviation blue_at x y :=
  (clamp (get d ((y * w + x) * 4 + 2) * (1 - 0.5 * intensity)
          + get d (Z.to_nat (((Z.of_nat y + shift) * Z.of_nat w
                              + (Z.of_nat x + shift)) * 4) + 2)
            * (0.5 * intensity)) 0 255).

Local Abbreviation red_ok x y :=
  ((0 <=? Z.of_nat y - shift) && (0 <=? Z.of_nat x - shift))%Z.

Local Abbreviation blue_ok x y :=
  ((Z.of_nat y + shift <? Z.of_nat h) && (Z.of_nat x + shift <? Z.of_nat w))%Z.

Lemma addChromaticAberration_noop :
  (shift < 1)%Z -> addChromaticAberration d w h intensity = d.
Proof.
  intros H. unfold addChromaticAberration.
  apply Z.ltb_lt in H. now rewrite H.
Qed.

Lemma addChromaticAberration_pixel (x y : nat) :
  (1 <= shift)%Z -> (x < w)%nat -> (y < h)%nat ->
  let out := addChromaticAberration d w h intensity in
  let base := ((y * w + x) * 4)%nat in
  List.length out = List.length d /\
  get out base
  = (if red_ok x y && (base <? List.length d)%nat
     then red_at x y else get d base) /\
  get out (base + 1) = get d (base + 1) /\
  get out (base + 2)
  = (if blue_ok x y && (base + 2 <? List.length d)%nat
     then blue_at x y else get d (base + 2)) /\
  get out (base + 3) = get d (base + 3).
Proof.
  intros Hs Hx Hy out base.
  unfold out, addChromaticAberration.
  assert (E : (shift <? 1)%Z = false) by (apply Z.ltb_ge; lia).
  rewrite E. rewrite scan_flat.
  set (body := fun (p : nat) (a : Float32Array) =>
                 let a1 := if red_ok (p mod w) (p / w)
                           then set a (p * 4) (red_at (p mod w) (p / w))
                           else a in
                 if blue_ok (p mod w) (p / w)
                 then set a1 (p * 4 + 2) (blue_at (p mod w) (p / w))
                 else a1).
  rewrite (for_loop_ext _ _ body).
  2:{ intros p a Hp. destruct (pixel_of_index w h p Hp) as (_ & _ & Ep).
      unfold body. cbv zeta.
      rewrite Ep. reflexivity. }
  destruct (for_loop_block 4 (h * w) (List.length d) body d eq_refl)
    as (H1 & _ & H3).
  - intros p a _ Ha. unfold body.
    destruct (red_ok _ _), (blue_ok _ _); rewrite ?set_length; auto.
  - intros p a j _ Ha Hj. unfold body.
    destruct (red_ok _ _), (blue_ok _ _);
      rewrite ?get_set_other by lia; auto.
  - intros p a a' c _ Ha Ha' Hagree Hc. unfold body.
    assert (G : forall c', (c' < 4)%nat ->
                           get a (p * 4 + c') = get a' (p * 4 + c')).
    { intros c' Hc'. replace (p * 4 + c')%nat with (4 * p + c')%nat by lia.
      auto. }
    pose proof (G 0%nat ltac:(lia)) as G0. rewrite Nat.add_0_r in G0.
    replace (4 * p + c)%nat with (p * 4 + c)%nat by lia.
    destruct (red_ok _ _), (blue_ok _ _);
      rewrite ?get_set, ?set_length, ?Ha, ?Ha';
      repeat match goal with
             | |- context [if ?b then _ else _] => destruct b
             end; auto.
  - destruct (index_of_pixel w x y Hx) as [Emod Ediv].
    assert (Hp : (y * w + x < h * w)%nat) by nia.
    split; [exact H3|].
    pose proof (H1 _ 0%nat Hp ltac:(lia)) as R0.
    pose proof (H1 _ 1%nat Hp ltac:(lia)) as R1.
    pose proof (H1 _ 2%nat Hp ltac:(lia)) as R2.
    pose proof (H1 _ 3%nat Hp ltac:(lia)) as R3.
    replace (4 * (y * w + x) + 0)%nat with base in R0 by (unfold base; lia).
    replace (4 * (y * w + x) + 1)%nat with (base + 1)%nat in R1
      by (unfold base; lia).
    replace (4 * (y * w + x) + 2)%nat with (base + 2)%nat in R2
      by (unfold base; lia).
    replace (4 * (y * w + x) + 3)%nat with (base + 3)%nat in R3
      by (unfold base; lia).
    rewrite R0, R1, R2, R3. unfold body. rewrite Emod, Ediv.
    fold base.
    destruct (red_ok x y), (blue_ok x y); simpl;
      rewrite ?get_set, ?set_length;
      repeat match goal with
             | |- context [(?a =? ?b)%nat] =>
                 destruct (Nat.eqb_spec a b); try lia
             end; simpl; auto.
Qed.

End ChromaticAberration.

Lemma clamp_blend (a b i : R) :
  0 <= a <= 255 -> 0 <= b <= 255 -> 0 <= i <= 2 ->
  clamp (blend a b i) 0 255 = blend a b i.
Proof.
  intros Ha Hb Hi. apply clamp_id. unfold blend. split; nra.
Qed.

Lemma floor_pos_intensity (i : R) : (1 <= Math_floor (2 * i))%Z -> 0 <= i.
Proof.
  unfold Math_floor. intros H.
  pose proof (Zfloor_bound (2 * i)) as [Hlo _].
  apply IZR_le in H. lra.
Qed.

(** C8 (chromatic aberration).  With [shift = floor(2 * intensity)]: when
    [shift < 1] the buffer is returned unchanged.  When [shift >= 1], for
    every pixel [(x, y)] of a [w]x[h] buffer, R becomes the (clamped) blend
    of the original R, weight [1 - 0.5 * intensity], and of the original R
    at [(x - shift, y - shift)], weight [0.5 * intensity], when that sample
    lies in the image, and is left as it was otherwise; B likewise with the
    sample at [(x + shift, y + shift)].  For a buffer in [0,255] and an
    intensity up to 2 the clamp does nothing: the value is the blend. *)
Theorem chromatic_aberration_blend (d : Float32Array) (w h : nat)
        (intensity : R) :
  let shift := Math_floor (2 * intensity) in
  let out := addChromaticAberration d w h intensity in
  ((shift < 1)%Z -> out = d) /\
  ((1 <= shift)%Z -> buffer_of w h d ->
   forall x y, (x < w)%nat -> (y < h)%nat ->
     let rx := (Z.of_nat x - shift)%Z in
     let ry := (Z.of_nat y - shift)%Z in
     let bx := (Z.of_nat x + shift)%Z in
     let by_ := (Z.of_nat y + shift)%Z in
     let red := blend (get d (idx x y w 0))
                      (get d (idx (Z.to_nat rx) (Z.to_nat ry) w 0))
                      intensity in
     let blue := blend (get d (idx x y w 2))
                       (get d (idx (Z.to_nat bx) (Z.to_nat by_) w 2))
                       intensity in
     (in_bounds rx ry w h ->
      get out (idx x y w 0) = clamp red 0 255 /\
      (in_range d -> intensity <= 2 -> get out (idx x y w 0) = red)) /\
     (~ in_bounds rx ry w h -> get out (idx x y w 0) = get d (idx x y w 0)) /\
     (in_bounds bx by_ w h ->
      get out (idx x y w 2) = clamp blue 0 255 /\
      (in_range d -> intensity <= 2 -> get out (idx x y w 2) = blue)) /\
     (~ in_bounds bx by_ w h -> get out (idx x y w 2) = get d (idx x y w 2))).
Proof.
  intros shift out. split.
  - apply addChromaticAberration_noop.
  - intros Hs Hbuf x y Hx Hy rx ry bx by_ red blue.
    destruct (addChromaticAberration_pixel d w h intensity x y Hs Hx Hy)
      as (_ & HR & _ & HB & _).
    fold shift in HR, HB. fold out in HR, HB.
    unfold buffer_of in Hbuf.
    assert (Hbase : ((y * w + x) * 4 + 3 < List.length d)%nat) by nia.
    assert (L0 : ((y * w + x) * 4 <? List.length d)%nat = true)
      by (apply Nat.ltb_lt; lia).
    assert (L2 : ((y * w + x) * 4 + 2 <? List.length d)%nat = true)
      by (apply Nat.ltb_lt; lia).
    rewrite L0 in HR. rewrite L2 in HB. rewrite !andb_true_r in HR, HB.
    pose proof (floor_pos_intensity intensity Hs) as Hi0.
    assert (ER : in_bounds rx ry w h -> get out (idx x y w 0) = clamp red 0 255).
    { intros [Hbx Hby]. unfold idx. rewrite !Nat.add_0_r. rewrite HR.
      replace ((0 <=? Z.of_nat y - shift)%Z && (0 <=? Z.of_nat x - shift)%Z)
        with true by (symmetry; apply andb_true_iff;
                      split; apply Z.leb_le; unfold rx, ry in *; lia).
      unfold red, blend, idx. rewrite !Nat.add_0_r.
      replace (Z.to_nat (((Z.of_nat y - shift) * Z.of_nat w
                          + (Z.of_nat x - shift)) * 4))
        with ((Z.to_nat ry * w + Z.to_nat rx) * 4)%nat; auto.
      unfold rx, ry in *. nia. }
    assert (EB : in_bounds bx by_ w h -> get out (idx x y w 2) = clamp blue 0 255).
    { intros [Hbx Hby]. unfold idx. rewrite HB.
      replace ((Z.of_nat y + shift <? Z.of_nat h)%Z
               && (Z.of_nat x + shift <? Z.of_nat w)%Z)
        with true by (symmetry; apply andb_true_iff;
                      split; apply Z.ltb_lt; unfold bx, by_ in *; lia).
      unfold blue, blend, idx.
      replace (Z.to_nat (((Z.of_nat y + shift) * Z.of_nat w
                          + (Z.of_nat x + shift)) * 4))
        with ((Z.to_nat by_ * w + Z.to_nat bx) * 4)%nat; auto.
      unfold bx, by_ in *. nia. }
    split; [|split; [|split]].
    + intros Hin. split; [now apply ER|].
      intros Hd Hi. rewrite ER by auto.
      apply clamp_blend; auto using in_range_at; lra.
    + intros Hout. unfold idx. rewrite !Nat.add_0_r. rewrite HR.
      replace ((0 <=? Z.of_nat y - shift)%Z && (0 <=? Z.of_nat x - shift)%Z)
        with false; auto.
      symmetry. apply andb_false_iff. rewrite !Z.leb_gt.
      unfold in_bounds, rx, ry in *. lia.
    + intros Hin. split; [now apply EB|].
      intros Hd Hi. rewrite EB by auto.
      apply clamp_blend; auto using in_range_at; lra.
    + intros Hout. unfold idx. rewrite HB.
      replace ((Z.of_nat y + shift <? Z.of_nat h)%Z
               && (Z.of_nat x + shift <? Z.of_nat w)%Z)
        with false; auto.
      symmetry. apply andb_false_iff. rewrite !Z.ltb_ge.
      unfold in_bounds, bx, by_ in *. lia.
Qed.

Lemma floor_one : Math_floor (2 * 0.5) = 1%Z.
Proof. unfold Math_floor. apply Zfloor_eq. lra. Qed.

Lemma in_range_buffer2x2 : in_range buffer2x2.
Proof.
  unfold in_range, buffer2x2.
  repeat (apply Forall_cons; [lra|]). apply Forall_nil.
Qed.

(** At intensity 0.5 the shift is 1: in the 2x2 buffer the red of pixel
    (1,1) is blended with the red of pixel (0,0), and the red of pixel (0,0),
    whose sample lies outside, is unchanged. *)
Lemma chromatic_aberration_blend_witness :
  let out := addChromaticAberration buffer2x2 2 2 0.5 in
  get out (idx 1 1 2 0)
  = blend (get buffer2x2 (idx 1 1 2 0)) (get buffer2x2 (idx 0 0 2 0)) 0.5 /\
  get out (idx 0 0 2 0) = get buffer2x2 (idx 0 0 2 0).
Proof.
  pose proof (chromatic_aberration_blend buffer2x2 2 2 0.5) as T.
  cbv zeta in T. rewrite floor_one in T. destruct T as [_ T].
  assert (Hb : buffer_of 2 2 buffer2x2) by reflexivity.
  split.
  - destruct (T ltac:(lia) Hb 1%nat 1%nat ltac:(lia) ltac:(lia))
      as ([_ H] & _).
    + unfold in_bounds. lia.
    + apply H; [apply in_range_buffer2x2 | lra].
  - destruct (T ltac:(lia) Hb 0%nat 0%nat ltac:(lia) ltac:(lia))
      as (_ & H & _).
    apply H. unfold in_bounds. lia.
Defined.

(** C10 (what chromatic aberration leaves alone).  For every buffer, every
    dimensions and every intensity the stage keeps the length of the buffer,
    and for every pixel [(x, y)] it leaves G and alpha as they were; it
    leaves R as it was when [(x - shift, y - shift)] lies outside the image,
    and B when [(x + shift, y + shift)] does. *)
Theorem chromatic_aberration_frame (d : Float32Array) (w h : nat)
        (intensity : R) (x y : nat) :
  let shift := Math_floor (2 * intensity) in
  let out := addChromaticAberration d w h intensity in
  (x < w)%nat -> (y < h)%nat ->
  List.length out = List.length d /\
  get out (idx x y w 1) = get d (idx x y w 1) /\
  get out (idx x y w 3) = get d (idx x y w 3) /\
  (~ in_bounds (Z.of_nat x - shift) (Z.of_nat y - shift) w h ->
   get out (idx x y w 0) = get d (idx x y w 0)) /\
  (~ in_bounds (Z.of_nat x + shift) (Z.of_nat y + shift) w h ->
   get out (idx x y w 2) = get d (idx x y w 2)).
Proof.
  intros shift out Hx Hy.
  destruct (Z.lt_ge_cases shift 1) as [Hs|Hs].
  - unfold out. rewrite addChromaticAberration_noop by exact Hs. auto.
  - destruct (addChromaticAberration_pixel d w h intensity x y Hs Hx Hy)
      as (HL & HR & HG & HB & HA).
    fold shift in HR, HB. fold out in HL, HR, HG, HB, HA.
    unfold idx. rewrite !Nat.add_0_r.
    repeat split; auto.
    + intros Hout. rewrite HR.
      replace ((0 <=? Z.of_nat y - shift)%Z && (0 <=? Z.of_nat x - shift)%Z)
        with false; auto.
      symmetry. apply andb_false_iff. rewrite !Z.leb_gt.
      unfold in_bounds in Hout. lia.
    + intros Hout. rewrite HB.
      replace ((Z.of_nat y + shift <? Z.of_nat h)%Z
               && (Z.of_nat x + shift <? Z.of_nat w)%Z)
        with false; auto.
      symmetry. apply andb_false_iff. rewrite !Z.ltb_ge.
      unfold in_bounds in Hout. lia.
Qed.

(** In the 2x2 buffer at intensity 0.5 (shift 1): pixel (0,1) keeps its
    green and alpha; its red sample (-1,0) and its blue sample (1,2) lie
    outside, so red and blue are kept too. *)
Lemma chromatic_aberration_frame_witness :
  let out := addChromaticAberration buffer2x2 2 2 0.5 in
  List.length out = 16%nat /\
  get out (idx 0 1 2 1) = 80 /\ get out (idx 0 1 2 3) = 255 /\
  get out (idx 0 1 2 0) = 70 /\ get out (idx 0 1 2 2) = 90.
Proof.
  pose proof (chromatic_aberration_frame buffer2x2 2 2 0.5 0 1) as T.
  cbv zeta in T. rewrite floor_one in T.
  destruct (T ltac:(lia) ltac:(lia)) as (HL & HG & HA & HR & HB).
  repeat split.
  - exact HL.
  - exact HG.
  - exact HA.
  - apply HR. unfold in_bounds. lia.
  - apply HB. unfold in_bounds. lia.
Defined.

(* ------------------------------------------------------------------------- *)
(** ** Sharpening *)

Lemma sharpen_loop_get (origPx blurPx : Float32Array) (amount : R) (i : nat) :
  (i < List.length origPx)%nat ->
  get (sharpen_loop origPx blurPx amount) i
  = if (i mod 4 =? 3)%nat then get origPx i
    else clamp (get origPx i + (get origPx i - get blurPx i) * amount) 0 255.
Proof.
  intros Hi. unfold sharpen_loop.
  set (body := fun (i : nat) (d : Float32Array) =>
                 if (i mod 4 =? 3)%nat then d
                 else set d i (clamp (get d i + (get d i - get blurPx i)
                                                * amount) 0 255)).
  destruct (for_loop_block 1 (List.length origPx) (List.length origPx)
                           body origPx eq_refl) as (H1 & _ & _).
  - intros p d _ Hd. unfold body.
    destruct (p mod 4 =? 3)%nat; rewrite ?set_length; auto.
  - intros p d j _ Hd Hj. unfold body.
    destruct (p mod 4 =? 3)%nat; rewrite ?get_set_other by lia; auto.
  - intros p d d' c _ Hd Hd' Hagree Hc. unfold body.
    assert (c = 0%nat) by lia. subst c.
    pose proof (Hagree 0%nat ltac:(lia)) as E.
    replace (1 * p + 0)%nat with p in * by lia.
    destruct (p mod 4 =? 3)%nat; auto.
    rewrite !get_set, Hd, Hd', E. reflexivity.
  - specialize (H1 i 0%nat Hi ltac:(lia)).
    replace (1 * i + 0)%nat with i in H1 by lia.
    rewrite H1. unfold body.
    destruct (i mod 4 =? 3)%nat; auto.
    now rewrite get_set_same.
Qed.

Lemma applyOversharpening_buffer_spec (B : SkiaBackend) (image : SkImage)
      (amount : R) (out : PixelData) :
  applyOversharpening_buffer B image amount = Ok out ->
  exists blurred,
    applyGaussianBlur B image (pilRadiusToSigma 1.5) = Ok blurred /\
    px_width out = width image /\ px_height out = height image /\
    forall i, (i < List.length (pixels image))%nat ->
      let value := get (map byte_to_R (pixels image)) i in
      let blurredValue := get (map byte_to_R (pixels blurred)) i in
      get (data out) i
      = if (i mod 4 =? 3)%nat then value
        else clamp (value + (value - blurredValue) * (1.5 * amount)) 0 255.
Proof.
  unfold applyOversharpening_buffer. cbn [bind result_Monad ret].
  destruct (applyGaussianBlur B image (pilRadiusToSigma 1.5))
    as [blurred|] eqn:Eb; [|discriminate].
  unfold imageToPixels.
  destruct (readPixels_ok B image); [|discriminate].
  destruct (readPixels_ok B blurred); [|discriminate].
  cbn [data px_width px_height]. intros E. injection E as <-.
  exists blurred. cbn [data px_width px_height].
  repeat split; auto.
  intros i Hi. apply sharpen_loop_get. now rewrite length_map.
Qed.

(** C7, as the code has it (unsharp mask).  The sharpening step of the
    pipeline blurs the image at sigma [pilRadiusToSigma 1.5 = 0.6375] and
    writes, for every non-alpha channel of every pixel,
    [clamp(value + (value - blurredValue) * 1.5 * (1.3 * intensity), 0, 255)]
    where [intensity] is the top-level intensity: the pipeline passes
    [intensity * 1.3] to the stage.  Alpha is left as it was. *)
Theorem pipeline_oversharpening_formula (B : SkiaBackend) (image : SkImage)
        (intensity : R) (out : PixelData) :
  pipeline_oversharpening_buffer B image intensity = Ok out ->
  pilRadiusToSigma 1.5 = 0.6375 /\
  pipeline_oversharpening B image intensity
  = pixelsToImage B (data out) (px_width out) (px_height out) /\
  exists blurred,
    applyGaussianBlur B image 0.6375 = Ok blurred /\
    forall i, (i < List.length (pixels image))%nat ->
      let value := get (map byte_to_R (pixels image)) i in
      let blurredValue := get (map byte_to_R (pixels blurred)) i in
      ((i mod 4 <> 3)%nat ->
       get (data out) i
       = clamp (value + (value - blurredValue) * 1.5 * (1.3 * intensity))
               0 255) /\
      ((i mod 4 = 3)%nat -> get (data out) i = value).
Proof.
  intros E.
  assert (Es : pilRadiusToSigma 1.5 = 0.6375) by (unfold pilRadiusToSigma; lra).
  split; [exact Es|]. split.
  - unfold pipeline_oversharpening, applyOversharpening.
    unfold pipeline_oversharpening_buffer in E.
    cbn [bind result_Monad]. now rewrite E.
  - unfold pipeline_oversharpening_buffer in E.
    destruct (applyOversharpening_buffer_spec B image _ out E)
      as (blurred & Eb & _ & _ & H).
    exists blurred. rewrite <- Es. split; [exact Eb|].
    intros i Hi value blurredValue. split; intros Halpha.
    + rewrite (H i Hi).
      apply Nat.eqb_neq in Halpha. rewrite Halpha.
      fold value blurredValue. f_equal. lra.
    + rewrite (H i Hi).
      apply Nat.eqb_eq in Halpha. rewrite Halpha. reflexivity.
Qed.

Lemma Soft_blur_edge (sigma : R) :
  0 < sigma ->
  applyGaussianBlur Soft.backend Soft.edge2x1 sigma
  = Ok {| width := 2; height := 1;
          pixels := ["105"; "105"; "105"; "255";
                     "115"; "115"; "115"; "255"]%byte |}.
Proof.
  intros Hs. unfold applyGaussianBlur.
  destruct (Rle_dec sigma 0); [lra|]. reflexivity.
Qed.

Lemma Soft_sharpen_edge (amount : R) :
  applyOversharpening_buffer Soft.backend Soft.edge2x1 amount
  = Ok {| data :=
            sharpen_loop
              (map byte_to_R (pixels Soft.edge2x1))
              (map byte_to_R ["105"; "105"; "105"; "255";
                              "115"; "115"; "115"; "255"]%byte)
              (1.5 * amount);
          px_width := 2; px_height := 1 |}.
Proof.
  unfold applyOversharpening_buffer.
  rewrite Soft_blur_edge by (unfold pilRadiusToSigma; lra). reflexivity.
Qed.

(** Evaluation of [byte_to_R] on byte literals. *)
Ltac eval_bytes :=
  repeat match goal with
         | |- context [byte_to_R ?b] =>
             let z := eval vm_compute in (Z.of_N (Byte.to_N b)) in
             change (byte_to_R b) with (IZR z)
         end.

(** On the 2x1 edge image at intensity 1 the first channel is 100 and its
    blurred value 105: the pipeline writes 100 - 5 * 1.95 = 90.25, not the
    100 - 5 * 1.5 = 92.5 that the formula with the bare intensity gives. *)
Lemma pipeline_oversharpening_counterexample :
  exists out blurred,
    pipeline_oversharpening_buffer Soft.backend Soft.edge2x1 1 = Ok out /\
    applyGaussianBlur Soft.backend Soft.edge2x1 (pilRadiusToSigma 1.5)
    = Ok blurred /\
    let value := get (map byte_to_R (pixels Soft.edge2x1)) 0 in
    let blurredValue := get (map byte_to_R (pixels blurred)) 0 in
    value = 100 /\ blurredValue = 105 /\
    get (data out) 0 = 90.25 /\
    clamp (value + (value - blurredValue) * 1.5 * 1) 0 255 = 92.5 /\
    get (data out) 0
    <> clamp (value + (value - blurredValue) * 1.5 * 1) 0 255.
Proof.
  eexists. eexists. split; [apply Soft_sharpen_edge|].
  split; [apply Soft_blur_edge; unfold pilRadiusToSigma; lra|].
  cbn [data pixels].
  assert (E1 : get (map byte_to_R (pixels Soft.edge2x1)) 0 = 100).
  { cbn [Soft.edge2x1 pixels map get nth]. eval_bytes. reflexivity. }
  assert (E2 : get (map byte_to_R ["105"; "105"; "105"; "255";
                                   "115"; "115"; "115"; "255"]%byte) 0 = 105).
  { cbn [map get nth]. eval_bytes. reflexivity. }
  assert (E3 : get (sharpen_loop
                      (map byte_to_R (pixels Soft.edge2x1))
                      (map byte_to_R ["105"; "105"; "105"; "255";
                                      "115"; "115"; "115"; "255"]%byte)
                      (1.5 * (1 * 1.3))) 0 = 90.25).
  { rewrite sharpen_loop_get by (simpl; lia).
    cbn [Nat.modulo Nat.eqb Nat.divmod fst snd Nat.sub]. rewrite E1, E2.
    rewrite clamp_id; lra. }
  assert (E4 : clamp (100 + (100 - 105) * 1.5 * 1) 0 255 = 92.5).
  { rewrite clamp_id; lra. }
  cbv zeta. rewrite E1, E2, E3, E4.
  repeat split; auto. lra.
Qed.

(** The sharpening step of the pipeline on the 2x1 edge image. *)
Lemma pipeline_oversharpening_formula_witness :
  exists out,
    pipeline_oversharpening_buffer Soft.backend Soft.edge2x1 1 = Ok out /\
    pilRadiusToSigma 1.5 = 0.6375.
Proof.
  eexists. split; [apply Soft_sharpen_edge|].
  exact (proj1 (pipeline_oversharpening_formula
                  Soft.backend Soft.edge2x1 1 _ (Soft_sharpen_edge _))).
Defined.

(* ------------------------------------------------------------------------- *)
(** ** Initial downscale *)

Lemma Math_round_eq (x : R) (z : Z) :
  IZR z - 0.5 <= x < IZR z + 0.5 -> Math_round x = z.
Proof. intros H. unfold Math_round. apply Zfloor_eq. lra. Qed.

Lemma Math_round_le (x : R) (z : Z) : x <= IZR z -> (Math_round x <= z)%Z.
Proof.
  intros H. unfold Math_round.
  assert (E : Zfloor (IZR z + 0.5) = z) by (apply Zfloor_eq; lra).
  apply Z.le_trans with (Zfloor (IZR z + 0.5)); [|rewrite E; lia].
  apply Zfloor_le. lra.
Qed.

Lemma sqrt_between (x lo hi : R) :
  0 <= lo -> 0 <= hi -> lo * lo < x < hi * hi -> lo < sqrt x < hi.
Proof.
  intros Hlo Hhi [H1 H2]. split.
  - rewrite <- (sqrt_square lo) at 1 by exact Hlo.
    apply sqrt_lt_1_alt. nra.
  - rewrite <- (sqrt_square hi) by exact Hhi.
    apply sqrt_lt_1_alt. nra.
Qed.

Lemma scale_bounds (current : Z) :
  (2000000 < current)%Z -> 0 < Math_sqrt (2000000 / IZR current) < 1.
Proof.
  intros H. apply IZR_lt in H. unfold Math_sqrt.
  assert (Hc : 0 < IZR current) by lra.
  assert (Hq : 0 < 2000000 / IZR current < 1).
  { split.
    - apply Rdiv_lt_0_compat; lra.
    - apply (Rmult_lt_reg_r (IZR current)); [lra|].
      unfold Rdiv. rewrite Rmult_assoc, Rinv_l by lra. lra. }
  split.
  - apply sqrt_lt_R0. lra.
  - rewrite <- sqrt_1. apply sqrt_lt_1_alt. lra.
Qed.

Section ReduceResolution.

Variables (B : SkiaBackend) (image : SkImage) (intensity : R).

Local Abbreviation current :=
  (Z.of_nat (width image) * Z.of_nat (height image))%Z.
Local Abbreviation blended :=
  (1 - (1 - Math_sqrt (2000000 / IZR current)) * intensity).

Lemma reduceResolution_small :
  (current <= 2000000)%Z -> reduceResolution B image intensity = Ok image.
Proof.
  intros H. unfold reduceResolution.
  apply Z.leb_le in H. now rewrite H.
Qed.

Lemma reduceResolution_large :
  (2000000 < current)%Z ->
  reduceResolution B image intensity
  = drawImageToSurface B image
      (Math_round (INR (width image) * blended))
      (Math_round (INR (height image) * blended)).
Proof.
  intros H. unfold reduceResolution.
  apply Z.leb_gt in H. now rewrite H.
Qed.

Lemma reduceResolution_never_upscales :
  (2000000 < current)%Z -> 0 <= intensity ->
  (Math_round (INR (width image) * blended) <= Z.of_nat (width image))%Z /\
  (Math_round (INR (height image) * blended) <= Z.of_nat (height image))%Z.
Proof.
  intros H Hi. pose proof (scale_bounds current H) as Hs.
  assert (Hb : blended <= 1) by nra.
  split; apply Math_round_le; rewrite <- INR_IZR_INZ;
    match goal with
    | |- INR ?n * _ <= _ => pose proof (pos_INR n)
    end; nra.
Qed.

End ReduceResolution.

(** The numbers of the 4000x3000 scenario. *)
Lemma scale_4000x3000 :
  0.40824 < Math_sqrt (2000000 / 12000000) < 0.40825.
Proof. unfold Math_sqrt. apply sqrt_between; lra. Qed.

Lemma INR_4000 : INR 4000 = 4000.
Proof. rewrite INR_IZR_INZ. reflexivity. Qed.

Lemma INR_3000 : INR 3000 = 3000.
Proof. rewrite INR_IZR_INZ. reflexivity. Qed.

Lemma Soft_drawImageToSurface (image : SkImage) (w h : Z) :
  (0 < w)%Z -> (0 < h)%Z ->
  exists out,
    drawImageToSurface Soft.backend image w h = Ok out /\
    Z.of_nat (width out) = w /\ Z.of_nat (height out) = h.
Proof.
  intros Hw Hh. unfold drawImageToSurface, makeSurface.
  cbn [Surface_Make Soft.backend].
  apply Z.ltb_lt in Hw, Hh. rewrite Hw, Hh. cbn [andb bind result_Monad ret].
  eexists. split; [reflexivity|].
  cbn [makeImageSnapshot width height surf_width surf_height].
  apply Z.ltb_lt in Hw, Hh. rewrite !Z2Nat.id by lia. auto.
Qed.

Lemma white_current :
  (Z.of_nat (width Soft.white4000x3000)
   * Z.of_nat (height Soft.white4000x3000))%Z = 12000000%Z.
Proof. reflexivity. Qed.

Lemma pipeline_white_dims (intensity : R) (newW newH : Z) :
  (0 < newW)%Z -> (0 < newH)%Z ->
  IZR newW - 0.5
  <= 4000 * (1 - (1 - Math_sqrt (2000000 / 12000000)) * (intensity * 0.02))
  < IZR newW + 0.5 ->
  IZR newH - 0.5
  <= 3000 * (1 - (1 - Math_sqrt (2000000 / 12000000)) * (intensity * 0.02))
  < IZR newH + 0.5 ->
  exists out,
    pipeline_reduceResolution Soft.backend Soft.white4000x3000 intensity
    = Ok out /\
    Z.of_nat (width out) = newW /\ Z.of_nat (height out) = newH.
Proof.
  intros Hw Hh Bw Bh.
  unfold pipeline_reduceResolution.
  rewrite reduceResolution_large by (rewrite white_current; lia).
  rewrite white_current.
  change (width Soft.white4000x3000) with 4000%nat.
  change (height Soft.white4000x3000) with 3000%nat.
  rewrite INR_4000, INR_3000.
  rewrite (Math_round_eq _ newW) by exact Bw.
  rewrite (Math_round_eq _ newH) by exact Bh.
  now apply Soft_drawImageToSurface.
Qed.

(** C3, as the code has it (initial downscale).  The pipeline calls the
    downscale with [intensity * 0.02].  When the image has more than
    2,000,000 pixels it is redrawn at the dimensions obtained by rounding
    width and height times [1 - (1 - s) * (0.02 * intensity)], where
    [s = sqrt(2,000,000 / currentPixels)]; for a non-negative intensity
    neither dimension grows; a 4000x3000 image at intensity 1 is redrawn at
    3953x2964.  When the image has at most 2,000,000 pixels it is returned
    unchanged. *)
Theorem pipeline_reduceResolution_scale (B : SkiaBackend) (image : SkImage)
        (intensity : R) :
  let w := width image in
  let h := height image in
  let currentPixels := (Z.of_nat w * Z.of_nat h)%Z in
  let s := Math_sqrt (2000000 / IZR currentPixels) in
  let factor := 1 - (1 - s) * (0.02 * intensity) in
  let newW := Math_round (INR w * factor) in
  let newH := Math_round (INR h * factor) in
  ((currentPixels <= 2000000)%Z ->
   pipeline_reduceResolution B image intensity = Ok image) /\
  ((2000000 < currentPixels)%Z ->
   pipeline_reduceResolution B image intensity
   = drawImageToSurface B image newW newH /\
   (forall out, pipeline_reduceResolution B image intensity = Ok out ->
                width out = Z.to_nat newW /\ height out = Z.to_nat newH) /\
   (0 <= intensity -> (newW <= Z.of_nat w)%Z /\ (newH <= Z.of_nat h)%Z) /\
   (w = 4000%nat -> h = 3000%nat -> intensity = 1 ->
    newW = 3953%Z /\ newH = 2964%Z)).
Proof.
  intros w h currentPixels s factor newW newH. split.
  - intros H. unfold pipeline_reduceResolution.
    now apply reduceResolution_small.
  - intros H.
    assert (E : pipeline_reduceResolution B image intensity
                = drawImageToSurface B image newW newH).
    { unfold pipeline_reduceResolution.
      rewrite reduceResolution_large by exact H.
      unfold newW, newH, factor, s, currentPixels, w, h.
      do 2 f_equal; f_equal; lra. }
    split; [exact E|]. split; [|split].
    + intros out Hout. rewrite E in Hout.
      now apply drawImageToSurface_dims in Hout.
    + intros Hi.
      pose proof (reduceResolution_never_upscales image (intensity * 0.02) H
                    ltac:(lra)) as [Hw Hh].
      unfold newW, newH, factor, s, currentPixels, w, h.
      split; [eapply Z.le_trans; [|exact Hw] | eapply Z.le_trans; [|exact Hh]];
        apply Z.eq_le_incl; f_equal; lra.
    + intros Ew Eh Ei. unfold newW, newH, factor, s, currentPixels.
      rewrite Ew, Eh, Ei, INR_4000, INR_3000.
      change (Z.of_nat 4000 * Z.of_nat 3000)%Z with 12000000%Z.
      pose proof scale_4000x3000 as Hs.
      split; apply Math_round_eq; lra.
Qed.

(** The scenario of the specification on the software backend: the 4000x3000
    image at intensity 1 is redrawn at 3953x2964, and the 1x1 image is
    returned as it is. *)
Lemma pipeline_reduceResolution_scale_witness :
  pipeline_reduceResolution Soft.backend Soft.gray1x1 1 = Ok Soft.gray1x1 /\
  Math_round (INR 4000 * (1 - (1 - Math_sqrt (2000000 / IZR 12000000))
                              * (0.02 * 1))) = 3953%Z /\
  Math_round (INR 3000 * (1 - (1 - Math_sqrt (2000000 / IZR 12000000))
                              * (0.02 * 1))) = 2964%Z.
Proof.
  split.
  - apply (pipeline_reduceResolution_scale Soft.backend Soft.gray1x1 1).
    simpl. lia.
  - apply (pipeline_reduceResolution_scale Soft.backend
             Soft.white4000x3000 1); auto.
    rewrite white_current. lia.
Defined.

(** The 4000x3000 image at intensity 1 comes out of the pipeline's first
    step at 3953x2964, that is 11,716,692 pixels, where the scale factor
    with the bare intensity would give 1633x1225; and at intensity -50 the
    step enlarges the image to 6367x4775. *)
Lemma pipeline_reduceResolution_counterexample :
  (exists out,
     pipeline_reduceResolution Soft.backend Soft.white4000x3000 1 = Ok out /\
     Z.of_nat (width out) = 3953%Z /\ Z.of_nat (height out) = 2964%Z /\
     Math_round (INR 4000 * (1 - (1 - Math_sqrt (2000000 / 12000000)) * 1))
     = 1633%Z /\
     Math_round (INR 3000 * (1 - (1 - Math_sqrt (2000000 / 12000000)) * 1))
     = 1225%Z /\
     Z.of_nat (width out)
     <> Math_round (INR 4000 * (1 - (1 - Math_sqrt (2000000 / 12000000)) * 1)) /\
     ~ (Z.of_nat (width out) * Z.of_nat (height out) <= 2000000)%Z) /\
  (exists out,
     pipeline_reduceResolution Soft.backend Soft.white4000x3000 (-50) = Ok out /\
     Z.of_nat (width out) = 6367%Z /\ Z.of_nat (height out) = 4775%Z /\
     ~ (Z.of_nat (width out) <= Z.of_nat (width Soft.white4000x3000))%Z).
Proof.
  pose proof scale_4000x3000 as Hs.
  assert (E1 : Math_round (INR 4000 * (1 - (1 - Math_sqrt (2000000 / 12000000))
                                           * 1)) = 1633%Z).
  { rewrite INR_4000. apply Math_round_eq. lra. }
  assert (E2 : Math_round (INR 3000 * (1 - (1 - Math_sqrt (2000000 / 12000000))
                                           * 1)) = 1225%Z).
  { rewrite INR_3000. apply Math_round_eq. lra. }
  split.
  - destruct (pipeline_white_dims 1 3953 2964) as (out & E & Ew & Eh);
      try lia; try lra.
    exists out. rewrite Ew, Eh, E1, E2. repeat split; auto; lia.
  - destruct (pipeline_white_dims (-50) 6367 4775) as (out & E & Ew & Eh);
      try lia; try lra.
    exists out. rewrite Ew, Eh.
    change (Z.of_nat (width Soft.white4000x3000)) with 4000%Z.
    repeat split; auto; lia.
Qed.

(* ------------------------------------------------------------------------- *)
(** ** Randomness *)

Lemma prefix_determined_ret {A : Type} (a : A) : prefix_determined (ret a).
Proof.
  intros t a' rest E. simpl in E. injection E as <- <-.
  exists []. split; auto.
Qed.

Lemma prefix_determined_lift {A : Type} (r : result A) :
  prefix_determined (lift r).
Proof.
  intros t a rest E. unfold lift in *. destruct r; [|discriminate].
  injection E as <- <-. exists []. split; auto.
Qed.

Lemma prefix_determined_bind {A C : Type} (m : Rand A) (k : A -> Rand C) :
  prefix_determined m ->
  (forall a, prefix_determined (k a)) ->
  prefix_determined (bind m k).
Proof.
  intros Hm Hk t c rest E. simpl in E.
  destruct (m t) as [a t1| |] eqn:Em; try discriminate.
  destruct (Hm _ _ _ Em) as (u1 & -> & H1).
  destruct (Hk a _ _ _ E) as (u2 & -> & H2).
  exists (u1 ++ u2). split; [now rewrite app_assoc|].
  intros rest'. simpl. rewrite <- app_assoc, H1. apply H2.
Qed.

Lemma prefix_determined_Math_random : prefix_determined Math_random.
Proof.
  intros [|u t] a rest E; simpl in E; [discriminate|].
  injection E as <- <-. exists [u]. split; auto.
Qed.

Lemma prefix_determined_random_nonzero : prefix_determined random_nonzero.
Proof.
  intros t. induction t as [|u t IH]; intros a rest E; simpl in E;
    [discriminate|].
  destruct (Req_dec_T u 0) as [Hz|Hnz].
  - destruct (IH _ _ E) as (used & -> & H).
    exists (u :: used). split; auto.
    intros rest'. simpl. destruct (Req_dec_T u 0); [apply H | contradiction].
  - injection E as <- <-. exists [u]. split; auto.
    intros rest'. simpl. destruct (Req_dec_T u 0); [contradiction | auto].
Qed.

Lemma prefix_determined_randomNormal : prefix_determined randomNormal.
Proof.
  unfold randomNormal.
  apply prefix_determined_bind; [apply prefix_determined_random_nonzero|].
  intros u.
  apply prefix_determined_bind; [apply prefix_determined_random_nonzero|].
  intros v. apply prefix_determined_ret.
Qed.

Lemma prefix_determined_addDigitalNoise d w h i :
  prefix_determined (addDigitalNoise d w h i).
Proof.
  unfold addDigitalNoise.
  apply (scan_inv prefix_determined); [apply prefix_determined_ret|].
  intros x y acc _ _ Hacc.
  apply prefix_determined_bind; [exact Hacc|]. intros a.
  apply (for_loop_inv prefix_determined); [apply prefix_determined_ret|].
  intros c acc' _ Hacc'.
  apply prefix_determined_bind; [exact Hacc'|]. intros a'.
  apply prefix_determined_bind; [apply prefix_determined_randomNormal|].
  intros n. apply prefix_determined_ret.
Qed.

Lemma prefix_determined_generateDate : prefix_determined generateDate.
Proof.
  unfold generateDate.
  repeat (apply prefix_determined_bind;
          [apply prefix_determined_Math_random | intros ?]).
  apply prefix_determined_ret.
Qed.

Section PipelineDraws.

Variable B : SkiaBackend.

Lemma prefix_determined_addDateStamp image customText :
  prefix_determined (addDateStamp B image customText).
Proof.
  unfold addDateStamp.
  apply prefix_determined_bind; [apply prefix_determined_lift|]. intros s.
  apply prefix_determined_bind.
  - destruct customText;
      [apply prefix_determined_ret | apply prefix_determined_generateDate].
  - intros text. apply prefix_determined_ret.
Qed.

Lemma prefix_determined_pipeline_stages sourceImage i :
  prefix_determined (pipeline_stages B sourceImage i).
Proof.
  unfold pipeline_stages.
  repeat (apply prefix_determined_bind;
          [first [apply prefix_determined_lift
                 | apply prefix_determined_addDigitalNoise] | intros ?]).
  apply prefix_determined_lift.
Qed.

Lemma prefix_determined_pipeline_finish image w h addStamp text :
  prefix_determined (pipeline_finish B image w h addStamp text).
Proof.
  unfold pipeline_finish.
  apply prefix_determined_bind; [apply prefix_determined_lift|]. intros im.
  destruct addStamp;
    [apply prefix_determined_addDateStamp | apply prefix_determined_ret].
Qed.

End PipelineDraws.

(** C5, as the code has it (determinism modulo randomness).  Noise
    generation and the pipeline draw from the ambient [Math.random]; a run
    that returns has consumed a prefix of the values [Math.random] yields,
    and what it returns is determined by its arguments and that prefix: any
    run with the same arguments whose draws start with the same prefix
    returns the same result.  This holds of [addDigitalNoise] and of
    [applyY2KCameraEffect]. *)
Theorem draws_determine_output (B : SkiaBackend) :
  (forall d w h i t out rest,
     addDigitalNoise d w h i t = Returns out rest ->
     exists used, t = used ++ rest /\
       forall rest', addDigitalNoise d w h i (used ++ rest') = Returns out rest') /\
  (forall sourceImage options t out rest,
     applyY2KCameraEffect B sourceImage options t = Returns out rest ->
     exists used, t = used ++ rest /\
       forall rest',
         applyY2KCameraEffect B sourceImage options (used ++ rest')
         = Returns out rest').
Proof.
  split.
  - intros d w h i. apply prefix_determined_addDigitalNoise.
  - intros sourceImage options.
    change (prefix_determined (applyY2KCameraEffect B sourceImage options)).
    unfold applyY2KCameraEffect. cbv zeta.
    apply prefix_determined_bind;
      [apply prefix_determined_pipeline_stages|].
    intros image. apply prefix_determined_pipeline_finish.
Qed.

Lemma draws_determine_output_witness :
  exists out rest used,
    applyY2KCameraEffect Soft.backend Soft.gray1x1 Soft.no_options
                         (repeat 0.5 9) = Returns out rest /\
    repeat 0.5 9 = used ++ rest /\
    forall rest',
      applyY2KCameraEffect Soft.backend Soft.gray1x1 Soft.no_options
                           (used ++ rest') = Returns out rest'.
Proof.
  destruct (applyY2KCameraEffect_returns Soft.backend Soft_backend_reliable
              Soft.gray1x1 Soft.no_options (repeat 0.5 9))
    as (out & rest & E); simpl; try lia.
  - unfold nonzero_tape. repeat (apply Forall_cons; [lra|]). apply Forall_nil.
  - destruct (proj2 (draws_determine_output Soft.backend) _ _ _ _ _ E)
      as (used & Eu & H).
    exists out, rest, used. auto.
Defined.

(** [addDigitalNoise] on a single pixel. *)
Lemma addDigitalNoise_1x1 (d : Float32Array) (i u1 v1 u2 v2 u3 v3 : R)
      (rest : tape) :
  u1 <> 0 -> v1 <> 0 -> u2 <> 0 -> v2 <> 0 -> u3 <> 0 -> v3 <> 0 ->
  let weight := 0.5 + (1 - luminance d 0 0 1 / 255) * 0.5 in
  let noise u v := Math_sqrt (-2.0 * ln u) * cos (2.0 * PI * v) * (12 * i) in
  let d1 := set d 0 (clamp (get d 0 + noise u1 v1 * weight) 0 255) in
  let d2 := set d1 1 (clamp (get d1 1 + noise u2 v2 * weight) 0 255) in
  let d3 := set d2 2 (clamp (get d2 2 + noise u3 v3 * weight) 0 255) in
  addDigitalNoise d 1 1 i (u1 :: v1 :: u2 :: v2 :: u3 :: v3 :: rest)
  = Returns d3 rest.
Proof.
  intros H1 H2 H3 H4 H5 H6. cbv zeta.
  unfold addDigitalNoise, scan.
  cbn [for_loop bind Rand_Monad ret].
  rewrite (randomNormal_cons u1 v1) by auto.
  rewrite (randomNormal_cons u2 v2) by auto.
  rewrite (randomNormal_cons u3 v3) by auto.
  reflexivity.
Qed.

Lemma normal_half_half : Math_sqrt (-2.0 * ln 0.5) * cos (2.0 * PI * 0.5) < 0.
Proof.
  replace (2.0 * PI * 0.5) with PI by lra. rewrite cos_PI.
  assert (Hl : ln 0.5 < 0).
  { rewrite <- ln_1. apply ln_increasing; lra. }
  assert (Hs : 0 < Math_sqrt (-2.0 * ln 0.5)).
  { unfold Math_sqrt. apply sqrt_lt_R0. lra. }
  lra.
Qed.

Lemma normal_half_quarter :
  Math_sqrt (-2.0 * ln 0.5) * cos (2.0 * PI * 0.25) = 0.
Proof.
  replace (2.0 * PI * 0.25) with (PI / 2) by lra. rewrite cos_PI2. lra.
Qed.

(** Two successive calls of the noise stage with the same buffer, the same
    dimensions and the same intensity: the first sees the draws
    0.5, 0.5, ... and darkens the pixel, the second sees 0.5, 0.25, ... and
    leaves it as it is.  Nothing in the arguments tells the two calls
    apart. *)
Lemma addDigitalNoise_successive_calls :
  let d := [128; 128; 128; 255] in
  let t := [0.5; 0.5; 0.5; 0.5; 0.5; 0.5;
            0.5; 0.25; 0.5; 0.25; 0.5; 0.25] in
  exists out1 rest1 out2 rest2,
    addDigitalNoise d 1 1 1 t = Returns out1 rest1 /\
    addDigitalNoise d 1 1 1 rest1 = Returns out2 rest2 /\
    get out1 0 < 128 /\ get out2 0 = 128 /\
    out1 <> out2.
Proof.
  intros d t.
  assert (Hl : luminance d 0 0 1 = 128).
  { unfold luminance, d. cbn [get nth Nat.mul Nat.add]. lra. }
  pose proof normal_half_half as Hn1.
  pose proof normal_half_quarter as Hn2.
  do 4 eexists. split; [|split].
  - unfold t. apply addDigitalNoise_1x1; lra.
  - apply addDigitalNoise_1x1; lra.
  - rewrite Hl, Hn2.
    assert (G1 : forall a b c : R,
               get (set (set (set d 0 a) 1 b) 2 c) 0 = a).
    { intros a b c. rewrite !get_set_other by lia.
      apply get_set_same. simpl. lia. }
    rewrite !G1.
    assert (E1 : clamp (get d 0 + Math_sqrt (-2.0 * ln 0.5)
                                  * cos (2.0 * PI * 0.5) * (12 * 1)
                                  * (0.5 + (1 - 128 / 255) * 0.5)) 0 255 < 128).
    { change (get d 0) with 128. unfold clamp.
      destruct (Rlt_dec _ 0); [lra|]. destruct (Rgt_dec _ 255); nra. }
    assert (E2 : clamp (get d 0 + 0 * (12 * 1)
                                  * (0.5 + (1 - 128 / 255) * 0.5)) 0 255 = 128).
    { change (get d 0) with 128. rewrite clamp_id; lra. }
    split; [exact E1|]. split; [exact E2|].
    intros Heq. apply (f_equal (fun b => get b 0)) in Heq.
    rewrite !G1 in Heq. lra.
Qed.

(* ------------------------------------------------------------------------- *)
(** ** Bloom *)

Lemma Math_pow_nonneg (x y : R) : 0 <= Math_pow x y.
Proof.
  unfold Math_pow. destruct (Req_dec_T y 0); [lra|].
  destruct (Rlt_dec 0 x); [|lra].
  unfold Rpower. left. apply exp_pos.
Qed.

Lemma get_bytes_bounds (bs : list byte) (j : nat) :
  0 <= get (map byte_to_R bs) j <= 255.
Proof. apply in_range_at, in_range_bytes. Qed.

(** Buffers compared cell by cell. *)
Lemma pointwise_set (P : R -> Prop) (d : Float32Array) (i : nat) (v : R) :
  (forall j, P (get d j)) -> P v -> forall j, P (get (set d i v) j).
Proof.
  intros Hd Hv j. rewrite get_set.
  destruct ((j =? i) && (i <? List.length d))%nat; auto.
Qed.

Lemma below_set (r1 r2 : Float32Array) (i : nat) (v1 v2 : R) :
  List.length r1 = List.length r2 ->
  (forall j, get r1 j <= get r2 j) ->
  v1 <= v2 ->
  List.length (set r1 i v1) = List.length (set r2 i v2) /\
  (forall j, get (set r1 i v1) j <= get (set r2 i v2) j).
Proof.
  intros Hl Hle Hv. split; [now rewrite !set_length|].
  intros j. rewrite !get_set, Hl.
  destruct ((j =? i) && (i <? List.length r2))%nat; auto.
Qed.

Lemma below_chain (r1 r2 : Float32Array) (i : nat) (v1 v2 : R) :
  (List.length r1 = List.length r2 /\ forall j, get r1 j <= get r2 j) ->
  ((forall j, get r1 j <= get r2 j) -> v1 <= v2) ->
  List.length (set r1 i v1) = List.length (set r2 i v2) /\
  (forall j, get (set r1 i v1) j <= get (set r2 i v2) j).
Proof. intros [Hl Hle] Hv. apply below_set; auto. Qed.

Lemma bloom_masks_nonneg d w h opts :
  forall j, 0 <= get (snd (bloom_masks d w h opts)) j.
Proof.
  unfold bloom_masks.
  apply (scan_inv (fun st : Float32Array * Float32Array =>
                     forall j, 0 <= get (snd st) j)).
  - simpl. intros j. rewrite get_new. lra.
  - intros x y [lumArray highlightMask] _ _ H. simpl in *.
    apply pointwise_set; auto. apply Math_pow_nonneg.
Qed.

Lemma bloom_combine_nonneg (b1 b2 b3 : list byte) (w h : nat) :
  forall j, 0 <= get (bloom_combine (map byte_to_R b1) (map byte_to_R b2)
                                    (map byte_to_R b3) w h) j.
Proof.
  unfold bloom_combine.
  apply (for_loop_inv (fun r : Float32Array => forall j, 0 <= get r j)).
  - intros j. rewrite get_new. lra.
  - intros i r _ H. apply pointwise_set; auto.
    pose proof (get_bytes_bounds b1 i). pose proof (get_bytes_bounds b2 i).
    pose proof (get_bytes_bounds b3 i). lra.
Qed.

Lemma bloom_crushInfluence_bounds (c1 c2 : list byte) (w h : nat) :
  forall j, 0 <= get (bloom_crushInfluence (map byte_to_R c1)
                                           (map byte_to_R c2) w h) j <= 1.
Proof.
  unfold bloom_crushInfluence.
  apply (for_loop_inv (fun r : Float32Array => forall j, 0 <= get r j <= 1)).
  - intros j. rewrite get_new. lra.
  - intros i r _ H. apply (pointwise_set (fun val => 0 <= val <= 1)); auto.
    pose proof (get_bytes_bounds c1 (i * 4)).
    pose proof (get_bytes_bounds c2 (i * 4)). lra.
Qed.

Lemma Math_pow_unit (x y : R) : 0 <= x <= 1 -> 0 < y -> 0 <= Math_pow x y <= 1.
Proof.
  intros Hx Hy. split; [apply Math_pow_nonneg|].
  unfold Math_pow. destruct (Req_dec_T y 0); [lra|].
  destruct (Rlt_dec 0 x) as [Hpos|]; [|lra].
  unfold Rpower. rewrite <- exp_0.
  destruct (Req_dec_T x 1) as [->|Hne].
  - rewrite ln_1, Rmult_0_r. lra.
  - left. apply exp_increasing.
    assert (Hl : ln x < 0) by (rewrite <- ln_1; apply ln_increasing; lra).
    nra.
Qed.

(** The crush term never lifts a channel by more than half: with
    [t = intensity * shadowCrushStrength], of any sign,
    [0.3 * t * (1 + 0.15 * t * c) >= -0.5] as soon as [c >= 1]. *)
Lemma crush_gain_bound (t c : R) :
  1 <= c -> - 0.5 <= 0.3 * t * (1 + 0.15 * t * c).
Proof.
  intros Hc.
  pose proof (pow2_ge_0 (t + 10 / 3)) as Hsq.
  assert (Ht : 0 <= t * t) by nra.
  assert (Htc : 0 <= t * t * (c - 1)) by (apply Rmult_le_pos; lra).
  nra.
Qed.

Lemma bloom_highlightAmount_nonneg (highlightMask : Float32Array) (w h : nat) :
  (0 < w * h)%nat ->
  (forall j, 0 <= get highlightMask j) ->
  0 <= bloom_highlightAmount highlightMask w h.
Proof.
  intros Hwh Hm. unfold bloom_highlightAmount.
  assert (Hs : 0 <= for_loop (w * h) (fun i s => s + get highlightMask i) 0).
  { apply (for_loop_inv (fun s : R => 0 <= s)); [lra|].
    intros i s _ Hs. specialize (Hm i). lra. }
  apply Rmult_le_pos; [exact Hs|].
  left. apply Rinv_0_lt_compat. apply lt_0_INR. exact Hwh.
Qed.

Lemma bloom_adjusted_below (px c1 c2 : list byte) (lumArray : Float32Array)
      (highlightAmount : R) (w h : nat) (opts : BloomOptions) :
  0 <= intensity opts ->
  5 * intensity opts * (2 - shadowCrushStrength opts) <= 382.5 ->
  0 <= highlightAmount ->
  forall j,
    get (bloom_adjusted (map byte_to_R px) lumArray
           (bloom_crushInfluence (map byte_to_R c1) (map byte_to_R c2) w h)
           highlightAmount w h opts) j <= 382.5.
Proof.
  intros Hi Hlift Hha. unfold bloom_adjusted.
  set (crushInfluence := bloom_crushInfluence _ _ w h).
  apply (scan_inv (fun r : Float32Array => forall j, get r j <= 382.5)).
  - intros j. rewrite get_new. lra.
  - intros x y r _ _ Hr. cbv zeta.
    set (pi := (y * w + x)%nat).
    set (shadowMask := Math_pow (clamp (1 - get lumArray pi / 128) 0 1) 1.5).
    assert (Hsm : 0 <= shadowMask <= 1).
    { apply Math_pow_unit; [|lra]. apply clamp_bounds. lra. }
    pose proof (bloom_crushInfluence_bounds c1 c2 w h pi) as Hc.
    fold crushInfluence in Hc.
    set (factor := 1.0 + 0.15 * intensity opts * shadowCrushStrength opts
                         * (1 + highlightAmount * 2)).
    set (crushAmount := shadowMask * get crushInfluence pi * 0.3
                        * intensity opts * shadowCrushStrength opts * factor).
    assert (Hcr : - 0.5 <= crushAmount).
    { pose proof (crush_gain_bound
                    (intensity opts * shadowCrushStrength opts)
                    (1 + highlightAmount * 2) ltac:(lra)) as HK.
      set (K := 0.3 * (intensity opts * shadowCrushStrength opts)
                * (1 + 0.15 * (intensity opts * shadowCrushStrength opts)
                       * (1 + highlightAmount * 2))) in HK.
      assert (Hm : 0 <= shadowMask * get crushInfluence pi <= 1) by nra.
      replace crushAmount with (shadowMask * get crushInfluence pi * K)
        by (unfold crushAmount, K, factor; nra).
      destruct (Rle_dec 0 K); nra. }
    assert (Hch : forall k,
               get (map byte_to_R px) k * (1 - crushAmount) <= 382.5).
    { intros k. pose proof (get_bytes_bounds px k). nra. }
    repeat match goal with
           | |- forall j, get (set ?X ?i ?v) j <= 382.5 =>
               let HX := fresh "HX" in
               assert (HX : forall j, get X j <= 382.5);
               [|apply (pointwise_set (fun val => val <= 382.5));
                 [exact HX
                 |first [ unfold Math_max; apply Rmax_lub;
                          [apply HX | exact Hlift]
                        | apply Hch | lra ]]]
           end.
    exact Hr.
Qed.

(** The compositing loop is monotone in [bloomStrength], cell by cell. *)
Lemma bloom_composite_mono (adjusted combinedBloom : Float32Array)
      (len w h : nat) (o1 o2 : BloomOptions) :
  intensity o1 = intensity o2 ->
  0 <= intensity o1 ->
  bloomStrength o1 <= bloomStrength o2 ->
  (forall j, get adjusted j <= 382.5) ->
  (forall j, 0 <= get combinedBloom j) ->
  forall j,
    get (bloom_composite adjusted combinedBloom len w h o1) j
    <= get (bloom_composite adjusted combinedBloom len w h o2) j.
Proof.
  intros Ei Hi Hbs Hadj Hcb.
  unfold bloom_composite. rewrite <- Ei.
  set (i := intensity o1) in *.
  set (s1 := bloomStrength o1) in *. set (s2 := bloomStrength o2) in *.
  apply (scan_rel (fun r1 r2 : Float32Array =>
                     List.length r1 = List.length r2 /\
                     forall j, get r1 j <= get r2 j)).
  - split; auto. intros j. lra.
  - intros x y r1 r2 _ _ [Hl Hle]. cbv zeta.
    set (base := ((y * w + x) * 4)%nat).
    assert (Hscreen : forall c,
      (1 - (1 - get adjusted (base + c) / 255)
           * (1 - get combinedBloom (base + c) / 255 * (0.5 * i * s1))) * 255
      + get combinedBloom (base + c) * (0.25 * i * s1)
      <= (1 - (1 - get adjusted (base + c) / 255)
              * (1 - get combinedBloom (base + c) / 255 * (0.5 * i * s2))) * 255
         + get combinedBloom (base + c) * (0.25 * i * s2)).
    { intros c. pose proof (Hadj (base + c)%nat) as Ha.
      pose proof (Hcb (base + c)%nat) as Hc.
      assert (H1 : 0 <= i * (s2 - s1)) by (apply Rmult_le_pos; lra).
      assert (H2 : 0 <= get combinedBloom (base + c) * (i * (s2 - s1)))
        by (apply Rmult_le_pos; assumption).
      assert (H3 : 0 <= (382.5 - get adjusted (base + c))
                        * (get combinedBloom (base + c) * (i * (s2 - s1))))
        by (apply Rmult_le_pos; [lra | assumption]).
      nra. }
    set (bmask := clamp ((get combinedBloom base + get combinedBloom (base + 1)
                          + get combinedBloom (base + 2)) / 765) 0 1).
    assert (Hb : 0 <= bmask) by (apply clamp_bounds; lra).
    assert (Hshift : forall k, 0 <= k -> bmask * k * i * s1 <= bmask * k * i * s2).
    { intros k Hk.
      assert (H1 : 0 <= bmask * k) by (apply Rmult_le_pos; assumption).
      assert (H2 : 0 <= bmask * k * i) by (apply Rmult_le_pos; assumption).
      nra. }
    cbn [for_loop].
    repeat (apply below_chain;
            [|intros Hin;
              first [ apply Hscreen
                    | apply clamp_mono; [lra | apply Hin]
                    | lra
                    | match goal with
                      | |- get _ ?k + _ <= get _ ?k + _ =>
                          pose proof (Hin k);
                          pose proof (Hshift 8 ltac:(lra));
                          pose proof (Hshift 4 ltac:(lra)); lra
                      end ]]).
    split; assumption.
Qed.


Lemma luminance_mono (r1 r2 : Float32Array) (x y w : nat) :
  (forall j, get r1 j <= get r2 j) ->
  luminance r1 x y w <= luminance r2 x y w.
Proof.
  intros H. unfold luminance.
  pose proof (H ((y * w + x) * 4)%nat).
  pose proof (H ((y * w + x) * 4 + 1)%nat).
  pose proof (H ((y * w + x) * 4 + 2)%nat). lra.
Qed.

Lemma bloom_masks_threshold d w h (o1 o2 : BloomOptions) :
  highlightThreshold o1 = highlightThreshold o2 ->
  bloom_masks d w h o1 = bloom_masks d w h o2.
Proof. unfold bloom_masks. intros ->. reflexivity. Qed.

Lemma bloom_adjusted_crush d lumArray crushInfluence ha w h
      (o1 o2 : BloomOptions) :
  intensity o1 = intensity o2 ->
  shadowCrushStrength o1 = shadowCrushStrength o2 ->
  bloom_adjusted d lumArray crushInfluence ha w h o1
  = bloom_adjusted d lumArray crushInfluence ha w h o2.
Proof. unfold bloom_adjusted. intros -> ->. reflexivity. Qed.

(** Rounding to a byte is monotone. *)
Lemma byte_of_Uint8 (z : Z) :
  (0 <= z <= 255)%Z -> byte_to_R (Uint8 z) = IZR z.
Proof.
  intros Hz. unfold byte_to_R, Uint8.
  rewrite Z.mod_small by lia.
  destruct (Byte.of_N (Z.to_N z)) as [b|] eqn:E.
  - apply Byte.to_of_N in E. rewrite E. f_equal. lia.
  - apply Byte.of_N_None_iff in E. lia.
Qed.

Lemma to_Uint8_mono (u v : R) :
  u <= v -> byte_to_R (to_Uint8 u) <= byte_to_R (to_Uint8 v).
Proof.
  intros H. unfold to_Uint8.
  rewrite !byte_of_Uint8 by lia.
  apply IZR_le.
  assert (Math_round u <= Math_round v)%Z
    by (unfold Math_round; apply Zfloor_le; lra).
  lia.
Qed.

Lemma get_rounded (r : Float32Array) (j : nat) :
  (j < List.length r)%nat ->
  get (map byte_to_R (map to_Uint8 r)) j = byte_to_R (to_Uint8 (get r j)).
Proof.
  intros Hj. unfold get. rewrite map_map.
  rewrite (nth_indep _ 0 (byte_to_R (to_Uint8 0)))
    by (rewrite length_map; exact Hj).
  now rewrite (map_nth (fun v => byte_to_R (to_Uint8 v))).
Qed.

Lemma rounded_mono (r1 r2 : Float32Array) :
  List.length r1 = List.length r2 ->
  (forall j, get r1 j <= get r2 j) ->
  forall j, get (map byte_to_R (map to_Uint8 r1)) j
            <= get (map byte_to_R (map to_Uint8 r2)) j.
Proof.
  intros Hl H j. destruct (Nat.lt_ge_cases j (List.length r1)) as [Hj|Hj].
  - rewrite !get_rounded by lia. apply to_Uint8_mono, H.
  - rewrite !get_overflow by (rewrite !length_map; lia). lra.
Qed.

Lemma bloom_composite_length adjusted combinedBloom len w h opts :
  List.length (bloom_composite adjusted combinedBloom len w h opts) = len.
Proof.
  unfold bloom_composite.
  apply (scan_inv (fun r : Float32Array => List.length r = len)).
  - apply new_length.
  - intros x y r _ _ Hr. cbn [for_loop]. now rewrite !set_length.
Qed.

(** The two runs of the bloom stage share every layer but the last loop. *)
Lemma applyBloomEffect_buffer_layers (B : SkiaBackend) (image : SkImage)
      (o1 o2 : BloomOptions) (out1 out2 : PixelData) :
  same_but_bloomStrength o1 o2 ->
  0 <= intensity o1 ->
  5 * intensity o1 * (2 - shadowCrushStrength o1) <= 382.5 ->
  (0 < width image * height image)%nat ->
  applyBloomEffect_buffer B image o1 = Ok out1 ->
  applyBloomEffect_buffer B image o2 = Ok out2 ->
  exists adjusted combinedBloom len,
    (forall j, get adjusted j <= 382.5) /\
    (forall j, 0 <= get combinedBloom j) /\
    data out1 = bloom_composite adjusted combinedBloom len
                                (width image) (height image) o1 /\
    data out2 = bloom_composite adjusted combinedBloom len
                                (width image) (height image) o2 /\
    px_width out1 = width image /\ px_height out1 = height image /\
    px_width out2 = width image /\ px_height out2 = height image.
Proof.
  intros (Ei & Et & Er & Es & Ec) Hi Hlift Hwh E1 E2.
  unfold applyBloomEffect_buffer in E1, E2.
  rewrite <- Ei, <- Er, <- Ec in E2.
  cbn [bind result_Monad ret] in E1, E2.
  destruct (imageToPixels B image) as [px|] eqn:Epx; [|discriminate].
  apply imageToPixels_dims in Epx as (Ed & Ew & Eh).
  rewrite Ed, Ew, Eh in E1, E2.
  rewrite <- (bloom_masks_threshold _ _ _ o1 o2 Et) in E2.
  pose proof (bloom_masks_nonneg (map byte_to_R (pixels image))
                (width image) (height image) o1) as Hhm.
  destruct (bloom_masks _ _ _ o1) as [lumArray highlightMask].
  cbn [snd] in Hhm.
  repeat match type of E1 with
         | context [match ?r with Ok _ => _ | Error _ => _ end] =>
             let x := fresh "v" in
             let E := fresh "Ev" in
             destruct r as [x|] eqn:E; [|discriminate]
         end.
  repeat match goal with
         | H : imageToPixels B _ = Ok _ |- _ =>
             apply imageToPixels_dims in H; destruct H as (? & _ & _)
         end.
  injection E1 as <-. injection E2 as <-.
  cbn [data px_width px_height].
  repeat match goal with
         | H : data ?v = map byte_to_R _ |- _ => rewrite H
         end.
  rewrite <- (bloom_adjusted_crush _ _ _ _ _ _ o1 o2 Ei Es).
  eexists. eexists. eexists.
  split; [|split; [|repeat split; reflexivity]].
  - apply bloom_adjusted_below; auto.
    apply bloom_highlightAmount_nonneg; auto.
  - apply bloom_combine_nonneg.
Qed.

(** C6, as the code has it (monotonic bloom).  For every backend and image,
    and for two parameter sets that differ only in [bloomStrength], with
    [intensity >= 0] and a black lift
    [5 * intensity * (2 - shadowCrushStrength)] of at most 382.5 (one and a
    half times the white level; every intensity of [0,1] with a
    non-negative [shadowCrushStrength] is within it): the larger
    [bloomStrength] gives every pixel, and so every pixel whose highlight
    mask is positive, a luminance at least as large, in the buffer the
    stage computes and in the image it returns. *)
Theorem bloom_monotonic (B : SkiaBackend) (image : SkImage)
        (o1 o2 : BloomOptions) (out1 out2 : PixelData) :
  same_but_bloomStrength o1 o2 ->
  bloomStrength o1 <= bloomStrength o2 ->
  0 <= intensity o1 ->
  5 * intensity o1 * (2 - shadowCrushStrength o1) <= 382.5 ->
  applyBloomEffect_buffer B image o1 = Ok out1 ->
  applyBloomEffect_buffer B image o2 = Ok out2 ->
  forall x y, (x < width image)%nat -> (y < height image)%nat ->
    luminance (data out1) x y (width image)
    <= luminance (data out2) x y (width image) /\
    forall image1 image2,
      applyBloomEffect B image o1 = Ok image1 ->
      applyBloomEffect B image o2 = Ok image2 ->
      luminance (map byte_to_R (pixels image1)) x y (width image)
      <= luminance (map byte_to_R (pixels image2)) x y (width image).
Proof.
  intros Hsame Hbs Hi Hlift E1 E2 x y Hx Hy.
  destruct (applyBloomEffect_buffer_layers B image o1 o2 out1 out2)
    as (adjusted & combined & len & Hadj & Hcb & D1 & D2 & _); auto; [nia|].
  assert (Hle : forall j, get (data out1) j <= get (data out2) j).
  { rewrite D1, D2. apply bloom_composite_mono; auto.
    destruct Hsame as (Ei & _). exact Ei. }
  split; [now apply luminance_mono|].
  intros image1 image2 I1 I2.
  unfold applyBloomEffect in I1, I2. cbn [bind result_Monad] in I1, I2.
  rewrite E1 in I1. rewrite E2 in I2.
  apply pixelsToImage_dims in I1 as (_ & _ & ->).
  apply pixelsToImage_dims in I2 as (_ & _ & ->).
  apply luminance_mono. apply rounded_mono; auto.
  rewrite D1, D2. now rewrite !bloom_composite_length.
Qed.

(** *** The bloom stage on one white pixel *)

Lemma Math_pow_one (y : R) : Math_pow 1 y = 1.
Proof.
  unfold Math_pow. destruct (Req_dec_T y 0); auto.
  destruct (Rlt_dec 0 1); [|lra].
  unfold Rpower. rewrite ln_1, Rmult_0_r. apply exp_0.
Qed.

Lemma Math_pow_zero (y : R) : y <> 0 -> Math_pow 0 y = 0.
Proof.
  intros Hy. unfold Math_pow. destruct (Req_dec_T y 0); [contradiction|].
  destruct (Rlt_dec 0 0); [lra | reflexivity].
Qed.

Lemma applyGaussianBlur_noop (B : SkiaBackend) (image : SkImage) (sigma : R) :
  sigma <= 0 -> applyGaussianBlur B image sigma = Ok image.
Proof.
  intros H. unfold applyGaussianBlur. destruct (Rle_dec sigma 0); tauto.
Qed.

Lemma to_Uint8_255 : to_Uint8 255 = "255"%byte.
Proof.
  unfold to_Uint8. replace (Math_round 255) with 255%Z; [reflexivity|].
  symmetry. unfold Math_round. apply Zfloor_eq. lra.
Qed.

Lemma white_imageToPixels :
  imageToPixels Soft.backend Soft.white1x1
  = Ok {| data := white_pixel; px_width := 1; px_height := 1 |}.
Proof. reflexivity. Qed.

Lemma white_pixelsToImage (d : Float32Array) :
  d = white_pixel -> pixelsToImage Soft.backend d 1 1 = Ok Soft.white1x1.
Proof.
  intros ->. unfold pixelsToImage, white_pixel. cbn [MakeImage_ok Soft.backend map].
  rewrite to_Uint8_255. reflexivity.
Qed.

Lemma white_luminance : luminance white_pixel 0 0 1 = 255.
Proof. unfold luminance, white_pixel, get. simpl. lra. Qed.

Lemma white_masks (o : BloomOptions) :
  highlightThreshold o = 150 ->
  bloom_masks white_pixel 1 1 o = ([255], [1]).
Proof.
  intros Ht. unfold bloom_masks, scan. simpl.
  rewrite white_luminance, Ht.
  rewrite (clamp_id ((255 - 150) / (255 - 150)) 0 1) by lra.
  replace ((255 - 150) / (255 - 150)) with 1 by lra.
  now rewrite Math_pow_one.
Qed.

Lemma white_layer : bloom_layer white_pixel [1] 1 1 = white_pixel.
Proof.
  unfold bloom_layer, scan, white_pixel. simpl. unfold get. simpl.
  repeat f_equal; lra.
Qed.

Lemma white_combine :
  bloom_combine white_pixel white_pixel white_pixel 1 1 = white_pixel.
Proof.
  unfold bloom_combine, white_pixel. simpl. unfold get. simpl.
  repeat f_equal; lra.
Qed.

Lemma white_hmRGBA : bloom_hmRGBA [1] 1 1 = white_pixel.
Proof.
  unfold bloom_hmRGBA, white_pixel. simpl. unfold get. simpl.
  repeat f_equal; lra.
Qed.

Lemma white_crushInfluence :
  bloom_crushInfluence white_pixel white_pixel 1 1 = [1].
Proof.
  unfold bloom_crushInfluence, white_pixel. simpl. unfold get. simpl.
  repeat f_equal; lra.
Qed.

Lemma white_highlightAmount : bloom_highlightAmount [1] 1 1 = 1.
Proof. unfold bloom_highlightAmount. simpl. unfold get. simpl. lra. Qed.

Lemma white_adjusted (i bs : R) :
  bloom_adjusted white_pixel [255] [1] 1 1 1 (bloom_params i bs)
  = [Math_max 255 (10 * i); Math_max 255 (10 * i); Math_max 255 (10 * i); 255].
Proof.
  unfold bloom_adjusted, scan, white_pixel. simpl.
  unfold get. simpl.
  replace (clamp (1 - 255 / 128) 0 1) with 0.
  2:{ unfold clamp. destruct (Rlt_dec (1 - 255 / 128) 0); lra. }
  rewrite Math_pow_zero by lra.
  unfold Math_max.
  repeat (apply f_equal2; [apply f_equal2; lra|]).
  reflexivity.
Qed.

Lemma white_bloom_buffer (i bs : R) :
  applyBloomEffect_buffer Soft.backend Soft.white1x1 (bloom_params i bs)
  = Ok {| data :=
            bloom_composite
              [Math_max 255 (10 * i); Math_max 255 (10 * i);
               Math_max 255 (10 * i); 255]
              white_pixel 4 1 1 (bloom_params i bs);
          px_width := 1; px_height := 1 |}.
Proof.
  unfold applyBloomEffect_buffer.
  rewrite white_imageToPixels. cbn [bind result_Monad ret].
  cbn [data px_width px_height].
  rewrite white_masks by reflexivity.
  rewrite white_layer.
  rewrite (white_pixelsToImage white_pixel) by reflexivity.
  cbn [bloom_params intensity bloomRadius shadowCrushRadius].
  rewrite !applyGaussianBlur_noop by (unfold pilRadiusToSigma; lra).
  rewrite white_imageToPixels. cbn [data].
  rewrite white_combine, white_hmRGBA.
  rewrite (white_pixelsToImage white_pixel) by reflexivity.
  rewrite !applyGaussianBlur_noop by (unfold pilRadiusToSigma; lra).
  rewrite white_imageToPixels. cbn [data].
  rewrite white_crushInfluence, white_highlightAmount.
  fold (bloom_params i bs).
  rewrite white_adjusted.
  reflexivity.
Qed.

Lemma white_composite (a i bs : R) :
  let r := bloom_composite [a; a; a; 255] white_pixel 4 1 1
                           (bloom_params i bs) in
  let raw := (1 - (1 - a / 255) * (1 - 0.5 * i * bs)) * 255
             + 255 * (0.25 * i * bs) in
  get r 0 = clamp (raw + 8 * i * bs) 0 255 /\
  get r 1 = clamp raw 0 255 /\
  get r 2 = clamp (raw + 4 * i * bs) 0 255.
Proof.
  unfold bloom_composite, scan, white_pixel. simpl. unfold get. simpl.
  rewrite (clamp_id ((255 + 255 + 255) / 765) 0 1) by lra.
  repeat split; f_equal; lra.
Qed.

Lemma clamp_above (v lo hi : R) : lo <= hi -> hi <= v -> clamp v lo hi = hi.
Proof.
  intros H Hv. unfold clamp.
  destruct (Rlt_dec v lo); [lra|]. destruct (Rgt_dec v hi); lra.
Qed.

(** On one opaque-white pixel, whose highlight mask is 1, with no blur
    radius.  At intensity -1 the stage returns luminance 255 for
    [bloomStrength = 0] and less than 189 for [bloomStrength = 1].  At
    intensity 100, where the black lift is 1000, it returns luminance 255
    for [bloomStrength = 0] and less than 83 for [bloomStrength = 0.03].
    In both cases the larger [bloomStrength] gives the smaller luminance. *)
Lemma bloom_monotonic_counterexample :
  (exists out0 out1,
     applyBloomEffect_buffer Soft.backend Soft.white1x1 (bloom_params (-1) 0)
     = Ok out0 /\
     applyBloomEffect_buffer Soft.backend Soft.white1x1 (bloom_params (-1) 1)
     = Ok out1 /\
     same_but_bloomStrength (bloom_params (-1) 0) (bloom_params (-1) 1) /\
     bloomStrength (bloom_params (-1) 0) <= bloomStrength (bloom_params (-1) 1) /\
     0 < get (snd (bloom_masks white_pixel 1 1 (bloom_params (-1) 0))) 0 /\
     luminance (data out0) 0 0 1 = 255 /\
     luminance (data out1) 0 0 1 < 189 /\
     ~ luminance (data out0) 0 0 1 <= luminance (data out1) 0 0 1) /\
  (exists out0 out1,
     applyBloomEffect_buffer Soft.backend Soft.white1x1 (bloom_params 100 0)
     = Ok out0 /\
     applyBloomEffect_buffer Soft.backend Soft.white1x1 (bloom_params 100 0.03)
     = Ok out1 /\
     same_but_bloomStrength (bloom_params 100 0) (bloom_params 100 0.03) /\
     bloomStrength (bloom_params 100 0) <= bloomStrength (bloom_params 100 0.03) /\
     0 < get (snd (bloom_masks white_pixel 1 1 (bloom_params 100 0))) 0 /\
     luminance (data out0) 0 0 1 = 255 /\
     luminance (data out1) 0 0 1 < 83 /\
     ~ luminance (data out0) 0 0 1 <= luminance (data out1) 0 0 1).
Proof.
  split.
  - eexists. eexists.
    split; [apply white_bloom_buffer|].
    split; [apply white_bloom_buffer|].
    split; [repeat split|].
    split; [simpl; lra|].
    split; [rewrite white_masks by reflexivity; simpl; unfold get; simpl; lra|].
    cbn [data]. unfold luminance. cbn [Nat.mul Nat.add].
    replace (Math_max 255 (10 * -1)) with 255
      by (unfold Math_max; rewrite Rmax_left; lra).
    destruct (white_composite 255 (-1) 0) as (R0 & G0 & B0).
    destruct (white_composite 255 (-1) 1) as (R1 & G1 & B1).
    rewrite R0, G0, B0, R1, G1, B1.
    rewrite !clamp_id by lra. repeat split; lra.
  - eexists. eexists.
    split; [apply white_bloom_buffer|].
    split; [apply white_bloom_buffer|].
    split; [repeat split|].
    split; [simpl; lra|].
    split; [rewrite white_masks by reflexivity; simpl; unfold get; simpl; lra|].
    cbn [data]. unfold luminance. cbn [Nat.mul Nat.add].
    replace (Math_max 255 (10 * 100)) with 1000
      by (unfold Math_max; rewrite Rmax_right; lra).
    destruct (white_composite 1000 100 0) as (R0 & G0 & B0).
    destruct (white_composite 1000 100 0.03) as (R1 & G1 & B1).
    rewrite R0, G0, B0, R1, G1, B1.
    rewrite !(clamp_above _ 0 255) by lra.
    rewrite !clamp_id by lra. repeat split; lra.
Qed.

Lemma applyBloomEffect_buffer_ok (B : SkiaBackend) (image : SkImage)
      (opts : BloomOptions) :
  reliable B -> (0 < width image)%nat -> (0 < height image)%nat ->
  exists out, applyBloomEffect_buffer B image opts = Ok out.
Proof.
  intros HB Hw Hh.
  destruct (applyBloomEffect_ok B HB image opts Hw Hh) as (im & E & _).
  unfold applyBloomEffect in E. cbn [bind result_Monad] in E.
  destruct (applyBloomEffect_buffer B image opts) as [out|]; [eauto|].
  discriminate.
Qed.

(** The parameters the pipeline derives for intensity 0.5, and the same
    with [bloomStrength] raised to 1, on the 2x1 edge image. *)
Lemma bloom_monotonic_witness :
  let o1 := pipeline_bloomOptions 0.5 in
  let o2 := {| intensity := 0.8; highlightThreshold := 150;
               bloomStrength := 1; bloomRadius := 0.5 * 0.01;
               shadowCrushStrength := 0.5 * 0.5;
               shadowCrushRadius := 0.5 * 0.001 |} in
  exists out1 out2,
    applyBloomEffect_buffer Soft.backend Soft.edge2x1 o1 = Ok out1 /\
    applyBloomEffect_buffer Soft.backend Soft.edge2x1 o2 = Ok out2 /\
    luminance (data out1) 1 0 2 <= luminance (data out2) 1 0 2.
Proof.
  intros o1 o2.
  destruct (applyBloomEffect_buffer_ok Soft.backend Soft.edge2x1 o1
              Soft_backend_reliable) as (out1 & E1); simpl; try lia.
  destruct (applyBloomEffect_buffer_ok Soft.backend Soft.edge2x1 o2
              Soft_backend_reliable) as (out2 & E2); simpl; try lia.
  exists out1, out2. split; [exact E1|]. split; [exact E2|].
  refine (proj1 (bloom_monotonic Soft.backend Soft.edge2x1 o1 o2 out1 out2
                   _ _ _ _ E1 E2 1%nat 0%nat _ _)).
  - repeat split.
  - simpl. lra.
  - simpl. lra.
  - simpl. lra.
  - simpl. lia.
  - simpl. lia.
Defined.

(* ------------------------------------------------------------------------- *)
(** ** Two successive runs of the pipeline *)

(** The stages keep the number of cells of the buffer. *)
Lemma scan_set_length (L w h : nat)
      (body : nat -> nat -> Float32Array -> Float32Array) (d : Float32Array) :
  List.length d = L ->
  (forall x y a, List.length a = L -> List.length (body x y a) = L) ->
  List.length (scan w h body d) = L.
Proof.
  intros Hd Hb. apply (scan_inv (fun a : Float32Array => List.length a = L));
    auto.
Qed.

Lemma applyCoolCast_length d w h i :
  List.length (applyCoolCast d w h i) = List.length d.
Proof.
  unfold applyCoolCast. apply scan_set_length; auto.
  intros x y a Ha. now rewrite !set_length.
Qed.

Lemma adjustSaturation_length d w h f :
  List.length (adjustSaturation d w h f) = List.length d.
Proof.
  unfold adjustSaturation. apply scan_set_length; auto.
  intros x y a Ha. now rewrite !set_length.
Qed.

Lemma adjustVibrance_length d w h f :
  List.length (adjustVibrance d w h f) = List.length d.
Proof.
  unfold adjustVibrance. destruct (Req_dec_T f 1.0); auto.
  apply scan_set_length; auto.
  intros x y a Ha. now rewrite !set_length.
Qed.

Lemma reduceDynamicRange_length d w h i :
  List.length (reduceDynamicRange d w h i) = List.length d.
Proof.
  unfold reduceDynamicRange.
  apply (for_loop_inv (fun a : Float32Array => List.length a = List.length d));
    auto.
  intros k a _ Ha. destruct (k mod 4 =? 3)%nat; rewrite ?set_length; auto.
Qed.

Lemma pipeline_colorGrade_length px i :
  List.length (pipeline_colorGrade px i) = List.length (data px).
Proof.
  unfold pipeline_colorGrade.
  now rewrite reduceDynamicRange_length, adjustVibrance_length,
    adjustSaturation_length, applyCoolCast_length.
Qed.

Lemma localContrast_apply_length d lumData blurred w h amount :
  List.length (localContrast_apply d lumData blurred w h amount)
  = List.length d.
Proof.
  unfold localContrast_apply. apply scan_set_length; auto.
  intros x y a Ha. now rewrite !set_length.
Qed.

Lemma addChromaticAberration_length d w h i :
  List.length (addChromaticAberration d w h i) = List.length d.
Proof.
  unfold addChromaticAberration.
  destruct (Math_floor (2 * i) <? 1)%Z; auto.
  apply scan_set_length; auto.
  intros x y a Ha.
  repeat match goal with
         | |- context [if ?c then _ else _] => destruct c
         end; rewrite ?set_length; auto.
Qed.

Lemma sharpen_loop_length origPx blurPx amount :
  List.length (sharpen_loop origPx blurPx amount) = List.length origPx.
Proof.
  unfold sharpen_loop.
  apply (for_loop_inv
           (fun a : Float32Array => List.length a = List.length origPx)); auto.
  intros k a _ Ha. destruct (k mod 4 =? 3)%nat; rewrite ?set_length; auto.
Qed.

(** Runs a computation in [result] one call at a time, keeping the case
    where every call succeeds. *)
Ltac run_result E :=
  repeat (cbn [bind result_Monad ret data px_width px_height] in E;
          match type of E with
          | context [match ?r with Ok _ => _ | Error _ => _ end] =>
              lazymatch r with
              | Ok _ => fail
              | Error _ => fail
              | context [match _ with Ok _ => _ | Error _ => _ end] => fail
              | _ => destruct r; [|discriminate]
              end
          end);
  cbn [bind result_Monad ret data px_width px_height] in E.

Section PixelCount.

Variable B : SkiaBackend.

Lemma pixelsToImage_count d w h image :
  pixelsToImage B d w h = Ok image ->
  List.length (pixels image) = List.length d.
Proof.
  intros E. apply pixelsToImage_dims in E as (_ & _ & ->).
  apply length_map.
Qed.

Lemma imageToPixels_count image px :
  imageToPixels B image = Ok px ->
  List.length (data px) = List.length (pixels image).
Proof.
  intros E. apply imageToPixels_dims in E as (-> & _ & _).
  apply length_map.
Qed.

Lemma reduceLocalContrast_count image amount windowSize out :
  reduceLocalContrast B image amount windowSize = Ok out ->
  List.length (pixels out) = List.length (pixels image).
Proof.
  unfold reduceLocalContrast, reduceLocalContrast_buffer. intros E.
  destruct (imageToPixels B image) as [px|] eqn:Epx; [|discriminate].
  run_result E.
  apply pixelsToImage_count in E. rewrite E, localContrast_apply_length.
  now apply imageToPixels_count.
Qed.

Lemma applyBloomEffect_count image opts out :
  applyBloomEffect B image opts = Ok out ->
  List.length (pixels out) = List.length (pixels image).
Proof.
  unfold applyBloomEffect, applyBloomEffect_buffer. intros E.
  destruct (imageToPixels B image) as [px|] eqn:Epx; [|discriminate].
  cbn [bind result_Monad ret] in E.
  destruct (bloom_masks _ _ _ _) as [lumArray highlightMask].
  run_result E.
  apply pixelsToImage_count in E. rewrite E, bloom_composite_length.
  now apply imageToPixels_count.
Qed.

Lemma applyOversharpening_count image i out :
  applyOversharpening B image i = Ok out ->
  List.length (pixels out) = List.length (pixels image).
Proof.
  unfold applyOversharpening, applyOversharpening_buffer. intros E.
  cbn [bind result_Monad ret] in E.
  destruct (applyGaussianBlur B image _) as [blurred|]; [|discriminate].
  destruct (imageToPixels B image) as [px|] eqn:Epx; [|discriminate].
  run_result E.
  apply pixelsToImage_count in E. rewrite E, sharpen_loop_length.
  now apply imageToPixels_count.
Qed.

Hypothesis HB : reliable B.

(** Everything before the noise stage is the same on every tape: the
    pipeline is the noise stage on a fixed image, then the distortion. *)
Lemma pipeline_stages_noise sourceImage i :
  (0 < width sourceImage)%nat -> (0 < height sourceImage)%nat ->
  (Z.of_nat (width sourceImage) * Z.of_nat (height sourceImage) <= 2000000)%Z ->
  exists image,
    List.length (pixels image) = List.length (pixels sourceImage) /\
    forall t,
      pipeline_stages B sourceImage i t
      = bind (addDigitalNoise (map byte_to_R (pixels image))
                              (width sourceImage) (height sourceImage) i)
             (fun d =>
                lift (pixelsToImage B
                        (applyBarrelDistortion d (width sourceImage)
                                               (height sourceImage) i)
                        (width sourceImage) (height sourceImage))) t.
Proof.
  intros Hw Hh Hsmall.
  set (px0 := {| data := map byte_to_R (pixels sourceImage);
                 px_width := width sourceImage;
                 px_height := height sourceImage |}).
  set (im0 := {| width := width sourceImage; height := height sourceImage;
                 pixels := map to_Uint8 (pipeline_colorGrade px0 i) |}).
  destruct (reduceLocalContrast_ok B HB im0 (i * 1.0) 5)
    as (im1 & E1 & Ew1 & Eh1); [exact Hw | exact Hh |].
  pose proof (reduceLocalContrast_count _ _ _ _ E1) as L1.
  cbn [width height pixels im0] in Ew1, Eh1, L1.
  rewrite length_map, pipeline_colorGrade_length in L1.
  cbn [data px0] in L1. rewrite length_map in L1.
  destruct (applyBloomEffect_ok B HB im1 (pipeline_bloomOptions i))
    as (im2 & E2 & Ew2 & Eh2); [lia | lia |].
  pose proof (applyBloomEffect_count _ _ _ E2) as L2.
  set (im2c := {| width := width im2; height := height im2;
                  pixels := map to_Uint8
                              (addChromaticAberration
                                 (map byte_to_R (pixels im2))
                                 (width im2) (height im2) i) |}).
  destruct (applyOversharpening_ok B HB im2c (i * 1.3))
    as (im3 & E3 & Ew3 & Eh3); [simpl; lia | simpl; lia |].
  pose proof (applyOversharpening_count _ _ _ E3) as L3.
  cbn [width height pixels im2c] in Ew3, Eh3, L3.
  rewrite length_map, addChromaticAberration_length, length_map in L3.
  exists im3. split; [congruence|].
  intros t.
  unfold pipeline_stages, pipeline_reduceResolution, reduceResolution,
    pipeline_oversharpening.
  apply Z.leb_le in Hsmall. rewrite Hsmall.
  rewrite (bind_Returns _ _ _ _ _ (lift_Ok _ _ _ eq_refl)).
  rewrite (bind_Returns _ _ _ _ _ (lift_Ok _ _ _ (imageToPixels_ok B HB _))).
  fold px0. cbn [px_width px_height px0].
  rewrite (bind_Returns _ _ _ _ _ (lift_Ok _ _ _ (pixelsToImage_ok B HB _ _ _))).
  fold px0 im0.
  rewrite (bind_Returns _ _ _ _ _ (lift_Ok _ _ _ E1)).
  rewrite (bind_Returns _ _ _ _ _ (lift_Ok _ _ _ E2)).
  rewrite (bind_Returns _ _ _ _ _ (lift_Ok _ _ _ (imageToPixels_ok B HB _))).
  cbn [data px_width px_height].
  rewrite (bind_Returns _ _ _ _ _ (lift_Ok _ _ _ (pixelsToImage_ok B HB _ _ _))).
  fold im2c.
  rewrite (bind_Returns _ _ _ _ _ (lift_Ok _ _ _ E3)).
  rewrite (bind_Returns _ _ _ _ _ (lift_Ok _ _ _ (imageToPixels_ok B HB _))).
  cbn [data px_width px_height].
  rewrite Ew3, Ew2, Ew1, Eh3, Eh2, Eh1. reflexivity.
Qed.

End PixelCount.

(** The distortion of a single pixel copies it. *)
Lemma clampZ_0_0 (v : Z) : clampZ v 0 0 = 0%Z.
Proof.
  unfold clampZ. destruct (v <? 0)%Z eqn:E1; auto.
  destruct (v >? 0)%Z eqn:E2; auto. lia.
Qed.

Lemma applyBarrelDistortion_1x1 (d : Float32Array) (i : R) :
  List.length d = 4%nat ->
  applyBarrelDistortion d 1 1 i = [get d 0; get d 1; get d 2; 255].
Proof.
  intros Hd. unfold applyBarrelDistortion. rewrite Hd.
  unfold scan, for_step4.
  cbn [new_Float32Array repeat List.length Nat.add Nat.sub Nat.div Nat.divmod
       fst snd for_loop Nat.mul Z.of_nat Pos.of_succ_nat Z.sub Z.add Z.opp
       Z.pos_sub].
  rewrite !clampZ_0_0. reflexivity.
Qed.

(** Rounding to a byte keeps values that are a unit apart different. *)
Lemma to_Uint8_apart (u v : R) :
  0 <= u -> v <= 255 -> u + 1 <= v ->
  byte_to_R (to_Uint8 u) < byte_to_R (to_Uint8 v).
Proof.
  intros Hu Hv Huv. unfold to_Uint8.
  rewrite !byte_of_Uint8 by lia.
  apply IZR_lt.
  pose proof (Zfloor_bound (u + 0.5)) as [Hu1 Hu2].
  pose proof (Zfloor_bound (v + 0.5)) as [Hv1 Hv2].
  fold (Math_round u) in Hu1, Hu2. fold (Math_round v) in Hv1, Hv2.
  assert (H1 : (Math_round u < Math_round v)%Z) by (apply lt_IZR; lra).
  assert (H2 : (-1 < Math_round u)%Z) by (apply lt_IZR; lra).
  assert (H3 : (Math_round v <= 255)%Z) by (apply Math_round_le; lra).
  lia.
Qed.

(** The draws of the two runs: a normal sample of -4, then one of 2. *)
Lemma normal_minus_four :
  Math_sqrt (-2.0 * ln (exp (-8))) * cos (2.0 * PI * (1 / 2)) = -4.
Proof.
  rewrite ln_exp. replace (2.0 * PI * (1 / 2)) with PI by lra.
  rewrite cos_PI. unfold Math_sqrt.
  replace (-2.0 * -8) with (4 * 4) by lra. rewrite sqrt_square; lra.
Qed.

Lemma normal_two :
  Math_sqrt (-2.0 * ln (exp (-8))) * cos (2.0 * PI * (1 / 6)) = 2.
Proof.
  rewrite ln_exp. replace (2.0 * PI * (1 / 6)) with (PI / 3) by lra.
  rewrite cos_PI3. unfold Math_sqrt.
  replace (-2.0 * -8) with (4 * 4) by lra. rewrite sqrt_square; lra.
Qed.

(** The noise stage moves the first channel of any pixel by at least 12
    between the two samples. *)
Lemma noise_apart (x lum : R) :
  0 <= x <= 255 -> 0 <= lum <= 255 ->
  let weight := 0.5 + (1 - lum / 255) * 0.5 in
  let a := clamp (x + -4 * (12 * 1.0) * weight) 0 255 in
  let b := clamp (x + 2 * (12 * 1.0) * weight) 0 255 in
  0 <= a /\ b <= 255 /\ a + 1 <= b.
Proof.
  intros Hx Hl weight a b.
  assert (Hw : 0.5 <= weight <= 1) by (unfold weight; lra).
  unfold a, b, clamp.
  repeat match goal with
         | |- context [Rlt_dec ?p ?q] => destruct (Rlt_dec p q)
         | |- context [Rgt_dec ?p ?q] => destruct (Rgt_dec p q)
         end; lra.
Qed.

(** The last steps on the software backend without the date stamp. *)
Lemma Soft_finish_1x1 (d : Float32Array) (intensity : R) (t : tape) :
  List.length d = 4%nat ->
  let image := {| width := 1; height := 1; pixels := map to_Uint8 d |} in
  pipeline_finish Soft.backend (applyJpegArtifacts Soft.backend image intensity)
                  1 1 false None t
  = Returns {| width := 1; height := 1; pixels := map to_Uint8 d |} t.
Proof.
  intros Hd image.
  destruct d as [|c0 [|c1 [|c2 [|c3 [|]]]]]; try discriminate.
  reflexivity.
Qed.

(** A run on the 1x1 gray image without the date stamp: the buffer [d]
    that reaches the noise stage is the same on every tape, and the image
    returned is the noisy pixel rounded to bytes. *)
Lemma Soft_gray_run :
  exists d : Float32Array,
    List.length d = 4%nat /\ in_range d /\
    forall u1 v1 u2 v2 u3 v3 rest,
      u1 <> 0 -> v1 <> 0 -> u2 <> 0 -> v2 <> 0 -> u3 <> 0 -> v3 <> 0 ->
      let weight := 0.5 + (1 - luminance d 0 0 1 / 255) * 0.5 in
      let noise u v :=
        Math_sqrt (-2.0 * ln u) * cos (2.0 * PI * v) * (12 * 1.0) in
      let d1 := set d 0 (clamp (get d 0 + noise u1 v1 * weight) 0 255) in
      let d2 := set d1 1 (clamp (get d1 1 + noise u2 v2 * weight) 0 255) in
      let d3 := set d2 2 (clamp (get d2 2 + noise u3 v3 * weight) 0 255) in
      applyY2KCameraEffect Soft.backend Soft.gray1x1 Soft.no_stamp
                           (u1 :: v1 :: u2 :: v2 :: u3 :: v3 :: rest)
      = Returns {| width := 1; height := 1;
                   pixels := map to_Uint8 [get d3 0; get d3 1; get d3 2; 255] |}
                rest.
Proof.
  destruct (pipeline_stages_noise Soft.backend Soft_backend_reliable
              Soft.gray1x1 1.0) as (image & L & H);
    [simpl; lia | simpl; lia | simpl; lia |].
  exists (map byte_to_R (pixels image)).
  split; [rewrite length_map; exact L|].
  split; [apply in_range_bytes|].
  intros u1 v1 u2 v2 u3 v3 rest H1 H2 H3 H4 H5 H6 weight noise d1 d2 d3.
  assert (L3 : List.length d3 = 4%nat).
  { unfold d3, d2, d1. rewrite !set_length, length_map. exact L. }
  unfold applyY2KCameraEffect. cbv zeta.
  cbn [default opt_intensity opt_addDateStamp opt_dateStampText
       opt_outputQuality Soft.no_stamp].
  assert (E : pipeline_stages Soft.backend Soft.gray1x1 1.0
                (u1 :: v1 :: u2 :: v2 :: u3 :: v3 :: rest)
              = Returns {| width := 1; height := 1;
                           pixels := map to_Uint8
                                       [get d3 0; get d3 1; get d3 2; 255] |}
                        rest).
  { rewrite H. cbn [width height Soft.gray1x1].
    rewrite (bind_Returns _ _ _ _ _
               (addDigitalNoise_1x1 _ 1.0 u1 v1 u2 v2 u3 v3 rest
                                    H1 H2 H3 H4 H5 H6)).
    fold weight. fold (noise u1 v1). fold d1.
    fold (noise u2 v2). fold d2. fold (noise u3 v3). fold d3.
    rewrite (applyBarrelDistortion_1x1 d3 1.0 L3). reflexivity. }
  rewrite (bind_Returns _ _ _ _ _ E).
  cbn [width height Soft.gray1x1].
  apply (Soft_finish_1x1 [get d3 0; get d3 1; get d3 2; 255] 1.0 rest).
  reflexivity.
Qed.

Lemma first_byte (a b c e : R) :
  get (map byte_to_R (map to_Uint8 [a; b; c; e])) 0 = byte_to_R (to_Uint8 a).
Proof. reflexivity. Qed.

(** Two successive runs of the pipeline on the same 1x1 image with the
    same options.  The first sees draws that make the normal sample -4,
    the second draws that make it 2: the red byte of the first output is
    smaller than the red byte of the second, so the two outputs are not
    byte-identical.  No argument of [applyY2KCameraEffect] tells the two
    runs apart: the effect takes an image and the options, and no random
    source. *)
Lemma applyY2KCameraEffect_counterexample :
  let u := exp (-8) in
  let t := [u; 1 / 2; u; 1 / 2; u; 1 / 2; u; 1 / 6; u; 1 / 6; u; 1 / 6] in
  unit_tape t /\
  exists out1 rest1 out2 rest2,
    applyY2KCameraEffect Soft.backend Soft.gray1x1 Soft.no_stamp t
    = Returns out1 rest1 /\
    applyY2KCameraEffect Soft.backend Soft.gray1x1 Soft.no_stamp rest1
    = Returns out2 rest2 /\
    get (map byte_to_R (pixels out1)) 0 < get (map byte_to_R (pixels out2)) 0 /\
    pixels out1 <> pixels out2.
Proof.
  intros u t.
  assert (Hu : 0 < u < 1).
  { unfold u. split; [apply exp_pos|].
    rewrite <- exp_0. apply exp_increasing. lra. }
  split.
  { unfold unit_tape, t. repeat (apply Forall_cons; [lra|]). apply Forall_nil. }
  destruct Soft_gray_run as (d & L & Hr & H).
  pose proof (H u (1 / 2) u (1 / 2) u (1 / 2)
                [u; 1 / 6; u; 1 / 6; u; 1 / 6]
                ltac:(lra) ltac:(lra) ltac:(lra) ltac:(lra) ltac:(lra)
                ltac:(lra)) as E1.
  pose proof (H u (1 / 6) u (1 / 6) u (1 / 6) []
                ltac:(lra) ltac:(lra) ltac:(lra) ltac:(lra) ltac:(lra)
                ltac:(lra)) as E2.
  cbv beta zeta in E1, E2.
  do 4 eexists. split; [exact E1|]. split; [exact E2|].
  cbn [pixels].
  match goal with
  | |- ?a < ?b /\ _ => assert (Hred : a < b)
  end.
  { assert (G : forall a b c : R,
               get (set (set (set d 0 a) 1 b) 2 c) 0 = a).
    { intros a b c. rewrite !get_set_other by lia.
      apply get_set_same. lia. }
    rewrite !first_byte, !G.
    assert (Hx : 0 <= get d 0 <= 255) by now apply in_range_at.
    assert (Hl : 0 <= luminance d 0 0 1 <= 255).
    { unfold luminance.
      pose proof (in_range_at d ((0 * 1 + 0) * 4) Hr).
      pose proof (in_range_at d ((0 * 1 + 0) * 4 + 1) Hr).
      pose proof (in_range_at d ((0 * 1 + 0) * 4 + 2) Hr). lra. }
    unfold u. rewrite normal_minus_four, normal_two.
    destruct (noise_apart (get d 0) (luminance d 0 0 1) Hx Hl)
      as (Ha & Hb & Hab).
    exact (to_Uint8_apart _ _ Ha Hb Hab). }
  split; [exact Hred|].
  intros Heq. rewrite Heq in Hred. lra.
Qed.

(* ------------------------------------------------------------------------- *)
(** ** Pixel by pixel: scans that work on one RGBA pixel at a time *)

(** A scan whose step at [(x, y)] writes only the four cells of that pixel
    and reads the buffer it mutates only there: afterwards every pixel holds
    what its own step makes of the initial buffer. *)
Lemma scan_pixelwise (w h : nat)
      (body : nat -> nat -> Float32Array -> Float32Array) (d0 : Float32Array) :
  (forall x y d, List.length (body x y d) = List.length d) ->
  (forall x y d j, (x < w)%nat -> (y < h)%nat ->
                   (j < (y * w + x) * 4 \/ (y * w + x) * 4 + 4 <= j)%nat ->
                   get (body x y d) j = get d j) ->
  (forall x y d d' c, (x < w)%nat -> (y < h)%nat ->
                      List.length d = List.length d' ->
                      (forall c', (c' < 4)%nat ->
                                  get d ((y * w + x) * 4 + c')
                                  = get d' ((y * w + x) * 4 + c')) ->
                      (c < 4)%nat ->
                      get (body x y d) ((y * w + x) * 4 + c)
                      = get (body x y d') ((y * w + x) * 4 + c)) ->
  (forall x y c, (x < w)%nat -> (y < h)%nat -> (c < 4)%nat ->
                 get (scan w h body d0) ((y * w + x) * 4 + c)
                 = get (body x y d0) ((y * w + x) * 4 + c)) /\
  (forall j, (w * h * 4 <= j)%nat -> get (scan w h body d0) j = get d0 j) /\
  List.length (scan w h body d0) = List.length d0.
Proof.
  intros Hlen Hframe Hlocal. rewrite scan_flat.
  destruct (for_loop_block 4 (h * w) (List.length d0)
              (fun p => body (p mod w)%nat (p / w)%nat) d0 eq_refl)
    as (H1 & H2 & H3).
  - intros p d _ Hd. now rewrite Hlen.
  - intros p d j Hp Hd Hj.
    destruct (pixel_of_index w h p Hp) as (Hx & Hy & E).
    apply Hframe; auto. rewrite E. lia.
  - intros p d d' c Hp Hd Hd' Hagree Hc.
    destruct (pixel_of_index w h p Hp) as (Hx & Hy & E).
    replace (4 * p + c)%nat
      with ((p / w * w + p mod w) * 4 + c)%nat by (rewrite E; lia).
    apply Hlocal; auto; [congruence|].
    intros c' Hc'. rewrite E.
    replace (p * 4 + c')%nat with (4 * p + c')%nat by lia. now apply Hagree.
  - repeat split; auto.
    + intros x y c Hx Hy Hc.
      destruct (index_of_pixel w x y Hx) as (Em & Ed).
      assert (Hp : (y * w + x < h * w)%nat) by nia.
      specialize (H1 (y * w + x)%nat c Hp Hc). cbv beta in H1.
      rewrite Em, Ed in H1.
      replace ((y * w + x) * 4 + c)%nat with (4 * (y * w + x) + c)%nat by lia.
      exact H1.
    + intros j Hj. apply H2. lia.
Qed.

(** Reads after the writes of one step. *)
Ltac cells :=
  repeat first
    [ rewrite get_set_other by lia
    | rewrite get_set_same by (rewrite ?set_length; lia) ].

(** Discharges the three conditions of [scan_pixelwise] for a step made of
    writes to the cells of its own pixel. *)
Ltac pixel_step :=
  match goal with
  | |- forall x y d, List.length _ = List.length d =>
      intros; cbv zeta; rewrite ?set_length; reflexivity
  | |- forall x y d j, _ -> _ -> _ \/ _ -> _ =>
      intros; cbv zeta; cells; reflexivity
  | |- forall x y d d' c, _ =>
      let Hl := fresh "Hl" in
      let Hag := fresh "Hag" in
      let Hc := fresh "Hc" in
      intros ? ? ? ? ? _ _ Hl Hag Hc;
      pose proof (Hag _ Hc);
      pose proof (Hag 0%nat ltac:(lia));
      pose proof (Hag 1%nat ltac:(lia));
      pose proof (Hag 2%nat ltac:(lia));
      pose proof (Hag 3%nat ltac:(lia));
      rewrite ?Nat.add_0_r in *;
      cbv zeta; rewrite ?get_set, ?set_length;
      repeat match goal with
             | E : get _ _ = get _ _ |- _ => rewrite E; clear E
             end;
      rewrite ?Hl; reflexivity
  end.

Section CoolCast.

Variables (d : Float32Array) (w h : nat) (intensity : R).
Hypothesis Hd : buffer_of w h d.

Lemma applyCoolCast_pixel (x y : nat) :
  (x < w)%nat -> (y < h)%nat ->
  let out := applyCoolCast d w h intensity in
  get out (idx x y w 0) = clamp (get d (idx x y w 0) * (1.0 - 0.06 * intensity)) 0 255 /\
  get out (idx x y w 1) = clamp (get d (idx x y w 1) * (1.0 + 0.02 * intensity)) 0 255 /\
  get out (idx x y w 2) = clamp (get d (idx x y w 2) * (1.0 + 0.08 * intensity)) 0 255 /\
  get out (idx x y w 3) = get d (idx x y w 3).
Proof.
  intros Hx Hy out. unfold out, applyCoolCast, idx. cbv zeta.
  match goal with
  | |- context [scan w h ?body d] =>
      destruct (scan_pixelwise w h body d) as (H1 & _ & _);
        [pixel_step | pixel_step | pixel_step |]
  end.
  assert (Hb : ((y * w + x) * 4 + 3 < List.length d)%nat)
    by (unfold buffer_of in Hd; rewrite Hd; nia).
  rewrite !H1 by (auto; lia). rewrite !Nat.add_0_r.
  cells. auto.
Qed.

End CoolCast.

(** Every cell of a [w]x[h] buffer is a channel of a pixel. *)
Lemma cell_of_index (w h j : nat) :
  (j < w * h * 4)%nat ->
  exists x y c, (x < w)%nat /\ (y < h)%nat /\ (c < 4)%nat /\
                j = ((y * w + x) * 4 + c)%nat.
Proof.
  intros Hj.
  assert (Hp : (j / 4 < h * w)%nat)
    by (apply Nat.Div0.div_lt_upper_bound; lia).
  destruct (pixel_of_index w h (j / 4) Hp) as (Hx & Hy & E).
  exists ((j / 4) mod w)%nat, (j / 4 / w)%nat, (j mod 4)%nat.
  repeat split; auto.
  - apply Nat.mod_upper_bound. lia.
  - rewrite E. pose proof (Nat.div_mod_eq j 4). lia.
Qed.

(** A pixelwise scan that maps every pixel to itself changes nothing. *)
Lemma scan_pixelwise_id (w h : nat)
      (body : nat -> nat -> Float32Array -> Float32Array) (d0 : Float32Array) :
  (forall x y d, List.length (body x y d) = List.length d) ->
  (forall x y d j, (x < w)%nat -> (y < h)%nat ->
                   (j < (y * w + x) * 4 \/ (y * w + x) * 4 + 4 <= j)%nat ->
                   get (body x y d) j = get d j) ->
  (forall x y d d' c, (x < w)%nat -> (y < h)%nat ->
                      List.length d = List.length d' ->
                      (forall c', (c' < 4)%nat ->
                                  get d ((y * w + x) * 4 + c')
                                  = get d' ((y * w + x) * 4 + c')) ->
                      (c < 4)%nat ->
                      get (body x y d) ((y * w + x) * 4 + c)
                      = get (body x y d') ((y * w + x) * 4 + c)) ->
  (forall x y c, (x < w)%nat -> (y < h)%nat -> (c < 4)%nat ->
                 get (body x y d0) ((y * w + x) * 4 + c)
                 = get d0 ((y * w + x) * 4 + c)) ->
  scan w h body d0 = d0.
Proof.
  intros Hlen Hframe Hlocal Hid.
  destruct (scan_pixelwise w h body d0 Hlen Hframe Hlocal) as (H1 & H2 & H3).
  apply buffer_ext; auto.
  intros j. destruct (Nat.lt_ge_cases j (w * h * 4)) as [Hj|Hj].
  - destruct (cell_of_index w h j Hj) as (x & y & c & Hx & Hy & Hc & ->).
    rewrite H1 by auto. now apply Hid.
  - now apply H2.
Qed.

Lemma buffer_cell (d : Float32Array) (w h x y c : nat) :
  buffer_of w h d -> (x < w)%nat -> (y < h)%nat -> (c < 4)%nat ->
  ((y * w + x) * 4 + c < List.length d)%nat.
Proof. unfold buffer_of. intros -> Hx Hy Hc. nia. Qed.

(** X5. The cool cast moves every pixel toward blue. *)
Theorem applyCoolCast_toward_blue (d : Float32Array) (w h : nat)
        (intensity : R) (x y : nat) :
  buffer_of w h d -> in_range d -> 0 <= intensity ->
  (x < w)%nat -> (y < h)%nat ->
  let out := applyCoolCast d w h intensity in
  get out (idx x y w 0) <= get d (idx x y w 0) /\
  get d (idx x y w 1) <= get out (idx x y w 1) /\
  get d (idx x y w 2) <= get out (idx x y w 2) /\
  get out (idx x y w 3) = get d (idx x y w 3) /\
  (intensity <= 1 ->
   get out (idx x y w 0) = get d (idx x y w 0) * (1 - 0.06 * intensity)).
Proof.
  intros Hd Hr Hi Hx Hy out.
  destruct (applyCoolCast_pixel d w h intensity Hd x y Hx Hy)
    as (E0 & E1 & E2 & E3).
  fold out in E0, E1, E2, E3. rewrite E0, E1, E2, E3.
  pose proof (in_range_at d (idx x y w 0) Hr) as B0.
  pose proof (in_range_at d (idx x y w 1) Hr) as B1.
  pose proof (in_range_at d (idx x y w 2) Hr) as B2.
  repeat split; auto.
  - unfold clamp.
    destruct (Rlt_dec _ 0); [lra|]. destruct (Rgt_dec _ 255); nra.
  - unfold clamp.
    destruct (Rlt_dec _ 0); [nra|]. destruct (Rgt_dec _ 255); nra.
  - unfold clamp.
    destruct (Rlt_dec _ 0); [nra|]. destruct (Rgt_dec _ 255); nra.
  - intros Hi1. rewrite clamp_id; [lra|]. nra.
Qed.

Lemma applyCoolCast_toward_blue_witness :
  get (applyCoolCast buffer2x2 2 2 1) (idx 1 0 2 0)
  <= get buffer2x2 (idx 1 0 2 0).
Proof.
  refine (proj1 (applyCoolCast_toward_blue buffer2x2 2 2 1 1 0 _ _ _ _ _)).
  - reflexivity.
  - apply in_range_buffer2x2.
  - lra.
  - lia.
  - lia.
Defined.

Section Saturation.

Variables (d : Float32Array) (w h : nat) (factor : R).
Hypothesis Hd : buffer_of w h d.

Lemma adjustSaturation_pixel (x y : nat) :
  (x < w)%nat -> (y < h)%nat ->
  let out := adjustSaturation d w h factor in
  let lum := luminance d x y w in
  get out (idx x y w 0) = clamp (lum + (get d (idx x y w 0) - lum) * factor) 0 255 /\
  get out (idx x y w 1) = clamp (lum + (get d (idx x y w 1) - lum) * factor) 0 255 /\
  get out (idx x y w 2) = clamp (lum + (get d (idx x y w 2) - lum) * factor) 0 255 /\
  get out (idx x y w 3) = get d (idx x y w 3).
Proof.
  intros Hx Hy out lum. unfold out, lum, adjustSaturation, luminance, idx.
  match goal with
  | |- context [scan w h ?body d] =>
      destruct (scan_pixelwise w h body d) as (H1 & _ & _);
        [pixel_step | pixel_step | pixel_step |]
  end.
  pose proof (buffer_cell d w h x y 3 Hd Hx Hy ltac:(lia)) as Hb.
  rewrite !H1 by (auto; lia). rewrite !Nat.add_0_r.
  cbv zeta. cells. auto.
Qed.

End Saturation.

(** X6. Saturation keeps the luminance of a pixel that it does not clip. *)
Theorem adjustSaturation_keeps_luminance (d : Float32Array) (w h : nat)
        (factor : R) (x y : nat) :
  buffer_of w h d -> (x < w)%nat -> (y < h)%nat ->
  let lum := luminance d x y w in
  (forall c, (c < 3)%nat ->
             0 <= lum + (get d (idx x y w c) - lum) * factor <= 255) ->
  luminance (adjustSaturation d w h factor) x y w = lum.
Proof.
  intros Hd Hx Hy lum Hclip.
  destruct (adjustSaturation_pixel d w h factor Hd x y Hx Hy)
    as (E0 & E1 & E2 & _).
  fold lum in E0, E1, E2.
  rewrite clamp_id in E0 by (apply Hclip; lia).
  rewrite clamp_id in E1 by (apply Hclip; lia).
  rewrite clamp_id in E2 by (apply Hclip; lia).
  unfold luminance at 1. unfold idx in E0, E1, E2.
  rewrite !Nat.add_0_r in E0. rewrite E0, E1, E2.
  unfold lum, luminance. lra.
Qed.

Lemma adjustSaturation_keeps_luminance_witness :
  luminance (adjustSaturation buffer2x2 2 2 1.3) 0 0 2
  = luminance buffer2x2 0 0 2.
Proof.
  apply (adjustSaturation_keeps_luminance buffer2x2 2 2 1.3 0 0);
    [reflexivity | lia | lia |].
  intros c Hc. unfold luminance, idx, buffer2x2, get.
  destruct c as [|[|[|c]]]; [simpl; lra | simpl; lra | simpl; lra | lia].
Defined.

(** Two buffers of [w]x[h] pixels that agree pixel by pixel are equal. *)
Lemma buffer_ext_pixels (d d' : Float32Array) (w h : nat) :
  buffer_of w h d -> List.length d' = List.length d ->
  (forall x y c, (x < w)%nat -> (y < h)%nat -> (c < 4)%nat ->
                 get d' (idx x y w c) = get d (idx x y w c)) ->
  d' = d.
Proof.
  intros Hd Hl H. apply buffer_ext; auto.
  intros j. destruct (Nat.lt_ge_cases j (w * h * 4)) as [Hj|Hj].
  - destruct (cell_of_index w h j Hj) as (x & y & c & Hx & Hy & Hc & ->).
    now apply H.
  - unfold buffer_of in Hd. rewrite !get_overflow by lia. reflexivity.
Qed.

Lemma luminance_bounds (d : Float32Array) (x y w : nat) :
  in_range d -> 0 <= luminance d x y w <= 255.
Proof.
  intros Hr. unfold luminance.
  pose proof (in_range_at d ((y * w + x) * 4) Hr).
  pose proof (in_range_at d ((y * w + x) * 4 + 1) Hr).
  pose proof (in_range_at d ((y * w + x) * 4 + 2) Hr). lra.
Qed.

(** X7. The two neutral settings of the saturation stage. *)
Theorem adjustSaturation_neutral (d : Float32Array) (w h : nat) :
  buffer_of w h d -> in_range d ->
  adjustSaturation d w h 1 = d /\
  forall x y c, (x < w)%nat -> (y < h)%nat -> (c < 3)%nat ->
    get (adjustSaturation d w h 0) (idx x y w c) = luminance d x y w.
Proof.
  intros Hd Hr. split.
  - apply (buffer_ext_pixels d _ w h Hd (adjustSaturation_length d w h 1)).
    intros x y c Hx Hy Hc.
    destruct (adjustSaturation_pixel d w h 1 Hd x y Hx Hy)
      as (E0 & E1 & E2 & E3).
    pose proof (in_range_at d (idx x y w 0) Hr).
    pose proof (in_range_at d (idx x y w 1) Hr).
    pose proof (in_range_at d (idx x y w 2) Hr).
    destruct c as [|[|[|[|c]]]]; try lia;
      [rewrite E0 | rewrite E1 | rewrite E2 | exact E3];
      rewrite clamp_id; lra.
  - intros x y c Hx Hy Hc.
    destruct (adjustSaturation_pixel d w h 0 Hd x y Hx Hy)
      as (E0 & E1 & E2 & _).
    pose proof (luminance_bounds d x y w Hr).
    destruct c as [|[|[|c]]]; try lia;
      [rewrite E0 | rewrite E1 | rewrite E2];
      rewrite clamp_id; lra.
Qed.

Lemma adjustSaturation_neutral_witness :
  adjustSaturation buffer2x2 2 2 1 = buffer2x2.
Proof.
  exact (proj1 (adjustSaturation_neutral buffer2x2 2 2 eq_refl
                  in_range_buffer2x2)).
Defined.

Section Vibrance.

Variables (d : Float32Array) (w h : nat) (vibranceFactor : R).
Hypothesis Hd : buffer_of w h d.
Hypothesis Hf : vibranceFactor <> 1.0.

Lemma adjustVibrance_pixel (x y : nat) :
  (x < w)%nat -> (y < h)%nat ->
  let out := adjustVibrance d w h vibranceFactor in
  let r := get d (idx x y w 0) / 255 in
  let g := get d (idx x y w 1) / 255 in
  let b := get d (idx x y w 2) / 255 in
  let maxC := Math_max (Math_max r g) b in
  let minC := Math_min (Math_min r g) b in
  let sat := if Req_dec_T maxC 0 then 0 else (maxC - minC) / maxC in
  let newFactor := 1.0 + (vibranceFactor - 1.0) * Math_pow (1.0 - sat) 1.5 in
  let lum := 0.299 * r + 0.587 * g + 0.114 * b in
  get out (idx x y w 0) = clamp ((lum + (r - lum) * newFactor) * 255) 0 255 /\
  get out (idx x y w 1) = clamp ((lum + (g - lum) * newFactor) * 255) 0 255 /\
  get out (idx x y w 2) = clamp ((lum + (b - lum) * newFactor) * 255) 0 255 /\
  get out (idx x y w 3) = get d (idx x y w 3).
Proof.
  intros Hx Hy. unfold adjustVibrance, idx.
  destruct (Req_dec_T vibranceFactor 1.0) as [E|_]; [contradiction|].
  match goal with
  | |- context [scan w h ?body d] =>
      destruct (scan_pixelwise w h body d) as (H1 & _ & _);
        [pixel_step | pixel_step | pixel_step |]
  end.
  pose proof (buffer_cell d w h x y 3 Hd Hx Hy ltac:(lia)) as Hb.
  cbv zeta. rewrite !H1 by (auto; lia). rewrite !Nat.add_0_r.
  cells. auto.
Qed.

End Vibrance.

Lemma Math_min3_scaled (r g b : R) :
  Math_min (Math_min (r / 255) (g / 255)) (b / 255) = Rmin (Rmin r g) b / 255.
Proof.
  unfold Math_min, Rmin.
  destruct (Rle_dec r g), (Rle_dec (r / 255) (g / 255)); try lra.
  - destruct (Rle_dec r b), (Rle_dec (r / 255) (b / 255)); lra.
  - destruct (Rle_dec g b), (Rle_dec (g / 255) (b / 255)); lra.
Qed.

Lemma Math_max3_zero (r g b : R) :
  0 <= r -> 0 <= g -> 0 <= b ->
  Math_max (Math_max (r / 255) (g / 255)) (b / 255) = 0 ->
  r = 0 /\ g = 0 /\ b = 0.
Proof.
  unfold Math_max, Rmax. intros Hr Hg Hb.
  destruct (Rle_dec (r / 255) (g / 255)).
  - destruct (Rle_dec (g / 255) (b / 255)); intros; lra.
  - destruct (Rle_dec (r / 255) (b / 255)); intros; lra.
Qed.

(** X8. Vibrance leaves gray pixels and fully saturated pixels as they are. *)
Theorem adjustVibrance_fixed_pixels (d : Float32Array) (w h : nat)
        (vibranceFactor : R) (x y : nat) :
  buffer_of w h d -> in_range d -> (x < w)%nat -> (y < h)%nat ->
  let r := get d (idx x y w 0) in
  let g := get d (idx x y w 1) in
  let b := get d (idx x y w 2) in
  (r = g /\ g = b) \/ Rmin (Rmin r g) b = 0 ->
  forall c, (c < 4)%nat ->
    get (adjustVibrance d w h vibranceFactor) (idx x y w c)
    = get d (idx x y w c).
Proof.
  intros Hd Hr Hx Hy r g b Hcase c Hc.
  destruct (Req_dec_T vibranceFactor 1.0) as [E|Hf].
  { unfold adjustVibrance. destruct (Req_dec_T vibranceFactor 1.0); tauto. }
  destruct (adjustVibrance_pixel d w h vibranceFactor Hd Hf x y Hx Hy)
    as (E0 & E1 & E2 & E3).
  cbv zeta in E0, E1, E2. fold r g b in E0, E1, E2.
  pose proof (in_range_at d (idx x y w 0) Hr) as Br.
  pose proof (in_range_at d (idx x y w 1) Hr) as Bg.
  pose proof (in_range_at d (idx x y w 2) Hr) as Bb.
  fold r in Br. fold g in Bg. fold b in Bb.
  set (nf := 1.0 + (vibranceFactor - 1.0) * _) in E0, E1, E2.
  assert (Er : get d (idx x y w 0) = r) by reflexivity.
  assert (Eg : get d (idx x y w 1) = g) by reflexivity.
  assert (Eb : get d (idx x y w 2) = b) by reflexivity.
  clearbody r g b.
  assert (Hfix : (r = g /\ g = b) \/ nf = 1).
  { destruct Hcase as [Hgray|Hmin]; [left; exact Hgray|].
    destruct (Req_dec_T (Math_max (Math_max (r / 255) (g / 255)) (b / 255)) 0)
      as [Emax|Nmax].
    - left. apply Math_max3_zero in Emax; lra.
    - right. unfold nf. rewrite Math_min3_scaled, Hmin.
      set (M := Math_max (Math_max (r / 255) (g / 255)) (b / 255)) in *.
      replace (1.0 - (M - 0 / 255) / M) with 0.
      2:{ unfold Rdiv. rewrite Rmult_0_l, Rminus_0_r, Rinv_r by exact Nmax.
          lra. }
      unfold Math_pow.
      destruct (Req_dec_T 1.5 0); [lra|].
      destruct (Rlt_dec 0 0); lra. }
  assert (H0 : (0.299 * (r / 255) + 0.587 * (g / 255) + 0.114 * (b / 255)
                + (r / 255 - (0.299 * (r / 255) + 0.587 * (g / 255)
                              + 0.114 * (b / 255))) * nf) * 255 = r)
    by (destruct Hfix as [[Erg Egb]|Enf]; [rewrite Erg, Egb | rewrite Enf]; lra).
  assert (H1 : (0.299 * (r / 255) + 0.587 * (g / 255) + 0.114 * (b / 255)
                + (g / 255 - (0.299 * (r / 255) + 0.587 * (g / 255)
                              + 0.114 * (b / 255))) * nf) * 255 = g)
    by (destruct Hfix as [[Erg Egb]|Enf]; [rewrite Erg, Egb | rewrite Enf]; lra).
  assert (H2 : (0.299 * (r / 255) + 0.587 * (g / 255) + 0.114 * (b / 255)
                + (b / 255 - (0.299 * (r / 255) + 0.587 * (g / 255)
                              + 0.114 * (b / 255))) * nf) * 255 = b)
    by (destruct Hfix as [[Erg Egb]|Enf]; [rewrite Erg, Egb | rewrite Enf]; lra).
  rewrite H0 in E0. rewrite H1 in E1. rewrite H2 in E2.
  rewrite clamp_id in E0, E1, E2 by assumption.
  destruct c as [|[|[|[|c]]]]; try lia; congruence.
Qed.

Lemma adjustVibrance_fixed_pixels_witness :
  get (adjustVibrance white_pixel 1 1 1.3) (idx 0 0 1 0)
  = get white_pixel (idx 0 0 1 0).
Proof.
  apply (adjustVibrance_fixed_pixels white_pixel 1 1 1.3 0 0);
    [reflexivity | | lia | lia | | lia].
  - unfold in_range, white_pixel.
    repeat (apply Forall_cons; [lra|]). apply Forall_nil.
  - left. split; reflexivity.
Defined.

(** A loop whose iteration [i] writes only cell [i] and reads the buffer
    only there: afterwards every cell holds what its own iteration makes of
    the initial buffer. *)
Lemma for_loop_cellwise (n : nat)
      (body : nat -> Float32Array -> Float32Array) (d0 : Float32Array) :
  (forall i d, List.length (body i d) = List.length d) ->
  (forall i d j, j <> i -> get (body i d) j = get d j) ->
  (forall i d d', List.length d = List.length d' -> get d i = get d' i ->
                  get (body i d) i = get (body i d') i) ->
  (forall i, (i < n)%nat -> get (for_loop n body d0) i = get (body i d0) i) /\
  (forall j, (n <= j)%nat -> get (for_loop n body d0) j = get d0 j) /\
  List.length (for_loop n body d0) = List.length d0.
Proof.
  intros Hlen Hframe Hlocal.
  destruct (for_loop_block 1 n (List.length d0) body d0 eq_refl)
    as (H1 & H2 & H3).
  - intros p d _ Hd. now rewrite Hlen.
  - intros p d j _ _ Hj. apply Hframe. lia.
  - intros p d d' c _ Hd Hd' Hagree Hc.
    assert (c = 0%nat) by lia. subst c.
    replace (1 * p + 0)%nat with p by lia.
    apply Hlocal; [congruence|].
    specialize (Hagree 0%nat ltac:(lia)).
    now replace (1 * p + 0)%nat with p in Hagree by lia.
  - repeat split; auto.
    + intros i Hi. specialize (H1 i 0%nat Hi ltac:(lia)).
      now replace (1 * i + 0)%nat with i in H1 by lia.
    + intros j Hj. apply H2. lia.
Qed.

Lemma reduceDynamicRange_get (d : Float32Array) (w h : nat) (intensity : R)
      (j : nat) :
  (j < w * h * 4)%nat -> (j < List.length d)%nat ->
  get (reduceDynamicRange d w h intensity) j
  = if (j mod 4 =? 3)%nat then get d j
    else clamp (((get d j + 8 * intensity) * (0.95 - 0.05 * intensity) - 128)
                * (0.9 + 0.1 * (1 - intensity)) + 128) 0 255.
Proof.
  intros Hj Hl. unfold reduceDynamicRange. cbv zeta.
  match goal with
  | |- context [for_loop _ ?body d] =>
      destruct (for_loop_cellwise (w * h * 4) body d) as (H1 & _ & _)
  end.
  - intros i a. destruct (i mod 4 =? 3)%nat; now rewrite ?set_length.
  - intros i a k Hk. destruct (i mod 4 =? 3)%nat; auto.
    now rewrite get_set_other.
  - intros i a a' Hla Ha. destruct (i mod 4 =? 3)%nat; auto.
    now rewrite !get_set, Hla, Ha.
  - rewrite H1 by exact Hj.
    destruct (j mod 4 =? 3)%nat; auto. now rewrite get_set_same.
Qed.

(** X9. For an intensity in [0,1] the dynamic-range stage is an affine map
    of every colour value, its clamp never acts, and no value comes out
    above 242.25; alpha is left as it was. *)
Theorem reduceDynamicRange_compresses (d : Float32Array) (w h : nat)
        (intensity : R) (j : nat) :
  buffer_of w h d -> in_range d -> 0 <= intensity <= 1 ->
  (j < w * h * 4)%nat ->
  let out := reduceDynamicRange d w h intensity in
  ((j mod 4 = 3)%nat -> get out j = get d j) /\
  ((j mod 4 <> 3)%nat ->
   get out j = ((get d j + 8 * intensity) * (0.95 - 0.05 * intensity) - 128)
               * (0.9 + 0.1 * (1 - intensity)) + 128 /\
   0 <= get out j <= 242.25).
Proof.
  intros Hd Hr Hi Hj out. unfold out.
  rewrite reduceDynamicRange_get by (auto; unfold buffer_of in Hd; lia).
  pose proof (in_range_at d j Hr) as Hv.
  split; intros Hm.
  - apply Nat.eqb_eq in Hm. now rewrite Hm.
  - apply Nat.eqb_neq in Hm. rewrite Hm.
    set (v := get d j) in *.
    assert (Ha : 0 <= (v + 8 * intensity) * (0.95 - 0.05 * intensity)
                 <= 242.25) by nra.
    set (a := (v + 8 * intensity) * (0.95 - 0.05 * intensity)) in *.
    assert (Hb : 0 <= (a - 128) * (0.9 + 0.1 * (1 - intensity)) + 128
                 <= 242.25) by nra.
    rewrite clamp_id by lra. split; [reflexivity | exact Hb].
Qed.

Lemma reduceDynamicRange_compresses_witness :
  get (reduceDynamicRange buffer2x2 2 2 1) 3 = get buffer2x2 3.
Proof.
  refine (proj1 (reduceDynamicRange_compresses buffer2x2 2 2 1 3
                   eq_refl in_range_buffer2x2 _ _) eq_refl); [lra | lia].
Defined.

(* ------------------------------------------------------------------------- *)
(** ** The buffer layout and the conversions between images and buffers *)

(** X1. [idx] lays the channels of a [w]x[h] image out without gaps or
    overlaps: an in-bounds pixel and channel land below [w * h * 4], and
    two of them land on the same cell only if they are the same. *)
Theorem idx_layout (w h x y c x' y' c' : nat) :
  (x < w)%nat -> (y < h)%nat -> (c < 4)%nat ->
  (idx x y w c < w * h * 4)%nat /\
  ((x' < w)%nat -> (c' < 4)%nat ->
   idx x y w c = idx x' y' w c' -> x = x' /\ y = y' /\ c = c').
Proof.
  intros Hx Hy Hc. unfold idx. split; [nia|].
  intros Hx' Hc' E.
  assert (Ec : c = c') by lia.
  assert (Ep : (y * w + x = y' * w + x')%nat) by lia.
  destruct (index_of_pixel w x y Hx) as (Em & Ed).
  destruct (index_of_pixel w x' y' Hx') as (Em' & Ed').
  rewrite Ep in Em, Ed. repeat split; congruence.
Qed.

Lemma idx_layout_witness :
  (idx 1 1 2 2 < 2 * 2 * 4)%nat.
Proof.
  refine (proj1 (idx_layout 2 2 1 1 2 0 0 0 _ _ _)); lia.
Defined.

(** X2. The luminance of a pixel is read from its three colour cells and
    lies between the smallest and the largest of them. *)
Theorem luminance_between (d : Float32Array) (x y w : nat) :
  let r := get d (idx x y w 0) in
  let g := get d (idx x y w 1) in
  let b := get d (idx x y w 2) in
  luminance d x y w = 0.299 * r + 0.587 * g + 0.114 * b /\
  Rmin (Rmin r g) b <= luminance d x y w <= Rmax (Rmax r g) b.
Proof.
  intros r g b. unfold r, g, b, luminance, idx. rewrite !Nat.add_0_r.
  split; [reflexivity|].
  set (r' := get d _). set (g' := get d _). set (b' := get d _).
  pose proof (Rmin_l (Rmin r' g') b'). pose proof (Rmin_r (Rmin r' g') b').
  pose proof (Rmin_l r' g'). pose proof (Rmin_r r' g').
  pose proof (Rmax_l (Rmax r' g') b'). pose proof (Rmax_r (Rmax r' g') b').
  pose proof (Rmax_l r' g'). pose proof (Rmax_r r' g').
  lra.
Qed.

(** Bytes and the values [imageToPixels] reads from them. *)
Lemma Math_round_IZR (z : Z) : Math_round (IZR z) = z.
Proof. apply Math_round_eq. lra. Qed.

Lemma to_Uint8_byte (b : byte) : to_Uint8 (byte_to_R b) = b.
Proof.
  unfold to_Uint8, byte_to_R. rewrite Math_round_IZR.
  pose proof (Byte.to_N_bounded b) as Hb.
  unfold Uint8.
  replace (Z.max 0 (Z.min 255 (Z.of_N (Byte.to_N b))))
    with (Z.of_N (Byte.to_N b)) by lia.
  rewrite Z.mod_small by lia. rewrite N2Z.id.
  now rewrite Byte.of_to_N.
Qed.

(** X3. Reading an image into a buffer and writing the buffer back gives
    the image that was read. *)
Theorem pixels_round_trip (B : SkiaBackend) (image : SkImage) (px : PixelData)
        (out : SkImage) :
  imageToPixels B image = Ok px ->
  pixelsToImage B (data px) (px_width px) (px_height px) = Ok out ->
  out = image.
Proof.
  unfold imageToPixels, pixelsToImage.
  destruct (readPixels_ok B image); [|discriminate].
  intros E. injection E as <-. cbn [data px_width px_height].
  destruct (MakeImage_ok B _ _ _); [|discriminate].
  intros E. injection E as <-.
  destruct image as [w h ps]. cbn [width height pixels]. f_equal.
  rewrite map_map. rewrite <- (map_id ps) at 2.
  apply map_ext. intros b. apply to_Uint8_byte.
Qed.

Lemma pixels_round_trip_witness :
  exists px out,
    imageToPixels Soft.backend Soft.gray1x1 = Ok px /\
    pixelsToImage Soft.backend (data px) (px_width px) (px_height px) = Ok out /\
    out = Soft.gray1x1.
Proof.
  eexists. eexists. split; [reflexivity|]. split; [reflexivity|].
  apply (pixels_round_trip Soft.backend Soft.gray1x1 _ _ eq_refl eq_refl).
Defined.

(** X4. The bytes that [pixelsToImage] stores are the values rounded to the
    nearest integer and saturated, never wrapped. *)
Theorem pixelsToImage_saturates (B : SkiaBackend) (d : Float32Array)
        (w h : nat) (out : SkImage) (j : nat) :
  pixelsToImage B d w h = Ok out -> (j < List.length d)%nat ->
  let v := get d j in
  let b := get (map byte_to_R (pixels out)) j in
  (v <= 0 -> b = 0) /\
  (255 <= v -> b = 255) /\
  (0 <= v <= 255 -> v - 1 / 2 <= b <= v + 1 / 2).
Proof.
  intros E Hj v b.
  apply pixelsToImage_dims in E as (_ & _ & Ep).
  unfold b. rewrite Ep, get_rounded by exact Hj. fold v.
  unfold to_Uint8. rewrite byte_of_Uint8 by lia.
  pose proof (Zfloor_bound (v + 0.5)) as [H1 H2].
  fold (Math_round v) in H1, H2.
  split; [|split]; intros Hv.
  - assert (Math_round v <= 0)%Z by (apply Math_round_le; lra).
    replace (Z.max 0 (Z.min 255 (Math_round v))) with 0%Z by lia.
    reflexivity.
  - assert (254 < Math_round v)%Z by (apply lt_IZR; lra).
    replace (Z.max 0 (Z.min 255 (Math_round v))) with 255%Z by lia.
    reflexivity.
  - assert (-1 < Math_round v)%Z by (apply lt_IZR; lra).
    assert (Math_round v <= 255)%Z by (apply Math_round_le; lra).
    replace (Z.max 0 (Z.min 255 (Math_round v))) with (Math_round v) by lia.
    lra.
Qed.

Lemma pixelsToImage_saturates_witness :
  exists out,
    pixelsToImage Soft.backend [300; -7; 12.4; 255] 1 1 = Ok out /\
    get (map byte_to_R (pixels out)) 0 = 255.
Proof.
  eexists. split; [reflexivity|].
  refine (proj1 (proj2 (pixelsToImage_saturates Soft.backend
                          [300; -7; 12.4; 255] 1 1 _ 0 eq_refl _)) _).
  - simpl. lia.
  - unfold get. simpl. lra.
Defined.

(* ------------------------------------------------------------------------- *)
(** ** Barrel distortion *)

(** The alpha fill that precedes the distortion. *)
Lemma alpha_fill (m p c : nat) :
  (p < m)%nat -> (c < 4)%nat ->
  get (for_step4 3 (m * 4) (fun i r => set r i 255) (new_Float32Array (m * 4)))
      (p * 4 + c)
  = if (c =? 3)%nat then 255 else 0.
Proof.
  intros Hp Hc. unfold for_step4.
  replace ((m * 4 + 3 - 3) / 4)%nat with m
    by (rewrite Nat.add_sub, Nat.div_mul; lia).
  destruct (for_loop_block 4 m (m * 4)
              (fun k r => set r (3 + 4 * k) 255)
              (new_Float32Array (m * 4)) (new_length _)) as (H1 & _ & _).
  - intros q d _ Hd. now rewrite set_length.
  - intros q d j _ _ Hj. apply get_set_other. lia.
  - intros q d d' k _ Hd Hd' Hag Hk.
    rewrite !get_set, Hd, Hd'. now rewrite Hag.
  - replace (p * 4 + c)%nat with (4 * p + c)%nat by lia.
    rewrite H1 by auto. rewrite get_set, new_length, get_new.
    destruct (Nat.eqb_spec c 3) as [->|Hne].
    + replace (4 * p + 3 =? 3 + 4 * p)%nat with true
        by (symmetry; apply Nat.eqb_eq; lia).
      replace (3 + 4 * p <? m * 4)%nat with true
        by (symmetry; apply Nat.ltb_lt; lia).
      reflexivity.
    + replace (4 * p + c =? 3 + 4 * p)%nat with false
        by (symmetry; apply Nat.eqb_neq; lia).
      reflexivity.
Qed.

Lemma clampZ_bounds (v lo hi : Z) :
  (lo <= hi)%Z -> (lo <= clampZ v lo hi <= hi)%Z.
Proof.
  intros H. unfold clampZ.
  destruct (v <? lo)%Z eqn:E1; [lia|].
  destruct (v >? hi)%Z eqn:E2; lia.
Qed.

Lemma clampZ_id (v lo hi : Z) : (lo <= v <= hi)%Z -> clampZ v lo hi = v.
Proof.
  intros H. unfold clampZ.
  destruct (v <? lo)%Z eqn:E1; [lia|].
  destruct (v >? hi)%Z eqn:E2; lia.
Qed.

Section BarrelDistortion.

Variables (d : Float32Array) (w h : nat) (intensity : R).
Hypothesis Hd : buffer_of w h d.

(** The source column and row of the pixel written at [(x, y)]. *)
Local Abbreviation scale_at x y :=
  (let xNorm := (INR x - INR w / 2) / (INR w / 2) in
   let yNorm := (INR y - INR h / 2) / (INR h / 2) in
   let r := Math_sqrt (xNorm * xNorm + yNorm * yNorm) in
   if Req_dec_T r 0 then 1 else r * (1 + 0.1 * intensity * r * r) / r).

Local Abbreviation srcX_at x y :=
  (clampZ (Math_round ((INR x - INR w / 2) / (INR w / 2) * scale_at x y
                       * (INR w / 2) + INR w / 2))
          0 (Z.of_nat w - 1)).

Local Abbreviation srcY_at x y :=
  (clampZ (Math_round ((INR y - INR h / 2) / (INR h / 2) * scale_at x y
                       * (INR h / 2) + INR h / 2))
          0 (Z.of_nat h - 1)).

Lemma applyBarrelDistortion_pixel (x y : nat) :
  (x < w)%nat -> (y < h)%nat ->
  let out := applyBarrelDistortion d w h intensity in
  List.length out = List.length d /\
  (forall c, (c < 3)%nat ->
     get out (idx x y w c)
     = get d (idx (Z.to_nat (srcX_at x y)) (Z.to_nat (srcY_at x y)) w c)) /\
  get out (idx x y w 3) = 255.
Proof.
  intros Hx Hy. unfold applyBarrelDistortion. cbv zeta.
  rewrite new_length.
  match goal with
  | |- context [scan w h ?body ?d0] =>
      destruct (scan_pixelwise w h body d0) as (H1 & _ & H3);
        [pixel_step | pixel_step | pixel_step |];
      set (filled := d0) in *
  end.
  assert (Hf : List.length filled = List.length d).
  { unfold filled, for_step4.
    apply (for_loop_inv (fun a : Float32Array => List.length a = List.length d)).
    - apply new_length.
    - intros k a _ Ha. now rewrite set_length. }
  pose proof (buffer_cell d w h x y 3 Hd Hx Hy ltac:(lia)) as Hb.
  split; [congruence|]. split.
  - intros c Hc. unfold idx. rewrite H1 by (auto; lia).
    assert (E : forall sx sy : Z, (0 <= sx)%Z -> (0 <= sy)%Z ->
               Z.to_nat ((sy * Z.of_nat w + sx) * 4)
               = ((Z.to_nat sy * w + Z.to_nat sx) * 4)%nat).
    { intros sx sy Hsx Hsy. apply Nat2Z.inj.
      rewrite Z2Nat.id by nia.
      rewrite Nat2Z.inj_mul, Nat2Z.inj_add, Nat2Z.inj_mul, !Z2Nat.id by lia.
      reflexivity. }
    pose proof (clampZ_bounds
                  (Math_round ((INR x - INR w / 2) / (INR w / 2) * scale_at x y
                               * (INR w / 2) + INR w / 2))
                  0 (Z.of_nat w - 1) ltac:(lia)) as Bx.
    pose proof (clampZ_bounds
                  (Math_round ((INR y - INR h / 2) / (INR h / 2) * scale_at x y
                               * (INR h / 2) + INR h / 2))
                  0 (Z.of_nat h - 1) ltac:(lia)) as By.
    cbv zeta in Bx, By. rewrite <- (E _ _ (proj1 Bx) (proj1 By)).
    destruct c as [|[|[|c]]]; try lia; rewrite ?Nat.add_0_r; cells;
      reflexivity.
  - unfold idx. rewrite H1 by (auto; lia). cells.
    unfold filled. unfold buffer_of in Hd. rewrite Hd.
    rewrite (alpha_fill (w * h) (y * w + x) 3) by nia. reflexivity.
Qed.

End BarrelDistortion.

(** X18. Barrel distortion invents no colour: every pixel of the result is
    a copy of the colour of some pixel of the input, and is opaque. *)
Theorem applyBarrelDistortion_copies (d : Float32Array) (w h : nat)
        (intensity : R) (x y : nat) :
  buffer_of w h d -> (x < w)%nat -> (y < h)%nat ->
  let out := applyBarrelDistortion d w h intensity in
  List.length out = List.length d /\
  get out (idx x y w 3) = 255 /\
  exists sx sy, (sx < w)%nat /\ (sy < h)%nat /\
    forall c, (c < 3)%nat -> get out (idx x y w c) = get d (idx sx sy w c).
Proof.
  intros Hd Hx Hy out.
  destruct (applyBarrelDistortion_pixel d w h intensity Hd x y Hx Hy)
    as (Hl & Hc & Ha).
  split; [exact Hl|]. split; [exact Ha|].
  match type of Hc with
  | forall c, _ -> _ = get d (idx (Z.to_nat ?sx) (Z.to_nat ?sy) w c) =>
      exists (Z.to_nat sx), (Z.to_nat sy);
      pose proof (clampZ_bounds
                    (Math_round ((INR x - INR w / 2) / (INR w / 2)
                                 * (let xNorm := (INR x - INR w / 2) / (INR w / 2) in
                                    let yNorm := (INR y - INR h / 2) / (INR h / 2) in
                                    let r := Math_sqrt (xNorm * xNorm + yNorm * yNorm) in
                                    if Req_dec_T r 0 then 1
                                    else r * (1 + 0.1 * intensity * r * r) / r)
                                 * (INR w / 2) + INR w / 2))
                    0 (Z.of_nat w - 1) ltac:(lia)) as Bx;
      pose proof (clampZ_bounds
                    (Math_round ((INR y - INR h / 2) / (INR h / 2)
                                 * (let xNorm := (INR x - INR w / 2) / (INR w / 2) in
                                    let yNorm := (INR y - INR h / 2) / (INR h / 2) in
                                    let r := Math_sqrt (xNorm * xNorm + yNorm * yNorm) in
                                    if Req_dec_T r 0 then 1
                                    else r * (1 + 0.1 * intensity * r * r) / r)
                                 * (INR h / 2) + INR h / 2))
                    0 (Z.of_nat h - 1) ltac:(lia)) as By
  end.
  split; [lia|]. split; [lia|]. exact Hc.
Qed.

Lemma applyBarrelDistortion_copies_witness :
  get (applyBarrelDistortion buffer2x2 2 2 1) (idx 1 1 2 3) = 255.
Proof.
  refine (proj1 (proj2 (applyBarrelDistortion_copies buffer2x2 2 2 1 1 1
                          eq_refl _ _))); lia.
Defined.

Lemma Math_round_INR (n : nat) : Math_round (INR n) = Z.of_nat n.
Proof. rewrite INR_IZR_INZ. apply Math_round_IZR. Qed.

(** X19. At intensity 0 the distortion maps every pixel to itself: the
    colours of the result are the colours of the input. *)
Theorem applyBarrelDistortion_zero (d : Float32Array) (w h : nat)
        (x y c : nat) :
  buffer_of w h d -> (x < w)%nat -> (y < h)%nat -> (c < 3)%nat ->
  get (applyBarrelDistortion d w h 0) (idx x y w c) = get d (idx x y w c).
Proof.
  intros Hd Hx Hy Hc.
  destruct (applyBarrelDistortion_pixel d w h 0 Hd x y Hx Hy)
    as (_ & Hcol & _).
  rewrite (Hcol c Hc). clear Hcol.
  assert (Hw : 0 < INR w / 2).
  { assert (0 < INR w) by (apply lt_0_INR; lia). lra. }
  assert (Hh : 0 < INR h / 2).
  { assert (0 < INR h) by (apply lt_0_INR; lia). lra. }
  set (s := let xNorm := (INR x - INR w / 2) / (INR w / 2) in
            let yNorm := (INR y - INR h / 2) / (INR h / 2) in
            let r := Math_sqrt (xNorm * xNorm + yNorm * yNorm) in
            if Req_dec_T r 0 then 1 else r * (1 + 0.1 * 0 * r * r) / r).
  assert (Hs : s = 1).
  { unfold s. cbv zeta. destruct (Req_dec_T _ 0) as [E|N]; [reflexivity|].
    unfold Rdiv at 1. rewrite Rmult_0_r, !Rmult_0_l, Rplus_0_r, Rmult_1_r.
    now apply Rinv_r. }
  rewrite Hs.
  replace ((INR x - INR w / 2) / (INR w / 2) * 1 * (INR w / 2) + INR w / 2)
    with (INR x) by (field; lra).
  replace ((INR y - INR h / 2) / (INR h / 2) * 1 * (INR h / 2) + INR h / 2)
    with (INR y) by (field; lra).
  rewrite !Math_round_INR, !clampZ_id by lia.
  now rewrite !Nat2Z.id.
Qed.

Lemma applyBarrelDistortion_zero_witness :
  get (applyBarrelDistortion buffer2x2 2 2 0) (idx 1 0 2 2)
  = get buffer2x2 (idx 1 0 2 2).
Proof.
  apply (applyBarrelDistortion_zero buffer2x2 2 2 1 0 2); [reflexivity | lia..].
Defined.

(* ------------------------------------------------------------------------- *)
(** ** Random draws and noise *)

Lemma random_nonzero_zeros (n : nat) (t : tape) :
  random_nonzero (repeat 0 n ++ t) = random_nonzero t.
Proof.
  induction n as [|n IH]; simpl; auto.
  destruct (Req_dec_T 0 0); [exact IH | lra].
Qed.

(** X15. [randomNormal] draws again as long as [Math.random] returns 0, for
    its first operand and for its second; it runs out of draws on a source
    that only returns 0; and for a first operand in (0,1) the sample is at
    most [sqrt (-2 ln u)] in magnitude. *)
Theorem randomNormal_redraws (a b : nat) (u v : R) (rest : tape) :
  u <> 0 -> v <> 0 ->
  let sample := Math_sqrt (-2.0 * ln u) * cos (2.0 * PI * v) in
  randomNormal (repeat 0 a ++ u :: repeat 0 b ++ v :: rest)
  = Returns sample rest /\
  randomNormal (repeat 0 a) = Starved /\
  randomNormal (repeat 0 a ++ u :: repeat 0 b) = Starved /\
  (0 < u < 1 -> Rabs sample <= Math_sqrt (-2.0 * ln u)).
Proof.
  intros Hu Hv sample.
  assert (Z0 : forall n, random_nonzero (repeat 0 n) = Starved).
  { intros n. rewrite <- (app_nil_r (repeat 0 n)).
    now rewrite random_nonzero_zeros. }
  assert (Z1 : forall n p t, p <> 0 ->
             random_nonzero (repeat 0 n ++ p :: t) = Returns p t).
  { intros n p t Hp. rewrite random_nonzero_zeros.
    now apply random_nonzero_cons. }
  unfold randomNormal. cbn [bind Rand_Monad ret].
  rewrite Z0, !Z1, Z0 by auto.
  repeat split; auto.
  intros Hu1. unfold sample. rewrite Rabs_mult.
  assert (0 <= Math_sqrt (-2.0 * ln u)) by apply sqrt_pos.
  rewrite (Rabs_pos_eq (Math_sqrt _)) by assumption.
  pose proof (COS_bound (2.0 * PI * v)) as [C1 C2].
  assert (Rabs (cos (2.0 * PI * v)) <= 1) by (apply Rabs_le; lra).
  nra.
Qed.

Lemma randomNormal_redraws_witness :
  randomNormal (repeat 0 2 ++ 0.5 :: repeat 0 1 ++ 0.25 :: [])
  = Returns (Math_sqrt (-2.0 * ln 0.5) * cos (2.0 * PI * 0.25)) [].
Proof.
  refine (proj1 (randomNormal_redraws 2 1 0.5 0.25 [] _ _)); lra.
Defined.

(** What every buffer returned by the noise stage satisfies, from what each
    of its writes keeps. *)
Lemma addDigitalNoise_inv (P : Float32Array -> Prop) d w h i :
  P d ->
  (forall a k n wgt, (k mod 4 <> 3)%nat -> P a ->
     P (set a k (clamp (get a k + n * (12 * i) * wgt) 0 255))) ->
  returns_only P (addDigitalNoise d w h i).
Proof.
  intros H0 Hstep. unfold addDigitalNoise.
  apply (scan_inv (returns_only P)).
  - now apply returns_only_ret.
  - intros x y acc _ _ Hacc.
    eapply returns_only_bind; [exact Hacc|].
    intros a Ha.
    apply (for_loop_inv (returns_only P)).
    + now apply returns_only_ret.
    + intros c acc' Hc Hacc'.
      eapply returns_only_bind; [exact Hacc'|].
      intros a' Ha'.
      eapply returns_only_bind with (P := fun _ => True).
      * intros ? ? ? _. exact I.
      * intros n _. apply returns_only_ret. apply Hstep; auto.
        rewrite Nat.add_comm, Nat.Div0.add_mod, Nat.Div0.mod_mul, Nat.add_0_r,
          Nat.Div0.mod_mod.
        rewrite Nat.mod_small by lia. lia.
Qed.

(** X16. On a source that never returns 0 the noise stage makes exactly six
    draws per pixel, and it keeps the length of the buffer and every alpha
    value. *)
Theorem addDigitalNoise_draws (d : Float32Array) (w h : nat) (intensity : R)
        (t : tape) :
  nonzero_tape t -> (6 * (w * h) <= List.length t)%nat ->
  exists d',
    addDigitalNoise d w h intensity t = Returns d' (skipn (6 * (w * h)) t) /\
    List.length d' = List.length d /\
    forall j, (j mod 4 = 3)%nat -> get d' j = get d j.
Proof.
  intros Hnz Hlen.
  destruct (addDigitalNoise_returns d w h intensity t Hnz Hlen) as (d' & E).
  exists d'. split; [exact E|].
  apply (addDigitalNoise_inv
           (fun a => List.length a = List.length d /\
                     forall j, (j mod 4 = 3)%nat -> get a j = get d j)
           d w h intensity) in E; auto.
  intros a k n wgt Hk (Hl & Ha). split.
  - now rewrite set_length.
  - intros j Hj. rewrite get_set_other by congruence. now apply Ha.
Qed.

Lemma addDigitalNoise_draws_witness :
  exists d',
    addDigitalNoise white_pixel 1 1 1 (repeat 0.5 8)
    = Returns d' (skipn (6 * (1 * 1)) (repeat 0.5 8)) /\
    List.length d' = List.length white_pixel /\
    forall j, (j mod 4 = 3)%nat -> get d' j = get white_pixel j.
Proof.
  apply (addDigitalNoise_draws white_pixel 1 1 1 (repeat 0.5 8)).
  - unfold nonzero_tape. simpl.
    repeat (apply Forall_cons; [lra|]). apply Forall_nil.
  - simpl. lia.
Defined.

(** X17. At intensity 0 the noise stage changes nothing in a buffer of
    values in [0,255], whatever it draws. *)
Theorem addDigitalNoise_zero (d : Float32Array) (w h : nat) (t : tape)
        (d' : Float32Array) (rest : tape) :
  in_range d ->
  addDigitalNoise d w h 0 t = Returns d' rest ->
  d' = d.
Proof.
  intros Hr E.
  apply (addDigitalNoise_inv (fun a => a = d) d w h 0) in E; auto.
  intros a k n wgt _ ->.
  replace (get d k + n * (12 * 0) * wgt) with (get d k) by lra.
  rewrite clamp_id by now apply in_range_at.
  apply set_get_id.
Qed.

Lemma addDigitalNoise_zero_witness :
  exists d' rest,
    addDigitalNoise white_pixel 1 1 0 (repeat 0.5 6) = Returns d' rest /\
    d' = white_pixel.
Proof.
  destruct (addDigitalNoise_returns white_pixel 1 1 0 (repeat 0.5 6))
    as (d' & E).
  - unfold nonzero_tape. simpl.
    repeat (apply Forall_cons; [lra|]). apply Forall_nil.
  - simpl. lia.
  - exists d', (skipn (6 * (1 * 1)) (repeat 0.5 6)). split; [exact E|].
    apply (addDigitalNoise_zero white_pixel 1 1 (repeat 0.5 6) d' _) in E; auto.
    unfold in_range, white_pixel.
    repeat (apply Forall_cons; [lra|]). apply Forall_nil.
Defined.

(* ------------------------------------------------------------------------- *)
(** ** Local contrast, sharpening and bloom at their neutral settings *)

Lemma map_round_trip (bs : list byte) :
  map to_Uint8 (map byte_to_R bs) = bs.
Proof.
  rewrite map_map. rewrite <- (map_id bs) at 2.
  apply map_ext. intros b. apply to_Uint8_byte.
Qed.

Lemma image_eta (image : SkImage) :
  {| width := width image; height := height image; pixels := pixels image |}
  = image.
Proof. now destruct image. Qed.

Lemma localContrast_apply_zero (d lumData blurred : Float32Array) (w h : nat) :
  in_range d -> localContrast_apply d lumData blurred w h 0 = d.
Proof.
  intros Hr. unfold localContrast_apply.
  apply (scan_inv (fun a : Float32Array => a = d)); auto.
  intros x y a _ _ ->. cbv zeta.
  set (lum := get lumData (y * w + x)).
  set (localMean := get blurred ((y * w + x) * 4)).
  assert (E : (if Req_dec_T lum 0 then 1
               else clamp ((localMean + (lum - localMean) * (1 - 0)) / lum) 0 2)
              = 1).
  { destruct (Req_dec_T lum 0) as [|N]; [reflexivity|].
    replace ((localMean + (lum - localMean) * (1 - 0)) / lum) with 1
      by (field; exact N).
    apply clamp_id. lra. }
  rewrite E.
  assert (F : forall k, clamp (get d k * 1) 0 255 = get d k).
  { intros k. rewrite Rmult_1_r. apply clamp_id. now apply in_range_at. }
  rewrite F, set_get_id, F, set_get_id, F, set_get_id. reflexivity.
Qed.

(** X11. With [amount = 0] the local-contrast stage returns the image it was
    given, whatever the blur computes. *)
Theorem reduceLocalContrast_amount_zero (B : SkiaBackend) (image : SkImage)
        (windowSize : R) (out : SkImage) :
  reduceLocalContrast B image 0 windowSize = Ok out -> out = image.
Proof.
  unfold reduceLocalContrast, reduceLocalContrast_buffer. intros E.
  destruct (imageToPixels B image) as [px|] eqn:Epx; [|discriminate].
  apply imageToPixels_dims in Epx as (Ed & Ew & Eh).
  run_result E.
  rewrite Ed, Ew, Eh in E.
  rewrite localContrast_apply_zero in E by apply in_range_bytes.
  apply pixelsToImage_dims in E as (Hw & Hh & Hp).
  rewrite map_round_trip in Hp.
  rewrite <- (image_eta out), <- (image_eta image). congruence.
Qed.

Lemma reduceLocalContrast_amount_zero_witness :
  exists out,
    reduceLocalContrast Soft.backend Soft.edge2x1 0 5 = Ok out /\
    out = Soft.edge2x1.
Proof.
  destruct (reduceLocalContrast_ok Soft.backend Soft_backend_reliable
              Soft.edge2x1 0 5) as (out & E & _); [simpl; lia..|].
  exists out. split; [exact E|].
  exact (reduceLocalContrast_amount_zero Soft.backend Soft.edge2x1 5 out E).
Defined.

Lemma sharpen_loop_neutral (origPx blurPx : Float32Array) (amount : R) :
  in_range origPx ->
  amount = 0 \/ blurPx = origPx ->
  sharpen_loop origPx blurPx amount = origPx.
Proof.
  intros Hr Hn. unfold sharpen_loop.
  apply (for_loop_inv (fun a : Float32Array => a = origPx)); auto.
  intros k a _ ->. destruct (k mod 4 =? 3)%nat; auto.
  replace (get origPx k + (get origPx k - get blurPx k) * amount)
    with (get origPx k)
    by (destruct Hn as [-> | ->]; lra).
  rewrite clamp_id by now apply in_range_at.
  apply set_get_id.
Qed.

(** X14. Sharpening returns the image it was given when the amount is 0, and
    when the blur leaves the image as it is (a flat image). *)
Theorem applyOversharpening_neutral (B : SkiaBackend) (image : SkImage)
        (intensity : R) (out : SkImage) :
  applyOversharpening B image intensity = Ok out ->
  intensity = 0 \/
  (forall blurred,
     applyGaussianBlur B image (pilRadiusToSigma 1.5) = Ok blurred ->
     pixels blurred = pixels image) ->
  out = image.
Proof.
  unfold applyOversharpening, applyOversharpening_buffer. intros E Hn.
  cbn [bind result_Monad ret] in E.
  destruct (applyGaussianBlur B image _) as [blurred|] eqn:Eb; [|discriminate].
  destruct (imageToPixels B image) as [px|] eqn:Epx; [|discriminate].
  destruct (imageToPixels B blurred) as [bpx|] eqn:Ebpx; [|discriminate].
  apply imageToPixels_dims in Epx as (Ed & Ew & Eh).
  apply imageToPixels_dims in Ebpx as (Ebd & _ & _).
  cbn [bind result_Monad ret data px_width px_height] in E.
  rewrite Ed, Ebd, Ew, Eh in E.
  rewrite sharpen_loop_neutral in E.
  - apply pixelsToImage_dims in E as (Hw & Hh & Hp).
    rewrite map_round_trip in Hp.
    rewrite <- (image_eta out), <- (image_eta image). congruence.
  - apply in_range_bytes.
  - destruct Hn as [-> | Hflat]; [left; lra|].
    right. now rewrite (Hflat blurred eq_refl).
Qed.

Lemma applyOversharpening_neutral_witness :
  exists out,
    applyOversharpening Soft.backend Soft.edge2x1 0 = Ok out /\
    out = Soft.edge2x1.
Proof.
  destruct (applyOversharpening_ok Soft.backend Soft_backend_reliable
              Soft.edge2x1 0) as (out & E & _); [simpl; lia..|].
  exists out. split; [exact E|].
  exact (applyOversharpening_neutral Soft.backend Soft.edge2x1 0 out E
           (or_introl eq_refl)).
Defined.

Section LocalContrast.

Variables (d lumData blurred : Float32Array) (w h : nat) (amount : R).
Hypothesis Hd : buffer_of w h d.

Lemma localContrast_apply_pixel (x y : nat) :
  (x < w)%nat -> (y < h)%nat ->
  let out := localContrast_apply d lumData blurred w h amount in
  let lum := get lumData (y * w + x) in
  let localMean := get blurred ((y * w + x) * 4) in
  let lumReduced := localMean + (lum - localMean) * (1 - amount) in
  let ratio := if Req_dec_T lum 0 then 1 else clamp (lumReduced / lum) 0 2 in
  (forall c, (c < 3)%nat ->
     get out (idx x y w c) = clamp (get d (idx x y w c) * ratio) 0 255) /\
  get out (idx x y w 3) = get d (idx x y w 3).
Proof.
  intros Hx Hy. unfold localContrast_apply, idx. cbv zeta.
  match goal with
  | |- context [scan w h ?body d] =>
      destruct (scan_pixelwise w h body d) as (H1 & _ & _);
        [pixel_step | pixel_step | pixel_step |]
  end.
  pose proof (buffer_cell d w h x y 3 Hd Hx Hy ltac:(lia)) as Hb.
  split.
  - intros c Hc. rewrite H1 by (auto; lia).
    destruct c as [|[|[|c]]]; try lia; rewrite ?Nat.add_0_r; cells;
      reflexivity.
  - rewrite H1 by (auto; lia). cells. reflexivity.
Qed.

End LocalContrast.

(** X12. The local-contrast stage multiplies the three colours of a pixel by
    one ratio between 0 and 2 (and clamps): it keeps the hue, at most
    doubles a value, and leaves alpha as it was. *)
Theorem reduceLocalContrast_ratio (B : SkiaBackend) (image : SkImage)
        (amount windowSize : R) (out : PixelData) (x y : nat) :
  reduceLocalContrast_buffer B image amount windowSize = Ok out ->
  buffer_of (width image) (height image) (map byte_to_R (pixels image)) ->
  (x < width image)%nat -> (y < height image)%nat ->
  let d := map byte_to_R (pixels image) in
  exists ratio, 0 <= ratio <= 2 /\
    (forall c, (c < 3)%nat ->
       get (data out) (idx x y (width image) c)
       = clamp (get d (idx x y (width image) c) * ratio) 0 255) /\
    get (data out) (idx x y (width image) 3) = get d (idx x y (width image) 3).
Proof.
  intros E Hd Hx Hy d. unfold reduceLocalContrast_buffer in E.
  destruct (imageToPixels B image) as [px|] eqn:Epx; [|discriminate].
  apply imageToPixels_dims in Epx as (Ed & Ew & Eh).
  run_result E. injection E as <-. cbn [data].
  rewrite Ed, Ew, Eh. fold d.
  match goal with
  | |- context [localContrast_apply d ?l ?b _ _ _] =>
      destruct (localContrast_apply_pixel d l b (width image) (height image)
                  amount Hd x y Hx Hy) as (Hc & Ha);
      set (lum := get l (y * width image + x)) in *;
      set (localMean := get b ((y * width image + x) * 4)) in *
  end.
  cbv zeta in Hc.
  exists (if Req_dec_T lum 0 then 1
          else clamp ((localMean + (lum - localMean) * (1 - amount)) / lum) 0 2).
  split; [|split; [exact Hc | exact Ha]].
  destruct (Req_dec_T lum 0); [lra|]. apply clamp_bounds. lra.
Qed.

Lemma Soft_edge_buffer :
  buffer_of (width Soft.edge2x1) (height Soft.edge2x1)
            (map byte_to_R (pixels Soft.edge2x1)).
Proof. reflexivity. Qed.

Lemma reduceLocalContrast_buffer_ok (B : SkiaBackend) (image : SkImage)
      (amount windowSize : R) :
  reliable B -> (0 < width image)%nat -> (0 < height image)%nat ->
  exists out, reduceLocalContrast_buffer B image amount windowSize = Ok out.
Proof.
  intros HB Hw Hh.
  destruct (reduceLocalContrast_ok B HB image amount windowSize Hw Hh)
    as (im & E & _).
  unfold reduceLocalContrast in E. cbn [bind result_Monad] in E.
  destruct (reduceLocalContrast_buffer B image amount windowSize) as [out|];
    [eauto | discriminate].
Qed.

Lemma reduceLocalContrast_ratio_witness :
  exists out ratio,
    reduceLocalContrast_buffer Soft.backend Soft.edge2x1 1 5 = Ok out /\
    0 <= ratio <= 2 /\
    get (data out) (idx 1 0 2 3)
    = get (map byte_to_R (pixels Soft.edge2x1)) (idx 1 0 2 3).
Proof.
  destruct (reduceLocalContrast_buffer_ok Soft.backend Soft.edge2x1 1 5
              Soft_backend_reliable) as (out & E); [simpl; lia..|].
  destruct (reduceLocalContrast_ratio Soft.backend Soft.edge2x1 1 5 out 1 0
              E Soft_edge_buffer) as (ratio & Hr & _ & Ha);
    [simpl; lia | simpl; lia |].
  exists out, ratio. split; [exact E|]. split; [exact Hr | exact Ha].
Defined.

Section Bloom.

Variables (w h : nat) (opts : BloomOptions).

Lemma bloom_adjusted_pixel (d lumArray crushInfluence : Float32Array)
      (highlightAmount : R) (x y : nat) :
  buffer_of w h d -> (x < w)%nat -> (y < h)%nat ->
  let out := bloom_adjusted d lumArray crushInfluence highlightAmount w h opts in
  let shadowCrushFactor :=
    1.0 + 0.15 * intensity opts * shadowCrushStrength opts
          * (1 + highlightAmount * 2) in
  let crushAmount :=
    Math_pow (clamp (1 - get lumArray (y * w + x) / 128) 0 1) 1.5
    * get crushInfluence (y * w + x) * 0.3 * intensity opts
    * shadowCrushStrength opts * shadowCrushFactor in
  let blackLift := 5 * intensity opts * (2 - shadowCrushStrength opts) in
  List.length out = List.length d /\
  (forall c, (c < 3)%nat ->
     get out (idx x y w c)
     = Math_max (get d (idx x y w c) * (1 - crushAmount)) blackLift) /\
  get out (idx x y w 3) = 255.
Proof.
  intros Hd Hx Hy. unfold bloom_adjusted, idx. cbv zeta.
  match goal with
  | |- context [scan w h ?body ?d0] =>
      destruct (scan_pixelwise w h body d0) as (H1 & _ & H3);
        [pixel_step | pixel_step | pixel_step |]
  end.
  rewrite new_length in H3.
  pose proof (buffer_cell d w h x y 3 Hd Hx Hy ltac:(lia)) as Hb.
  split; [exact H3|]. split.
  - intros c Hc. rewrite H1 by (auto; lia).
    destruct c as [|[|[|c]]]; try lia; rewrite ?Nat.add_0_r;
      repeat first
        [ rewrite get_set_other by lia
        | rewrite get_set_same by (rewrite ?set_length, new_length; lia) ];
      reflexivity.
  - rewrite H1 by (auto; lia).
    repeat first
      [ rewrite get_set_other by lia
      | rewrite get_set_same by (rewrite ?set_length, new_length; lia) ].
    reflexivity.
Qed.

Lemma bloom_composite_pixel (adjusted combinedBloom : Float32Array)
      (len : nat) (x y : nat) :
  len = (w * h * 4)%nat -> (x < w)%nat -> (y < h)%nat ->
  let out := bloom_composite adjusted combinedBloom len w h opts in
  let screenAmount := 0.5 * intensity opts * bloomStrength opts in
  let additiveAmount := 0.25 * intensity opts * bloomStrength opts in
  let raw c :=
    (1 - (1 - get adjusted (idx x y w c) / 255)
         * (1 - get combinedBloom (idx x y w c) / 255 * screenAmount)) * 255
    + get combinedBloom (idx x y w c) * additiveAmount in
  let bmask :=
    clamp ((get combinedBloom (idx x y w 0) + get combinedBloom (idx x y w 1)
            + get combinedBloom (idx x y w 2)) / 765) 0 1 in
  get out (idx x y w 0)
  = clamp (raw 0%nat + bmask * 8 * intensity opts * bloomStrength opts) 0 255 /\
  get out (idx x y w 1) = clamp (raw 1%nat) 0 255 /\
  get out (idx x y w 2)
  = clamp (raw 2%nat + bmask * 4 * intensity opts * bloomStrength opts) 0 255 /\
  get out (idx x y w 3) = 255.
Proof.
  intros Hlen Hx Hy. unfold bloom_composite, idx. cbv zeta.
  cbn [for_loop].
  match goal with
  | |- context [scan w h ?body ?d0] =>
      destruct (scan_pixelwise w h body d0) as (H1 & _ & _);
        [pixel_step | pixel_step | pixel_step |]
  end.
  assert (Hb : ((y * w + x) * 4 + 3 < len)%nat) by nia.
  rewrite !H1 by (auto; lia). rewrite !Nat.add_0_r.
  repeat first
    [ rewrite get_set_other by lia
    | rewrite get_set_same by (rewrite ?set_length, new_length; lia) ].
  auto.
Qed.

End Bloom.

(** X13. With [bloomStrength = 0] and [shadowCrushStrength = 0] the bloom
    stage does not depend on any blur: every colour value becomes the
    larger of itself and the black lift [5 * intensity * 2], clamped, and
    alpha becomes 255. *)
Theorem applyBloomEffect_zero_strength (B : SkiaBackend) (image : SkImage)
        (opts : BloomOptions) (out : PixelData) (x y : nat) :
  applyBloomEffect_buffer B image opts = Ok out ->
  bloomStrength opts = 0 -> shadowCrushStrength opts = 0 ->
  buffer_of (width image) (height image) (map byte_to_R (pixels image)) ->
  (x < width image)%nat -> (y < height image)%nat ->
  let d := map byte_to_R (pixels image) in
  (forall c, (c < 3)%nat ->
     get (data out) (idx x y (width image) c)
     = clamp (Math_max (get d (idx x y (width image) c))
                       (5 * intensity opts * 2)) 0 255) /\
  get (data out) (idx x y (width image) 3) = 255.
Proof.
  intros E Hbs Hscs Hd Hx Hy d. unfold applyBloomEffect_buffer in E.
  destruct (imageToPixels B image) as [px|] eqn:Epx; [|discriminate].
  apply imageToPixels_dims in Epx as (Ed & Ew & Eh).
  cbn [bind result_Monad ret] in E.
  destruct (bloom_masks _ _ _ _) as [lumArray highlightMask].
  run_result E. injection E as <-. cbn [data].
  rewrite Ed, Ew, Eh. fold d.
  match goal with
  | |- context [bloom_composite (bloom_adjusted d ?l ?ci ?ha _ _ _) ?cb _ _ _ _] =>
      destruct (bloom_composite_pixel (width image) (height image) opts
                  (bloom_adjusted d l ci ha (width image) (height image) opts)
                  cb (List.length d) x y Hd Hx Hy) as (C0 & C1 & C2 & C3);
      destruct (bloom_adjusted_pixel (width image) (height image) opts
                  d l ci ha x y Hd Hx Hy) as (_ & A & _)
  end.
  cbv zeta in C0, C1, C2, A. split; [|exact C3].
  intros c Hc.
  destruct c as [|[|[|c]]]; try lia;
    [rewrite C0 | rewrite C1 | rewrite C2];
    rewrite (A _ Hc), Hbs, Hscs;
    match goal with
    | |- clamp ?X 0 255 = clamp ?Y 0 255 =>
        match X with
        | context [Math_max ?p ?q] =>
            replace (Math_max p q) with Y by (f_equal; lra)
        end
    end;
    f_equal; lra.
Qed.

Lemma applyBloomEffect_zero_strength_witness :
  exists out,
    applyBloomEffect_buffer Soft.backend Soft.edge2x1 (bloom_params 0.8 0)
    = Ok out /\
    get (data out) (idx 1 0 2 3) = 255.
Proof.
  destruct (applyBloomEffect_buffer_ok Soft.backend Soft.edge2x1
              (bloom_params 0.8 0) Soft_backend_reliable) as (out & E);
    [simpl; lia..|].
  exists out. split; [exact E|].
  refine (proj2 (applyBloomEffect_zero_strength Soft.backend Soft.edge2x1
                   (bloom_params 0.8 0) out 1 0 E eq_refl eq_refl
                   Soft_edge_buffer _ _)); simpl; lia.
Defined.

(* ------------------------------------------------------------------------- *)
(** ** What the stages and the pipeline never touch, and how they fail *)

Ltac alpha_sets :=
  repeat match goal with
         | |- context [if ?c then _ else _] => destruct c
         end;
  repeat (rewrite get_set_other
            by (intros ->;
                repeat match goal with
                       | H : ((_ * 4 + _) mod 4 = 3)%nat |- _ =>
                           rewrite Nat.add_comm, Nat.Div0.mod_add in H;
                           simpl in H
                       | H : ((_ * 4) mod 4 = 3)%nat |- _ =>
                           rewrite Nat.Div0.mod_mul in H
                       end; lia));
  auto.

(** X10. None of the stages that work on a buffer in place writes an alpha
    cell. *)
Theorem in_place_stages_keep_alpha (d : Float32Array) (w h : nat)
        (p : R) (lumData blurred : Float32Array) (j : nat) :
  (j mod 4 = 3)%nat ->
  get (applyCoolCast d w h p) j = get d j /\
  get (adjustSaturation d w h p) j = get d j /\
  get (adjustVibrance d w h p) j = get d j /\
  get (reduceDynamicRange d w h p) j = get d j /\
  get (localContrast_apply d lumData blurred w h p) j = get d j /\
  get (addChromaticAberration d w h p) j = get d j /\
  get (sharpen_loop d blurred p) j = get d j.
Proof.
  intros Hj.
  assert (S : forall (body : nat -> nat -> Float32Array -> Float32Array),
             (forall x y a, get (body x y a) j = get a j) ->
             get (scan w h body d) j = get d j).
  { intros body Hb.
    apply (scan_inv (fun a : Float32Array => get a j = get d j)); auto.
    intros x y a _ _ Ha. now rewrite Hb. }
  assert (L : forall n (body : nat -> Float32Array -> Float32Array),
             (forall i a, get (body i a) j = get a j) ->
             get (for_loop n body d) j = get d j).
  { intros n body Hb.
    apply (for_loop_inv (fun a : Float32Array => get a j = get d j)); auto.
    intros i a _ Ha. now rewrite Hb. }
  repeat split.
  - unfold applyCoolCast. apply S. intros x y a. cbv zeta. alpha_sets.
  - unfold adjustSaturation. apply S. intros x y a. cbv zeta. alpha_sets.
  - unfold adjustVibrance. destruct (Req_dec_T p 1.0); auto.
    apply S. intros x y a. cbv zeta. alpha_sets.
  - unfold reduceDynamicRange. apply L. intros i a.
    destruct (Nat.eqb_spec (i mod 4) 3); auto.
    rewrite get_set_other; congruence.
  - unfold localContrast_apply. apply S. intros x y a. cbv zeta. alpha_sets.
  - unfold addChromaticAberration.
    destruct (Math_floor (2 * p) <? 1)%Z; auto.
    apply S. intros x y a. cbv zeta. alpha_sets.
  - unfold sharpen_loop. apply L. intros i a.
    destruct (Nat.eqb_spec (i mod 4) 3); auto.
    rewrite get_set_other; congruence.
Qed.

Lemma in_place_stages_keep_alpha_witness :
  get (applyCoolCast buffer2x2 2 2 1) 7 = get buffer2x2 7.
Proof.
  exact (proj1 (in_place_stages_keep_alpha buffer2x2 2 2 1 [] [] 7 eq_refl)).
Defined.

(** The alpha fill of the distortion reaches every alpha cell. *)
Lemma alpha_fill_all (n j : nat) :
  (j mod 4 = 3)%nat -> (j < n)%nat ->
  get (for_step4 3 n (fun i r => set r i 255) (new_Float32Array n)) j = 255.
Proof.
  intros Hm Hj. unfold for_step4.
  replace ((n + 3 - 3) / 4)%nat with (n / 4)%nat by (f_equal; lia).
  destruct (for_loop_block 4 (n / 4) n
              (fun k r => set r (3 + 4 * k) 255)
              (new_Float32Array n) (new_length _)) as (H1 & _ & _).
  - intros q d _ Hd. now rewrite set_length.
  - intros q d i _ _ Hi. apply get_set_other. lia.
  - intros q d d' k _ Hd Hd' Hag Hk.
    rewrite !get_set, Hd, Hd'. now rewrite Hag.
  - pose proof (Nat.div_mod_eq j 4) as Ej. rewrite Hm in Ej.
    assert (Hq : (j / 4 < n / 4)%nat).
    { apply Nat.div_le_lower_bound; lia. }
    rewrite Ej at 1. rewrite H1 by (auto; lia).
    replace (4 * (j / 4) + 3)%nat with (3 + 4 * (j / 4))%nat by lia.
    rewrite get_set_same; [reflexivity|]. rewrite new_length. lia.
Qed.

Lemma applyBarrelDistortion_alpha (d : Float32Array) (w h : nat) (i : R)
      (j : nat) :
  (j mod 4 = 3)%nat -> (j < List.length d)%nat ->
  get (applyBarrelDistortion d w h i) j = 255.
Proof.
  intros Hm Hj. unfold applyBarrelDistortion. cbv zeta. rewrite new_length.
  apply (scan_inv (fun a : Float32Array => get a j = 255)).
  - now apply alpha_fill_all.
  - intros x y a _ _ Ha. alpha_sets.
Qed.

Lemma applyBarrelDistortion_length (d : Float32Array) (w h : nat) (i : R) :
  List.length (applyBarrelDistortion d w h i) = List.length d.
Proof.
  unfold applyBarrelDistortion. cbv zeta. rewrite new_length.
  apply scan_set_length.
  - unfold for_step4.
    apply (for_loop_inv (fun a : Float32Array => List.length a = List.length d)).
    + apply new_length.
    + intros k a _ Ha. now rewrite set_length.
  - intros x y a Ha. now rewrite !set_length.
Qed.

Lemma bind_inv {A C : Type} (m : Rand A) (k : A -> Rand C) t c rest :
  bind m k t = Returns c rest ->
  exists a t', m t = Returns a t' /\ k a t' = Returns c rest.
Proof.
  simpl. destruct (m t) as [a t'| |]; try discriminate. eauto.
Qed.

Lemma lift_inv {A : Type} (r : result A) t a rest :
  lift r t = Returns a rest -> r = Ok a /\ rest = t.
Proof.
  unfold lift. destruct r; [|discriminate].
  intros E. injection E as -> ->. auto.
Qed.

(** X21. The image that steps 1 to 9 hand to the JPEG step is fully opaque,
    whatever the alpha of the source: every alpha byte is 255. *)
Theorem pipeline_stages_opaque (B : SkiaBackend) (sourceImage : SkImage)
        (intensity : R) (t : tape) (image : SkImage) (rest : tape) (j : nat) :
  pipeline_stages B sourceImage intensity t = Returns image rest ->
  (j mod 4 = 3)%nat -> (j < List.length (pixels image))%nat ->
  nth j (pixels image) "000"%byte = "255"%byte.
Proof.
  intros E Hm Hj. unfold pipeline_stages in E.
  repeat match type of E with
         | bind _ _ _ = Returns _ _ =>
             let a := fresh "a" in
             let t' := fresh "t" in
             let E1 := fresh "E" in
             apply bind_inv in E; destruct E as (a & t' & E1 & E)
         end.
  cbv zeta in E. apply lift_inv in E as (E & _).
  apply pixelsToImage_dims in E as (_ & _ & Ep).
  rewrite Ep in Hj |- *. rewrite length_map in Hj.
  rewrite (nth_indep _ "000"%byte (to_Uint8 0)) by (now rewrite length_map).
  rewrite (map_nth to_Uint8).
  match goal with
  | |- to_Uint8 (nth j ?l 0) = _ => change (nth j l 0) with (get l j)
  end.
  rewrite applyBarrelDistortion_alpha; [apply to_Uint8_255 | exact Hm |].
  rewrite applyBarrelDistortion_length in Hj. exact Hj.
Qed.

(** Steps 1 to 9 keep the number of bytes of an image that step 1 does not
    resize. *)
Lemma pipeline_stages_count (B : SkiaBackend) (sourceImage : SkImage)
      (intensity : R) (t : tape) (image : SkImage) (rest : tape) :
  (Z.of_nat (width sourceImage) * Z.of_nat (height sourceImage) <= 2000000)%Z ->
  pipeline_stages B sourceImage intensity t = Returns image rest ->
  List.length (pixels image) = List.length (pixels sourceImage).
Proof.
  intros Hsmall E. unfold pipeline_stages in E.
  repeat match type of E with
         | bind _ _ _ = Returns _ _ =>
             let a := fresh "a" in
             let t' := fresh "t" in
             let E1 := fresh "E" in
             apply bind_inv in E; destruct E as (a & t' & E1 & E)
         end.
  cbv zeta in E.
  repeat match goal with
         | H : lift _ _ = Returns _ _ |- _ => apply lift_inv in H as (H & _)
         end.
  unfold pipeline_reduceResolution, reduceResolution in E0.
  apply Z.leb_le in Hsmall. rewrite Hsmall in E0. injection E0 as <-.
  repeat match goal with
         | H : imageToPixels B _ = Ok _ |- _ =>
             apply imageToPixels_count in H
         | H : pixelsToImage B _ _ _ = Ok _ |- _ =>
             apply pixelsToImage_count in H
         | H : reduceLocalContrast B _ _ _ = Ok _ |- _ =>
             apply reduceLocalContrast_count in H
         | H : applyBloomEffect B _ _ = Ok _ |- _ =>
             apply applyBloomEffect_count in H
         | H : pipeline_oversharpening B _ _ = Ok _ |- _ =>
             apply applyOversharpening_count in H
         end.
  match goal with
  | H : addDigitalNoise ?d _ _ _ _ = Returns _ _ |- _ =>
      apply (addDigitalNoise_inv
               (fun a => List.length a = List.length d)) in H;
        [| reflexivity | intros; now rewrite set_length]
  end.
  rewrite applyBarrelDistortion_length in E.
  rewrite pipeline_colorGrade_length, addChromaticAberration_length in *.
  congruence.
Qed.

Lemma half_tape_nonzero (n : nat) : nonzero_tape (repeat 0.5 n).
Proof.
  unfold nonzero_tape. induction n; simpl; constructor; auto. lra.
Qed.

Lemma pipeline_stages_opaque_witness :
  exists image rest,
    pipeline_stages Soft.backend Soft.gray1x1 1 (repeat 0.5 6)
    = Returns image rest /\
    nth 3 (pixels image) "000"%byte = "255"%byte.
Proof.
  destruct (pipeline_stages_returns Soft.backend Soft_backend_reliable
              Soft.gray1x1 1 (repeat 0.5 6)) as (image & E & _);
    [simpl; lia | simpl; lia | simpl; lia | apply half_tape_nonzero
    | simpl; lia |].
  exists image, (skipn (6 * (width Soft.gray1x1 * height Soft.gray1x1))
                       (repeat 0.5 6)).
  split; [exact E|].
  apply (pipeline_stages_opaque Soft.backend Soft.gray1x1 1 _ image _ 3 E
           eq_refl).
  rewrite (pipeline_stages_count Soft.backend Soft.gray1x1 1 _ image _
             ltac:(simpl; lia) E).
  simpl. lia.
Defined.

(** X22. A failure of Skia to read or to create pixel data aborts the whole
    effect with the message of the helper that failed, before anything is
    drawn from [Math.random]. *)
Theorem applyY2KCameraEffect_throws (B : SkiaBackend) (sourceImage : SkImage)
        (options : Y2KOptions) (t : tape) :
  (Z.of_nat (width sourceImage) * Z.of_nat (height sourceImage) <= 2000000)%Z ->
  (readPixels_ok B sourceImage = false ->
   applyY2KCameraEffect B sourceImage options t
   = Throws "Failed to read pixels from SkImage") /\
  (readPixels_ok B sourceImage = true ->
   (forall w h bs, MakeImage_ok B w h bs = false) ->
   applyY2KCameraEffect B sourceImage options t
   = Throws "Failed to create SkImage from pixel data").
Proof.
  intros Hsmall. apply Z.leb_le in Hsmall.
  unfold applyY2KCameraEffect, pipeline_stages, pipeline_reduceResolution,
    reduceResolution. cbv zeta. rewrite Hsmall.
  split.
  - intros Hr. cbn [bind Rand_Monad lift]. unfold imageToPixels.
    rewrite Hr. reflexivity.
  - intros Hr Hm. cbn [bind Rand_Monad lift]. unfold imageToPixels.
    rewrite Hr. unfold lift at 1. cbv beta iota.
    unfold pixelsToImage. cbv zeta. rewrite Hm. reflexivity.
Qed.

Lemma applyY2KCameraEffect_throws_witness :
  let B := {| Surface_Make := Surface_Make Soft.backend;
              readPixels_ok := fun _ => false;
              MakeImage_ok := MakeImage_ok Soft.backend;
              drawImageRect := drawImageRect Soft.backend;
              MakeBlur := MakeBlur Soft.backend;
              encodeToBytes := encodeToBytes Soft.backend;
              MakeImageFromEncoded := MakeImageFromEncoded Soft.backend;
              measureText := measureText Soft.backend;
              drawText := drawText Soft.backend |} in
  applyY2KCameraEffect B Soft.gray1x1 Soft.no_options []
  = Throws "Failed to read pixels from SkImage".
Proof.
  intros B.
  refine (proj1 (applyY2KCameraEffect_throws B Soft.gray1x1 Soft.no_options
                   [] _) eq_refl).
  simpl. lia.
Defined.

(** X24. The effect asks the encoder for one quality only,
    [Math.round(70 - 30 * intensity)], and the [outputQuality] option never
    reaches it: a run is the same on a backend whose encoder differs at
    every other quality, and with any other [outputQuality]. *)
Theorem encoder_quality_only (B : SkiaBackend)
        (encode : SkImage -> Z -> option (list byte))
        (sourceImage : SkImage) (options : Y2KOptions) (q : option Z)
        (t : tape) :
  let quality := Math_round (70 - 30 * default (opt_intensity options) 1.0) in
  (forall image, encode image quality = encodeToBytes B image quality) ->
  applyY2KCameraEffect
    {| Surface_Make := Surface_Make B;
       readPixels_ok := readPixels_ok B;
       MakeImage_ok := MakeImage_ok B;
       drawImageRect := drawImageRect B;
       MakeBlur := MakeBlur B;
       encodeToBytes := encode;
       MakeImageFromEncoded := MakeImageFromEncoded B;
       measureText := measureText B;
       drawText := drawText B |}
    sourceImage
    {| opt_intensity := opt_intensity options;
       opt_addDateStamp := opt_addDateStamp options;
       opt_dateStampText := opt_dateStampText options;
       opt_outputQuality := q |} t
  = applyY2KCameraEffect B sourceImage options t.
Proof.
  intros quality H. unfold applyY2KCameraEffect.
  cbn [opt_intensity opt_addDateStamp opt_dateStampText opt_outputQuality].
  cbv zeta. cbn [bind Rand_Monad].
  set (B' := {| Surface_Make := Surface_Make B;
                readPixels_ok := readPixels_ok B;
                MakeImage_ok := MakeImage_ok B;
                drawImageRect := drawImageRect B;
                MakeBlur := MakeBlur B;
                encodeToBytes := encode;
                MakeImageFromEncoded := MakeImageFromEncoded B;
                measureText := measureText B;
                drawText := drawText B |}).
  change (pipeline_stages B' sourceImage (default (opt_intensity options) 1.0) t)
    with (pipeline_stages B sourceImage (default (opt_intensity options) 1.0) t).
  destruct (pipeline_stages B sourceImage _ t) as [image rest| |]; auto.
  assert (E : applyJpegArtifacts B' image (default (opt_intensity options) 1.0)
              = applyJpegArtifacts B image (default (opt_intensity options) 1.0)).
  { unfold applyJpegArtifacts. cbv zeta. cbn [encodeToBytes B']. fold quality.
    rewrite H. reflexivity. }
  rewrite E. reflexivity.
Qed.

Lemma encoder_quality_only_witness :
  let quality := Math_round (70 - 30 * 1.0) in
  let encode := fun (_ : SkImage) (q : Z) =>
                  if (q =? quality)%Z then None else Some [] in
  applyY2KCameraEffect
    {| Surface_Make := Surface_Make Soft.backend;
       readPixels_ok := readPixels_ok Soft.backend;
       MakeImage_ok := MakeImage_ok Soft.backend;
       drawImageRect := drawImageRect Soft.backend;
       MakeBlur := MakeBlur Soft.backend;
       encodeToBytes := encode;
       MakeImageFromEncoded := MakeImageFromEncoded Soft.backend;
       measureText := measureText Soft.backend;
       drawText := drawText Soft.backend |}
    Soft.gray1x1
    {| opt_intensity := None;
       opt_addDateStamp := None;
       opt_dateStampText := None;
       opt_outputQuality := Some 10%Z |} (repeat 0.5 9)
  = applyY2KCameraEffect Soft.backend Soft.gray1x1 Soft.no_options
                         (repeat 0.5 9).
Proof.
  intros quality encode.
  apply (encoder_quality_only Soft.backend encode Soft.gray1x1 Soft.no_options
           (Some 10%Z) (repeat 0.5 9)).
  intros image. unfold encode. cbn [default opt_intensity Soft.no_options].
  fold quality. rewrite Z.eqb_refl. reflexivity.
Defined.

(** X20. For an intensity in [0,1] the JPEG step asks the encoder for an
    integer quality between 40 and 70 (70 at intensity 0, 40 at intensity
    1), and it returns the decoded image when encoding and decoding both
    succeed. *)
Theorem applyJpegArtifacts_quality (B : SkiaBackend) (image : SkImage)
        (intensity : R) :
  0 <= intensity <= 1 ->
  exists quality : Z,
    (40 <= quality <= 70)%Z /\
    (intensity = 0 -> quality = 70%Z) /\
    (intensity = 1 -> quality = 40%Z) /\
    (encodeToBytes B image quality = None ->
     applyJpegArtifacts B image intensity = image) /\
    forall encoded decoded,
      encodeToBytes B image quality = Some encoded ->
      MakeImageFromEncoded B encoded = Some decoded ->
      applyJpegArtifacts B image intensity = decoded.
Proof.
  intros Hi. exists (Math_round (70 - 30 * intensity)).
  pose proof (Zfloor_bound (70 - 30 * intensity + 0.5)) as [H1 H2].
  fold (Math_round (70 - 30 * intensity)) in H1, H2.
  split; [|split; [|split; [|split]]].
  - split.
    + assert (39 < Math_round (70 - 30 * intensity))%Z
        by (apply lt_IZR; lra). lia.
    + apply Math_round_le. lra.
  - intros ->. apply Math_round_eq. lra.
  - intros ->. apply Math_round_eq. lra.
  - intros E. unfold applyJpegArtifacts. cbv zeta. now rewrite E.
  - intros encoded decoded E1 E2. unfold applyJpegArtifacts. cbv zeta.
    now rewrite E1, E2.
Qed.

Lemma applyJpegArtifacts_quality_witness :
  exists quality : Z,
    (40 <= quality <= 70)%Z /\
    (encodeToBytes Soft.backend Soft.gray1x1 quality = None ->
     applyJpegArtifacts Soft.backend Soft.gray1x1 0.5 = Soft.gray1x1).
Proof.
  destruct (applyJpegArtifacts_quality Soft.backend Soft.gray1x1 0.5)
    as (q & Hq & _ & _ & Hn & _); [lra|].
  exists q. split; [exact Hq | exact Hn].
Defined.

(** X23. On a backend whose allocations succeed and a source that never
    returns 0, a run on an image of at most 2,000,000 pixels draws exactly
    six numbers per pixel for the noise, and three more when it generates
    the date of the stamp; with a caller-supplied text or without the stamp
    it draws nothing more. *)
Theorem applyY2KCameraEffect_draw_count (B : SkiaBackend)
        (sourceImage : SkImage) (options : Y2KOptions) (t : tape) :
  reliable B ->
  (0 < width sourceImage)%nat -> (0 < height sourceImage)%nat ->
  (Z.of_nat (width sourceImage) * Z.of_nat (height sourceImage) <= 2000000)%Z ->
  nonzero_tape t ->
  (6 * (width sourceImage * height sourceImage) + 3 <= List.length t)%nat ->
  let noise := (6 * (width sourceImage * height sourceImage))%nat in
  let date :=
    match default (opt_addDateStamp options) true,
          opt_dateStampText options with
    | true, None => 3%nat
    | _, _ => 0%nat
    end in
  exists out,
    applyY2KCameraEffect B sourceImage options t
    = Returns out (skipn (noise + date) t).
Proof.
  intros HB Hw Hh Hsmall Hnz Hlen noise date.
  unfold applyY2KCameraEffect.
  destruct (pipeline_stages_returns B HB sourceImage
              (default (opt_intensity options) 1.0) t)
    as (image & E & _ & _); auto; [lia|].
  cbv zeta. rewrite (bind_Returns _ _ _ _ _ E).
  unfold pipeline_finish, drawImageToSurface.
  cbn [bind result_Monad ret]. rewrite (makeSurface_ok B HB) by auto.
  rewrite (bind_Returns _ _ _ _ _ (lift_Ok _ _ _ eq_refl)).
  unfold date, noise.
  destruct (default (opt_addDateStamp options) true).
  2:{ rewrite Nat.add_0_r. simpl. eauto. }
  unfold addDateStamp.
  cbn [makeImageSnapshot width height surf_width surf_height].
  rewrite !Nat2Z.id. rewrite (makeSurface_ok B HB) by auto.
  rewrite (bind_Returns _ _ _ _ _ (lift_Ok _ _ _ eq_refl)).
  destruct (opt_dateStampText options) as [text|].
  - rewrite Nat.add_0_r. simpl. eauto.
  - rewrite Nat.add_comm, <- skipn_skipn.
    set (t' := skipn _ t).
    assert (Hl : (3 <= List.length t')%nat).
    { unfold t'. rewrite length_skipn. lia. }
    destruct t' as [|u1 [|u2 [|u3 t']]]; simpl in Hl; try lia.
    simpl. eauto.
Qed.

Lemma applyY2KCameraEffect_draw_count_witness :
  exists out,
    applyY2KCameraEffect Soft.backend Soft.gray1x1 Soft.no_options
                         (repeat 0.5 12)
    = Returns out (skipn (6 * (1 * 1) + 3) (repeat 0.5 12)).
Proof.
  apply (applyY2KCameraEffect_draw_count Soft.backend Soft.gray1x1
           Soft.no_options (repeat 0.5 12) Soft_backend_reliable);
    [simpl; lia | simpl; lia | simpl; lia | apply half_tape_nonzero
    | simpl; lia].
Defined.

(* ------------------------------------------------------------------------- *)
(** ** The hook *)


Section HookRuns.

Variable B : SkiaBackend.
Variable env : HookEnv.

Local Abbreviation step := (hook_step B env).
Local Abbreviation run := (hook_run B env).

Lemma hook_run_app (w : World) (es1 es2 : list Event) :
  run w (es1 ++ es2)
  = match run w es1 with
    | Some w' => run w' es2
    | None => None
    end.
Proof.
  revert w. induction es1 as [|e es1 IH]; intros w; simpl; auto.
  destruct (step w e); auto.
Qed.

Lemma pending_lookup_id (id : nat) (l : list Pending) (p : Pending) :
  pending_lookup id l = Some p -> pending_id p = id /\ In p l.
Proof.
  induction l as [|q l IH]; simpl; [discriminate|].
  destruct (Nat.eqb_spec (pending_id q) id) as [E|N].
  - intros [= ->]. auto.
  - intros H. destruct (IH H). auto.
Qed.

Lemma pending_lookup_drop (id id' : nat) (l : list Pending) :
  pending_lookup id (pending_drop id' l)
  = if (id' =? id)%nat then None else pending_lookup id l.
Proof.
  unfold pending_drop. induction l as [|q l IH]; simpl.
  - now destruct (id' =? id)%nat.
  - destruct (Nat.eqb_spec (pending_id q) id') as [E|N]; simpl.
    + rewrite IH. destruct (Nat.eqb_spec id' id) as [E'|N']; auto.
      destruct (Nat.eqb_spec (pending_id q) id); auto. congruence.
    + rewrite IH. destruct (Nat.eqb_spec (pending_id q) id) as [E'|N'].
      * destruct (Nat.eqb_spec id' id); auto. congruence.
      * reflexivity.
Qed.

Lemma pending_lookup_fresh (id : nat) (l : list Pending) (p : Pending) :
  Forall (fun q => pending_id q <> id) l -> pending_id p = id ->
  pending_lookup id (l ++ [p]) = Some p.
Proof.
  intros Hl Hp. induction l as [|q l IH]; simpl.
  - rewrite Hp, Nat.eqb_refl. reflexivity.
  - inversion Hl; subst.
    destruct (Nat.eqb_spec (pending_id q) (pending_id p)); [contradiction|].
    now apply IH.
Qed.

Lemma pending_lookup_none (id : nat) (l : list Pending) :
  Forall (fun q => pending_id q <> id) l -> pending_lookup id l = None.
Proof.
  intros Hl. induction l as [|q l IH]; simpl; auto.
  inversion Hl; subst.
  destruct (Nat.eqb_spec (pending_id q) id); [contradiction|]. now apply IH.
Qed.

Lemma Forall_drop (P : Pending -> Prop) (id : nat) (l : list Pending) :
  Forall P l -> Forall P (pending_drop id l).
Proof.
  intros H. unfold pending_drop. apply Forall_forall. intros p Hp.
  apply filter_In in Hp as [Hp _]. rewrite Forall_forall in H. auto.
Qed.

Lemma catch_requestId id message s :
  requestIdRef (processImage_catch id message s) = requestIdRef s.
Proof. unfold processImage_catch. now destruct (id =? requestIdRef s)%nat. Qed.

Lemma bounded_step (w w' : World) (e : Event) :
  hook_bounded w -> step w e = Some w' -> hook_bounded w'.
Proof.
  unfold hook_bounded. intros Hb E. destruct e as [input| |id draws]; simpl in E.
  - injection E as <-. simpl. apply Forall_app. split.
    + eapply Forall_impl; [|exact Hb]. simpl. intros; lia.
    + constructor; [simpl; lia | constructor].
  - injection E as <-. simpl.
    eapply Forall_impl; [|exact Hb]. simpl. intros; lia.
  - destruct (pending_lookup id (w_pending w)) as [[i input|i input src]|] eqn:El;
      [| |discriminate].
    + injection E as <-.
      apply pending_lookup_id in El as (Ei & Hin). simpl in Ei. subst i.
      unfold processImage_loaded.
      destruct (loadSkImage B env input) as [src|message]; simpl.
      * destruct (Nat.eqb_spec id (requestIdRef (w_hook w))); simpl.
        -- constructor; [simpl; lia | now apply Forall_drop].
        -- now apply Forall_drop.
      * rewrite catch_requestId. now apply Forall_drop.
    + apply pending_lookup_id in El as (Ei & Hin). simpl in Ei. subst i.
      unfold processImage_timeout in E.
      destruct (applyY2KCameraEffect B src _ draws) as [processed rest|message|];
        [| |discriminate].
      * destruct (Nat.eqb_spec id (requestIdRef (w_hook w)));
          simpl in E; injection E as <-; simpl; now apply Forall_drop.
      * injection E as <-. simpl. rewrite catch_requestId.
        now apply Forall_drop.
Qed.

Lemma bounded_run (es : list Event) (w w' : World) :
  hook_bounded w -> run w es = Some w' -> hook_bounded w'.
Proof.
  revert w. induction es as [|e es IH]; intros w Hb E; simpl in E.
  - now injection E as <-.
  - destruct (step w e) as [w1|] eqn:E1; [|discriminate].
    eapply IH; [|exact E]. eapply bounded_step; eauto.
Qed.

Lemma bounded_initial : hook_bounded hook_initial.
Proof. constructor. Qed.

End HookRuns.

Section HookProperties.

Variable B : SkiaBackend.
Variable env : HookEnv.

Local Abbreviation step := (hook_step B env).
Local Abbreviation run := (hook_run B env).

Lemma quiet_resume (w w' : World) (id : nat) (draws : tape) :
  hook_quiet w -> step w (Resume id draws) = Some w' -> hook_quiet w'.
Proof.
  unfold hook_quiet. intros (Hr & He & Hp & Hs) E. simpl in E.
  destruct (pending_lookup id (w_pending w)) as [[i input|i input src]|] eqn:El;
    [| |discriminate];
    apply pending_lookup_id in El as (Ei & Hin); simpl in Ei; subst i;
    assert (Hid : (id < requestIdRef (w_hook w))%nat)
      by (rewrite Forall_forall in Hs; apply (Hs _ Hin)).
  - injection E as <-. unfold processImage_loaded, processImage_catch.
    destruct (loadSkImage B env input) as [src|message];
      destruct (Nat.eqb_spec id (requestIdRef (w_hook w))); try lia; simpl;
      repeat split; auto; now apply Forall_drop.
  - unfold processImage_timeout, processImage_catch in E.
    destruct (applyY2KCameraEffect B src _ draws) as [processed rest|message|];
      [| |discriminate];
      destruct (Nat.eqb_spec id (requestIdRef (w_hook w))); try lia;
      simpl in E; injection E as <-; simpl;
      repeat split; auto; now apply Forall_drop.
Qed.

Lemma quiet_run (es : list Event) (w w' : World) :
  only_resumes es -> hook_quiet w -> run w es = Some w' -> hook_quiet w'.
Proof.
  revert w. induction es as [|e es IH]; intros w Hes Hq E; simpl in E.
  - now injection E as <-.
  - inversion Hes as [|e' es' He Hes']; subst.
    destruct (step w e) as [w1|] eqn:E1; [|discriminate].
    destruct e as [input| |id draws]; try contradiction.
    eapply IH; [exact Hes' | | exact E].
    eapply quiet_resume; eauto.
Qed.

(** X27. [reset] is final.  Whatever was called before and whichever calls
    are still in flight, once [reset] has run and until [processImage] is
    called again, no call that finishes changes the hook: there is no
    result, no error, and processing is off. *)
Theorem reset_is_final (es1 es2 : list Event) (w : World) :
  run hook_initial (es1 ++ Call_reset :: es2) = Some w ->
  only_resumes es2 ->
  st_result (w_hook w) = None /\ st_error (w_hook w) = None /\
  st_processing (w_hook w) = false.
Proof.
  intros E Hes. rewrite hook_run_app in E.
  destruct (run hook_initial es1) as [w1|] eqn:E1; [|discriminate].
  pose proof (bounded_run B env es1 _ _ bounded_initial E1) as Hb.
  simpl in E.
  assert (Hq : hook_quiet {| w_hook := reset (w_hook w1);
                        w_pending := w_pending w1;
                        w_resolved := w_resolved w1 |}).
  { simpl. repeat split; auto.
    unfold hook_bounded in Hb.
    eapply Forall_impl; [|exact Hb]. simpl. intros; lia. }
  destruct (quiet_run es2 _ w Hes Hq E) as (Hr & He & Hp & _). auto.
Qed.

Lemma options_eta (o : Y2KOptions) :
  {| opt_intensity := opt_intensity o;
     opt_addDateStamp := opt_addDateStamp o;
     opt_dateStampText := opt_dateStampText o;
     opt_outputQuality := opt_outputQuality o |} = o.
Proof. now destruct o. Qed.

Lemma serving_resume (id : nat) (input : ProcessImageInput)
      (r0 : option SkImage) (w w' : World) (id' : nat) (draws : tape) :
  hook_serving B env id input r0 w -> step w (Resume id' draws) = Some w' ->
  hook_serving B env id input r0 w'.
Proof.
  unfold hook_serving. intros (Hid & Hs) E. simpl in E.
  destruct (pending_lookup id' (w_pending w)) as [p|] eqn:El; [|discriminate].
  pose proof (pending_lookup_id _ _ _ El) as (Ei & _).
  destruct (Nat.eq_dec id' id) as [->|Hne].
  - (* the call that is served *)
    destruct Hs as [(Hl & Hp & He & Hr)
                   |[(src & Hload & Hl & Hp & He & Hr)
                    |[(Hl & _)|(Hl & _)]]];
      rewrite Hl in El; try discriminate; injection El as <-.
    + injection E as <-. unfold processImage_loaded, processImage_catch.
      rewrite Hid, Nat.eqb_refl.
      destruct (loadSkImage B env input) as [src|message] eqn:Hload; simpl.
      * split; [first [exact Hid | reflexivity]|]. right. left. exists src.
        rewrite Nat.eqb_refl. auto.
      * split; [first [exact Hid | reflexivity]|]. right. right. right.
        rewrite pending_lookup_drop, Nat.eqb_refl.
        repeat split; auto; [apply in_or_app; right; left; reflexivity|].
        exists message. auto.
    + unfold processImage_timeout, processImage_catch in E.
      rewrite options_eta, Hid, Nat.eqb_refl in E.
      destruct (applyY2KCameraEffect B src (in_options input) draws)
        as [processed rest|message|] eqn:Heff; [| |discriminate];
        simpl in E; injection E as <-; simpl.
      * split; [first [exact Hid | reflexivity]|]. right. right. left.
        rewrite pending_lookup_drop, Nat.eqb_refl.
        repeat split; auto.
        exists src, draws, rest, processed.
        repeat split; auto. apply in_or_app; right; left; reflexivity.
      * split; [first [exact Hid | reflexivity]|]. right. right. right.
        rewrite pending_lookup_drop, Nat.eqb_refl.
        repeat split; auto; [apply in_or_app; right; left; reflexivity|].
        exists message. split; [reflexivity|]. right. eauto.
  - (* a stale call *)
    assert (Hstale : (pending_id p =? requestIdRef (w_hook w))%nat = false)
      by (apply Nat.eqb_neq; congruence).
    assert (K : forall value,
               hook_serving B env id input r0
                 (processImage_return (pending_id p) value (w_hook w) w)).
    { intros value. unfold hook_serving, processImage_return. simpl.
      split; [first [exact Hid | reflexivity]|].
      rewrite pending_lookup_drop, Ei.
      destruct (Nat.eqb_spec id' id) as [|_]; [contradiction|].
      destruct Hs as [H|[(src & H)|[(H1 & H2 & H3 & src & dr & rest & pr & H4 & H5 & H6 & H7)
                                   |(H1 & H2 & H3 & H4 & H5)]]].
      - left. exact H.
      - right. left. exists src. exact H.
      - right. right. left. repeat split; auto.
        exists src, dr, rest, pr. repeat split; auto.
        apply in_or_app. now left.
      - right. right. right. repeat split; auto.
        apply in_or_app. now left. }
    destruct p as [i inp|i inp src]; simpl in Hstale, K.
    + injection E as <-. unfold processImage_loaded, processImage_catch.
      rewrite Hstale.
      destruct (loadSkImage B env inp); simpl; apply K.
    + unfold processImage_timeout, processImage_catch in E.
      rewrite Hstale in E.
      destruct (applyY2KCameraEffect B src _ draws); [| |discriminate];
        simpl in E; injection E as <-; apply K.
Qed.

Lemma serving_run (id : nat) (input : ProcessImageInput)
      (r0 : option SkImage) (es : list Event) (w w' : World) :
  only_resumes es -> hook_serving B env id input r0 w ->
  run w es = Some w' -> hook_serving B env id input r0 w'.
Proof.
  revert w. induction es as [|e es IH]; intros w Hes Hs E; simpl in E.
  - now injection E as <-.
  - inversion Hes as [|e' es' He Hes']; subst.
    destruct (step w e) as [w1|] eqn:E1; [|discriminate].
    destruct e as [inp| |id' draws]; try contradiction.
    eapply IH; [exact Hes' | | exact E].
    eapply serving_resume; eauto.
Qed.

(** X28. The latest call wins.  After any history, once [processImage input]
    has been called and until the component calls again, the hook serves
    that call whatever the order in which the calls in flight are resumed:
    it is processing with no error while the call is suspended; when the
    call has finished the result is the image the effect returned for the
    image loaded from [input], or the result is the one the call found and
    the error is the message thrown by the load or by the effect.  Calls
    made earlier change nothing. *)
Theorem latest_call_wins (es1 : list Event) (input : ProcessImageInput)
        (es2 : list Event) (w0 w : World) :
  run hook_initial es1 = Some w0 ->
  run w0 (Call_processImage input :: es2) = Some w ->
  only_resumes es2 ->
  hook_serving B env (S (requestIdRef (w_hook w0))) input
               (st_result (w_hook w0)) w.
Proof.
  intros E0 E Hes.
  pose proof (bounded_run B env es1 _ _ bounded_initial E0) as Hb.
  simpl in E.
  eapply serving_run; [exact Hes | | exact E].
  unfold hook_serving. simpl. split; [reflexivity|]. left.
  repeat split; auto.
  apply pending_lookup_fresh; [|reflexivity].
  unfold hook_bounded in Hb.
  eapply Forall_impl; [|exact Hb]. simpl. intros; lia.
Qed.

End HookProperties.

Lemma latest_call_wins_witness :
  let input := {| in_options := Soft.no_stamp;
                  in_uri := None;
                  in_bytes := None;
                  in_skImage := Some Soft.gray1x1 |} in
  exists w,
    hook_run Soft.backend offline hook_initial
             [Call_processImage input; Call_processImage input; Resume 1 [];
              Resume 2 []] = Some w /\
    hook_serving Soft.backend offline 2 input None w.
Proof.
  intros input. eexists. split; [reflexivity|].
  apply (latest_call_wins Soft.backend offline [Call_processImage input]
           input [Resume 1 []; Resume 2 []] _ _ eq_refl eq_refl).
  repeat constructor.
Defined.

Lemma reset_is_final_witness :
  let input := {| in_options := Soft.no_stamp;
                  in_uri := None;
                  in_bytes := None;
                  in_skImage := Some Soft.gray1x1 |} in
  exists w,
    hook_run Soft.backend offline hook_initial
             ([Call_processImage input] ++ Call_reset :: [Resume 1 []])
    = Some w /\
    st_result (w_hook w) = None /\ st_error (w_hook w) = None /\
    st_processing (w_hook w) = false.
Proof.
  intros input. eexists. split; [reflexivity|].
  apply (reset_is_final Soft.backend offline [Call_processImage input]
           [Resume 1 []] _ eq_refl).
  repeat constructor.
Defined.

(** X29. [saveResult] changes nothing of the hook but the error message.
    Without a result it sets the error to "No result to save" and returns
    null; it returns the path only when the result was encoded and
    written, and then it leaves the state as it was. *)
Theorem saveResult_effects (B : SkiaBackend) (env : HookEnv)
        (outputPath : string) (quality : option Z) (s : HookState) :
  let s' := fst (saveResult B env outputPath quality s) in
  let returned := snd (saveResult B env outputPath quality s) in
  st_result s' = st_result s /\
  st_processing s' = st_processing s /\
  requestIdRef s' = requestIdRef s /\
  (st_result s = None ->
   st_error s' = Some "No result to save"%string /\ returned = None) /\
  (returned = None -> exists message, st_error s' = Some message) /\
  (forall path, returned = Some path ->
     path = outputPath /\ s' = s /\
     exists image encoded,
       st_result s = Some image /\
       encodeToBytes B image (default quality 85%Z) = Some encoded /\
       writeFile env outputPath (btoa env encoded) = Ok tt).
Proof.
  unfold saveResult. cbv zeta.
  destruct (st_result s) as [image|] eqn:Er.
  - destruct (encodeToBytes B image (default quality 85%Z))
      as [encoded|] eqn:Ee.
    + destruct (writeFile env outputPath (btoa env encoded))
        as [[]|message] eqn:Ew; simpl.
      * split; [auto|]. split; [auto|]. split; [auto|].
        split; [discriminate|]. split; [discriminate|].
        intros path [= <-]. repeat split; auto. eauto.
      * split; [auto|]. split; [auto|]. split; [auto|].
        split; [discriminate|]. split; [eauto|]. discriminate.
    + simpl. split; [auto|]. split; [auto|]. split; [auto|].
      split; [discriminate|]. split; [eauto|]. discriminate.
  - simpl. split; [auto|]. split; [auto|]. split; [auto|].
    split; [auto|]. split; [eauto|]. discriminate.
Qed.

(* ------------------------------------------------------------------------- *)
(** ** The pipeline at intensity 0 *)

Lemma applyCoolCast_zero (d : Float32Array) (w h : nat) :
  in_range d -> applyCoolCast d w h 0 = d.
Proof.
  intros Hr. unfold applyCoolCast.
  apply (scan_inv (fun a : Float32Array => a = d)); auto.
  intros x y a _ _ ->. cbv zeta.
  assert (F : forall k m, m = 1 -> clamp (get d k * m) 0 255 = get d k).
  { intros k m ->. rewrite Rmult_1_r. apply clamp_id. now apply in_range_at. }
  rewrite (F _ (1.0 - 0.06 * 0)) by lra. rewrite set_get_id.
  rewrite (F _ (1.0 + 0.02 * 0)) by lra. rewrite set_get_id.
  rewrite (F _ (1.0 + 0.08 * 0)) by lra. apply set_get_id.
Qed.

Lemma idx_mod (x y w c : nat) : (c < 4)%nat -> (idx x y w c mod 4 = c)%nat.
Proof.
  intros Hc. unfold idx.
  rewrite Nat.add_comm, Nat.Div0.mod_add. now apply Nat.mod_small.
Qed.

Lemma idx_below (d : Float32Array) (w h x y c : nat) :
  buffer_of w h d -> (x < w)%nat -> (y < h)%nat -> (c < 4)%nat ->
  (idx x y w c < w * h * 4)%nat /\ (idx x y w c < List.length d)%nat.
Proof. unfold buffer_of, idx. intros -> Hx Hy Hc. nia. Qed.

(** Steps 2 to 4 at intensity 0: every colour becomes 0.95 times the
    luminance of its pixel. *)
Lemma pipeline_colorGrade_zero (px : PixelData) (x y : nat) :
  buffer_of (px_width px) (px_height px) (data px) -> in_range (data px) ->
  (x < px_width px)%nat -> (y < px_height px)%nat ->
  let out := pipeline_colorGrade px 0 in
  (forall c, (c < 3)%nat ->
     get out (idx x y (px_width px) c)
     = 0.95 * luminance (data px) x y (px_width px)) /\
  get out (idx x y (px_width px) 3) = get (data px) (idx x y (px_width px) 3).
Proof.
  destruct px as [d w h]. cbn [data px_width px_height].
  intros Hd Hr Hx Hy. unfold pipeline_colorGrade.
  cbn [data px_width px_height]. cbv zeta.
  rewrite applyCoolCast_zero by exact Hr.
  set (d2 := adjustSaturation d w h (0 * 1.3)).
  assert (Hd2 : buffer_of w h d2)
    by (unfold buffer_of, d2; now rewrite adjustSaturation_length).
  assert (Hr2 : in_range d2) by now apply adjustSaturation_in_range.
  assert (Hgray : forall x' y', (x' < w)%nat -> (y' < h)%nat ->
            (forall c, (c < 3)%nat ->
               get d2 (idx x' y' w c) = luminance d x' y' w) /\
            get d2 (idx x' y' w 3) = get d (idx x' y' w 3)).
  { intros x' y' Hx' Hy'.
    destruct (adjustSaturation_pixel d w h (0 * 1.3) Hd x' y' Hx' Hy')
      as (E0 & E1 & E2 & E3).
    pose proof (luminance_bounds d x' y' w Hr).
    split; [|exact E3].
    intros c Hc. unfold d2. destruct c as [|[|[|c]]]; try lia;
      [rewrite E0 | rewrite E1 | rewrite E2]; rewrite clamp_id; lra. }
  assert (E3 : adjustVibrance d2 w h (0 * 1.3) = d2).
  { apply (buffer_ext_pixels d2 _ w h Hd2 (adjustVibrance_length _ _ _ _)).
    intros x' y' c Hx' Hy' Hc.
    apply adjustVibrance_fixed_pixels; auto.
    left. destruct (Hgray x' y' Hx' Hy') as (G & _).
    rewrite (G 0%nat), (G 1%nat), (G 2%nat) by lia. auto. }
  rewrite E3.
  destruct (Hgray x y Hx Hy) as (G & Ga).
  split.
  - intros c Hc.
    destruct (idx_below d2 w h x y c Hd2 Hx Hy ltac:(lia)) as (H1 & H2).
    rewrite reduceDynamicRange_get by assumption.
    rewrite idx_mod by lia.
    replace (c =? 3)%nat with false by (symmetry; apply Nat.eqb_neq; lia).
    rewrite (G c Hc).
    pose proof (luminance_bounds d x y w Hr).
    rewrite clamp_id; lra.
  - destruct (idx_below d2 w h x y 3 Hd2 Hx Hy ltac:(lia)) as (H1 & H2).
    rewrite reduceDynamicRange_get by assumption.
    rewrite idx_mod by lia. simpl. exact Ga.
Qed.

Lemma applyBloomEffect_buffer_dims (B : SkiaBackend) (image : SkImage)
      (opts : BloomOptions) (out : PixelData) :
  applyBloomEffect_buffer B image opts = Ok out ->
  px_width out = width image /\ px_height out = height image.
Proof.
  unfold applyBloomEffect_buffer. intros E.
  destruct (imageToPixels B image) as [px|] eqn:Epx; [|discriminate].
  apply imageToPixels_dims in Epx as (_ & Ew & Eh).
  cbn [bind result_Monad ret] in E.
  destruct (bloom_masks _ _ _ _) as [lumArray highlightMask].
  run_result E. injection E as <-. auto.
Qed.

Lemma gray_value (lum : R) :
  0 <= lum <= 255 ->
  byte_to_R
    (to_Uint8
       (clamp (Math_max (byte_to_R (to_Uint8 (0.95 * lum))) (5 * 0.8 * 2))
              0 255))
  = IZR (Z.max (Math_round (0.95 * lum)) 8).
Proof.
  intros Hl.
  pose proof (Zfloor_bound (0.95 * lum + 0.5)) as [H1 H2].
  fold (Math_round (0.95 * lum)) in H1, H2.
  set (n := Math_round (0.95 * lum)) in *.
  assert (Hn : (0 <= n <= 243)%Z).
  { split; [assert (-1 < n)%Z by (apply lt_IZR; lra); lia|].
    apply le_IZR. lra. }
  unfold to_Uint8 at 2. fold n. rewrite byte_of_Uint8 by lia.
  replace (Z.max 0 (Z.min 255 n)) with n by lia.
  assert (Hm : Math_max (IZR n) (5 * 0.8 * 2) = IZR (Z.max n 8)).
  { unfold Math_max, Rmax. destruct (Rle_dec (IZR n) (5 * 0.8 * 2)) as [L|G].
    - assert (n <= 8)%Z by (apply le_IZR; lra).
      replace (Z.max n 8) with 8%Z by lia. lra.
    - assert (8 < n)%Z by (apply lt_IZR; lra).
      replace (Z.max n 8) with n by lia. reflexivity. }
  rewrite Hm.
  assert (Hb : (0 <= Z.max n 8 <= 255)%Z) by lia.
  rewrite clamp_id by (split; apply IZR_le; lia).
  unfold to_Uint8. rewrite Math_round_IZR, byte_of_Uint8 by lia.
  f_equal. lia.
Qed.

Lemma Math_floor_zero : Math_floor (2 * 0) = 0%Z.
Proof. unfold Math_floor. apply Zfloor_eq. lra. Qed.

(** X25. At intensity 0 the effect is not the identity.  On an image that
    step 1 does not resize, steps 1 to 9 return the gray image in which the
    three colours of every pixel are the larger of 8 and 0.95 times the
    luminance of the pixel, rounded, and alpha is 255: saturation is called
    with factor 0, the dynamic range is compressed by 0.95, and bloom lifts
    the blacks to 8. *)
Theorem pipeline_stages_intensity_zero (B : SkiaBackend)
        (sourceImage : SkImage) (t : tape) (image : SkImage) (rest : tape)
        (x y : nat) :
  pipeline_stages B sourceImage 0 t = Returns image rest ->
  (Z.of_nat (width sourceImage) * Z.of_nat (height sourceImage) <= 2000000)%Z ->
  buffer_of (width sourceImage) (height sourceImage)
            (map byte_to_R (pixels sourceImage)) ->
  (x < width sourceImage)%nat -> (y < height sourceImage)%nat ->
  let lum :=
    luminance (map byte_to_R (pixels sourceImage)) x y (width sourceImage) in
  let gray := IZR (Z.max (Math_round (0.95 * lum)) 8) in
  (forall c, (c < 3)%nat ->
     get (map byte_to_R (pixels image)) (idx x y (width sourceImage) c) = gray) /\
  get (map byte_to_R (pixels image)) (idx x y (width sourceImage) 3) = 255.
Proof.
  intros E Hsmall Hd Hx Hy lum gray. unfold pipeline_stages in E.
  repeat match type of E with
         | bind _ _ _ = Returns _ _ =>
             let a := fresh "a" in
             let t' := fresh "t" in
             let E1 := fresh "E" in
             apply bind_inv in E; destruct E as (a & t' & E1 & E)
         end.
  cbv zeta in E.
  repeat match goal with
         | H : lift _ _ = Returns _ _ |- _ => apply lift_inv in H as (H & _)
         end.
  (* step 1 *)
  match goal with
  | H : pipeline_reduceResolution B sourceImage 0 = Ok ?a |- _ =>
      unfold pipeline_reduceResolution, reduceResolution in H;
      apply Z.leb_le in Hsmall; rewrite Hsmall in H;
      injection H as <-
  end.
  (* steps 2 to 4 *)
  match goal with
  | H : imageToPixels B sourceImage = Ok ?px |- _ =>
      apply imageToPixels_dims in H; destruct px as [d0 w0 h0];
      cbn [data px_width px_height] in *; destruct H as (-> & -> & ->)
  end.
  set (w := width sourceImage) in *. set (h := height sourceImage) in *.
  set (d := map byte_to_R (pixels sourceImage)) in *.
  set (px := {| data := d; px_width := w; px_height := h |}) in *.
  destruct (pipeline_colorGrade_zero px x y Hd (in_range_bytes _) Hx Hy)
    as (Gc & Ga).
  cbn [data px_width px_height px] in Gc, Ga. fold lum in Gc.
  match goal with
  | H : pixelsToImage B (pipeline_colorGrade px 0) w h = Ok ?im |- _ =>
      apply pixelsToImage_dims in H; destruct H as (Ew1 & Eh1 & Ep1);
      rename im into im1
  end.
  assert (Hl1 : List.length (pipeline_colorGrade px 0) = (w * h * 4)%nat).
  { rewrite pipeline_colorGrade_length. exact Hd. }
  (* step 4b *)
  match goal with
  | H : reduceLocalContrast B im1 (0 * 1.0) 5 = Ok ?im |- _ =>
      replace (0 * 1.0) with 0 in H by lra;
      apply reduceLocalContrast_amount_zero in H; subst im
  end.
  (* step 5 *)
  match goal with
  | H : applyBloomEffect B im1 _ = Ok ?im |- _ =>
      pose proof (applyBloomEffect_count B _ _ _ H) as Hc3;
      unfold applyBloomEffect in H; cbn [bind result_Monad] in H;
      destruct (applyBloomEffect_buffer B im1 (pipeline_bloomOptions 0))
        as [out|] eqn:Eb; [|discriminate];
      apply pixelsToImage_dims in H; destruct H as (Ew3 & Eh3 & Ep3);
      rename im into im3
  end.
  destruct (applyBloomEffect_buffer_dims _ _ _ _ Eb) as (Ewo & Eho).
  assert (Hd1 : buffer_of (width im1) (height im1)
                          (map byte_to_R (pixels im1))).
  { unfold buffer_of. rewrite Ew1, Eh1, Ep1, !length_map. exact Hl1. }
  destruct (applyBloomEffect_zero_strength B im1 (pipeline_bloomOptions 0)
              out x y Eb) as (Bc & Ba); auto.
  { simpl. lra. } { simpl. lra. } { now rewrite Ew1. } { now rewrite Eh1. }
  cbn [intensity pipeline_bloomOptions] in Bc. rewrite Ew1 in Bc, Ba.
  (* step 5b *)
  match goal with
  | H : imageToPixels B im3 = Ok ?p |- _ =>
      apply imageToPixels_dims in H; destruct p as [d3 w3 h3];
      cbn [data px_width px_height] in *; destruct H as (-> & -> & ->)
  end.
  rewrite addChromaticAberration_noop in *
    by (rewrite Math_floor_zero; lia).
  match goal with
  | H : pixelsToImage B (map byte_to_R (pixels im3)) _ _ = Ok ?im |- _ =>
      apply pixelsToImage_dims in H; destruct H as (Ew4 & Eh4 & Ep4);
      rewrite map_round_trip in Ep4;
      assert (im = im3)
        by (rewrite <- (image_eta im), <- (image_eta im3); congruence);
      subst im
  end.
  (* step 6 *)
  match goal with
  | H : pipeline_oversharpening B im3 0 = Ok ?im |- _ =>
      unfold pipeline_oversharpening in H;
      apply applyOversharpening_neutral in H; [subst im | left; lra]
  end.
  (* steps 7 and 9 *)
  match goal with
  | H : imageToPixels B im3 = Ok ?p |- _ =>
      apply imageToPixels_dims in H; destruct p as [d5 w5 h5];
      cbn [data px_width px_height] in *; destruct H as (-> & -> & ->)
  end.
  match goal with
  | H : addDigitalNoise _ _ _ 0 _ = Returns ?d' _ |- _ =>
      apply addDigitalNoise_zero in H; [subst d' | apply in_range_bytes]
  end.
  apply pixelsToImage_dims in E as (_ & _ & Ep).
  rewrite Ew3, Eh3, Ewo, Eho, Ew1, Eh1 in Ep.
  assert (Hl3 : List.length (pixels im3) = (w * h * 4)%nat).
  { rewrite Hc3, Ep1, length_map. exact Hl1. }
  assert (Hlo : List.length (data out) = (w * h * 4)%nat).
  { rewrite Ep3, length_map in Hl3. exact Hl3. }
  assert (Hd3 : buffer_of w h (map byte_to_R (pixels im3))).
  { unfold buffer_of. now rewrite length_map. }
  assert (Hj : forall c, (c < 4)%nat -> (idx x y w c < w * h * 4)%nat).
  { intros c Hc. unfold idx. nia. }
  rewrite Ep.
  split.
  - intros c Hc.
    rewrite get_rounded
      by (rewrite applyBarrelDistortion_length, length_map, Hl3; apply Hj; lia).
    rewrite applyBarrelDistortion_zero by auto.
    rewrite Ep3, get_rounded by (rewrite Hlo; apply Hj; lia).
    rewrite to_Uint8_byte.
    rewrite (Bc c Hc), Ep1.
    rewrite get_rounded by (rewrite Hl1; apply Hj; lia).
    rewrite (Gc c Hc).
    apply gray_value. apply luminance_bounds, in_range_bytes.
  - rewrite get_rounded
      by (rewrite applyBarrelDistortion_length, length_map, Hl3; apply Hj; lia).
    destruct (applyBarrelDistortion_copies (map byte_to_R (pixels im3)) w h 0
                x y Hd3 Hx Hy) as (_ & Ha255 & _).
    rewrite Ha255, to_Uint8_255. unfold byte_to_R. simpl. reflexivity.
Qed.

Lemma pipeline_stages_intensity_zero_witness :
  exists image rest,
    pipeline_stages Soft.backend Soft.gray1x1 0 (repeat 0.5 6)
    = Returns image rest /\
    get (map byte_to_R (pixels image)) (idx 0 0 1 0)
    = IZR (Z.max (Math_round
                    (0.95 * luminance (map byte_to_R (pixels Soft.gray1x1))
                                      0 0 1)) 8) /\
    get (map byte_to_R (pixels image)) (idx 0 0 1 3) = 255.
Proof.
  destruct (pipeline_stages_returns Soft.backend Soft_backend_reliable
              Soft.gray1x1 0 (repeat 0.5 6)) as (image & E & _);
    [simpl; lia | simpl; lia | simpl; lia | apply half_tape_nonzero
    | simpl; lia |].
  exists image, (skipn (6 * (width Soft.gray1x1 * height Soft.gray1x1))
                       (repeat 0.5 6)).
  split; [exact E|].
  destruct (pipeline_stages_intensity_zero Soft.backend Soft.gray1x1 _ image _
              0 0 E) as (Hc & Ha);
    [simpl; lia | reflexivity | simpl; lia | simpl; lia |].
  split; [apply (Hc 0%nat); lia | exact Ha].
Defined.
